(** * dmrgo: the record codec, the map and reduce drivers, and the TSV protocol

    A shallow embedding of [dmrgo]'s job runner (package [dmrgo]: the line
    readers, [mapper], [reducer], [Main], [mapreduce] and its two pools) and of
    [proto.go] ([TSVProtocol.MarshalKV], [TSVProtocol.UnmarshalKVs]).

    Go strings are byte strings: they are [string]s here, one [ascii] per byte.
    A [bufio.Reader] over an input is the string of the bytes not read yet. *)

From Stdlib Require Import String Ascii List ZArith NArith Lia Bool DecimalString.
From Stdlib Require Import DecimalPos DecimalN DecimalZ.
From stdpp Require Import base tactics option list strings.

Open Scope string_scope.
Open Scope list_scope.
Open Scope nat_scope.

#[local] Arguments String.append !_ _ / : simpl nomatch.

(* ===================================================================== *)
(** * Part I: the program                                                 *)
(* ===================================================================== *)

(* --------------------------------------------------------------------- *)
(** ** Bytes and the library functions the readers use                     *)
(* --------------------------------------------------------------------- *)

Definition TAB : ascii := "009"%char.
Definition NL : ascii := "010"%char.
Definition COMMA : ascii := ","%char.
Definition PERCENT : ascii := "%"%char.
Definition PLUS : ascii := "+"%char.
Definition SPACE : ascii := " "%char.

(** Go's [error] values that the readers can return. *)
Inductive error : Type :=
| EOF
| EscapeError (s : string).

(** A fallible result, as Go's [(T, error)] pair with exactly one side set. *)
Inductive result (A : Type) : Type :=
| Ok (a : A)
| Err (e : error).
Arguments Ok {A} a.
Arguments Err {A} e.

(** [splitAt delim s]: the bytes of [s] up to and including the first
    [delim], and the bytes after it; [None] when [s] has no [delim]. *)
Fixpoint splitAt (delim : ascii) (s : string) : option (string * string) :=
  match s with
  | EmptyString => None
  | String c r =>
      if Ascii.eqb c delim then Some (String c EmptyString, r)
      else match splitAt delim r with
           | Some (p, rest) => Some (String c p, rest)
           | None => None
           end
  end.

(** [bufio.Reader.ReadString]: reads until the first occurrence of [delim]
    and returns the bytes read, [delim] included.  When the input ends before
    a [delim], it returns the bytes read so far and [io.EOF].  The third
    component is the reader afterwards. *)
Definition ReadString (br : string) (delim : ascii) : string * option error * string :=
  match splitAt delim br with
  | Some (p, rest) => (p, None, rest)
  | None => (br, Some EOF, EmptyString)
  end.

(** Does byte [c] occur in [cutset]? *)
Fixpoint inCutset (c : ascii) (cutset : string) : bool :=
  match cutset with
  | EmptyString => false
  | String d r => Ascii.eqb c d || inCutset c r
  end.

Definition isEmpty (s : string) : bool :=
  match s with EmptyString => true | String _ _ => false end.

(** [strings.TrimRight]: [s] without its trailing bytes that are in [cutset]. *)
Fixpoint TrimRight (s cutset : string) : string :=
  match s with
  | EmptyString => EmptyString
  | String c r =>
      let r' := TrimRight r cutset in
      if isEmpty r' && inCutset c cutset then EmptyString else String c r'
  end.

(** [s] cut at the first [sep]: the bytes before it and the bytes after it. *)
Fixpoint cut (sep : ascii) (s : string) : option (string * string) :=
  match s with
  | EmptyString => None
  | String c r =>
      if Ascii.eqb c sep then Some (EmptyString, r)
      else match cut sep r with
           | Some (p, rest) => Some (String c p, rest)
           | None => None
           end
  end.

(** [strings.SplitN] for a separator of one byte: at most [n] substrings, the
    last one being the unsplit remainder; [n = 0] gives no substring. *)
Fixpoint SplitN (s : string) (sep : ascii) (n : nat) : list string :=
  match n with
  | 0 => []
  | 1 => [s]
  | S n' =>
      match cut sep s with
      | Some (p, rest) => p :: SplitN rest sep n'
      | None => [s]
      end
  end.

(* --------------------------------------------------------------------- *)
(** ** [net/url]: query escaping                                          *)
(* --------------------------------------------------------------------- *)

Definition inRange (lo hi c : ascii) : bool :=
  (N_of_ascii lo <=? N_of_ascii c)%N && (N_of_ascii c <=? N_of_ascii hi)%N.

(** [url.ishex] *)
Definition ishex (c : ascii) : bool :=
  inRange "0" "9" c || inRange "a" "f" c || inRange "A" "F" c.

(** [url.unhex] *)
Definition unhex (c : ascii) : N :=
  if inRange "0" "9" c then (N_of_ascii c - N_of_ascii "0")%N
  else if inRange "a" "f" c then (N_of_ascii c - N_of_ascii "a" + 10)%N
  else if inRange "A" "F" c then (N_of_ascii c - N_of_ascii "A" + 10)%N
  else 0%N.

(** The first (at most) three bytes of [s]: the operand of [EscapeError]. *)
Definition first3 (s : string) : string := substring 0 3 s.

(** [url.QueryUnescape]: ["%AB"] becomes the byte [0xAB], ["+"] a space; a
    ["%"] that is not followed by two hexadecimal digits is an [EscapeError]
    (Go checks all escapes before it converts any: the first bad one is
    reported either way). *)
Fixpoint QueryUnescape (s : string) : result string :=
  match s with
  | EmptyString => Ok EmptyString
  | String c r =>
      if Ascii.eqb c PERCENT then
        match r with
        | String a (String b r') =>
            if ishex a && ishex b then
              match QueryUnescape r' with
              | Ok t => Ok (String (ascii_of_N (N.lor (N.shiftl (unhex a) 4) (unhex b))) t)
              | Err e => Err e
              end
            else Err (EscapeError (first3 s))
        | _ => Err (EscapeError (first3 s))
        end
      else
        match QueryUnescape r with
        | Ok t => Ok (String (if Ascii.eqb c PLUS then SPACE else c) t)
        | Err e => Err e
        end
  end.

(** [url.shouldEscape] in mode [encodeQueryComponent]: everything but the
    unreserved characters is escaped. *)
Definition shouldEscape (c : ascii) : bool :=
  if inRange "a" "z" c || inRange "A" "Z" c || inRange "0" "9" c then false
  else if Ascii.eqb c "-" || Ascii.eqb c "_" || Ascii.eqb c "." || Ascii.eqb c "~" then false
  else true.

(** The digit of [upperhex = "0123456789ABCDEF"] at index [n]. *)
Definition upperhex (n : N) : ascii :=
  if (n <? 10)%N then ascii_of_N (N_of_ascii "0" + n)
  else ascii_of_N (N_of_ascii "A" + (n - 10)).

(** [url.QueryEscape] *)
Fixpoint QueryEscape (s : string) : string :=
  match s with
  | EmptyString => EmptyString
  | String c r =>
      if shouldEscape c then
        if Ascii.eqb c SPACE then String PLUS (QueryEscape r)
        else String PERCENT
               (String (upperhex (N.shiftr (N_of_ascii c) 4))
                  (String (upperhex (N.land (N_of_ascii c) 15)) (QueryEscape r)))
      else String c (QueryEscape r)
  end.

(* --------------------------------------------------------------------- *)
(** ** The record and the two line readers                                *)
(* --------------------------------------------------------------------- *)

(** [KeyValue] is the primary type for interacting with Hadoop. *)
Record KeyValue : Type := mkKeyValue {
  ReduceKey : string;
  SortKey : string;
  Value : string
}.

(** [readLineValue]: the result and the reader afterwards. *)
Definition readLineValue (br : string) : result KeyValue * string :=
  let '(s, err, br) := ReadString br NL in
  let s := TrimRight s (String NL EmptyString) in
  match err with
  | Some e => (Err e, br)
  | None => (Ok (mkKeyValue "" "" s), br)
  end.

(** [readLineKeyValue]: the result and the reader afterwards. *)
Definition readLineKeyValue (br : string) : result KeyValue * string :=
  let '(k, err, br) := ReadString br TAB in
  match err with
  | Some e => (Err e, br)
  | None =>
      let k := TrimRight k (String TAB EmptyString) in
      let keys := SplitN k COMMA 2 in
      match QueryUnescape (nth 0 keys EmptyString) with
      | Err e => (Err e, br)
      | Ok reduceKey =>
          let sortKeyR :=
            if Nat.eqb (length keys) 2
            then QueryUnescape (nth 1 keys EmptyString)
            else Ok EmptyString in
          match sortKeyR with
          | Err e => (Err e, br)
          | Ok sortKey =>
              let '(v, err, br) := ReadString br NL in
              match err with
              | Some e => (Err e, br)
              | None =>
                  let v := TrimRight v (String NL EmptyString) in
                  (Ok (mkKeyValue reduceKey sortKey v), br)
              end
          end
      end
  end.

(** Modelled from the spec: [encodeKeyValueLine], the writer of the
    intermediate line format, lives in the emitter, which is not among the
    sources.  The spec (4.1): percent-encode reduceKey and sortKey, join them
    with a comma (omit comma and sortKey if sortKey is empty), append tab,
    value, newline.  Percent-encoding is [url.QueryEscape], the inverse of the
    [url.QueryUnescape] that [readLineKeyValue] applies. *)
Definition encodeKeyValueLine (reduceKey sortKey value : string) : string :=
  QueryEscape reduceKey
  +:+ (if isEmpty sortKey then "" else String COMMA (QueryEscape sortKey))
  +:+ String TAB value +:+ String NL "".

(** [decodeKeyValueLine line]: [readLineKeyValue] on a reader that holds
    exactly [line]. *)
Definition decodeKeyValueLine (line : string) : result KeyValue :=
  fst (readLineKeyValue line).

(* --------------------------------------------------------------------- *)
(** ** The job and the map driver                                         *)
(* --------------------------------------------------------------------- *)

(** [MapReduceJob], as far as the map phase goes.  A call of the job acts on
    the job's own state and on the emitter it is handed: [World] stands for
    both. *)
Class MapJob (World : Type) : Type := {
  Map : string -> string -> World -> World;
  MapFinal : World -> World
}.

(** The loop of [mapper].  Every turn that does not leave the loop consumes
    input, so [fuel] bounds the number of turns; [None] is a loop that was
    cut short by [fuel]. *)
Fixpoint mapper_loop {World} `{MapJob World} (fuel : nat) (br : string) (w : World)
  : option World :=
  match fuel with
  | 0 => None
  | S fuel' =>
      match readLineValue br with
      | (Err _, _) => Some w
      | (Ok kv, br') => mapper_loop fuel' br' (Map "" (Value kv) w)
      end
  end.

(** [mapper]: calls the map routine on the lines of the reader [r]. *)
Definition mapper {World} `{MapJob World} (r : string) (w : World) : option World :=
  mapper_loop (S (String.length r)) r w.

(** [mapperFinal] *)
Definition mapperFinal {World} `{MapJob World} (w : World) : World := MapFinal w.

(** The job that only records how it is called. *)
Inductive JobCall : Type :=
| CallMap (key value : string)
| CallMapFinal.

#[export] Instance TraceJob : MapJob (list JobCall) := {
  Map := fun k v w => w ++ [CallMap k v];
  MapFinal := fun w => w ++ [CallMapFinal]
}.

(* --------------------------------------------------------------------- *)
(** ** [Main]: the choice of the mode                                     *)
(* --------------------------------------------------------------------- *)

(** The package-level option variables that [init] binds to the flags
    [-mapper], [-reducer], [-mapreduce], [-partitions], [-mappers] and
    [-reducers]. *)
Record Flags : Type := mkFlags {
  optDoMap : bool;
  optDoReduce : bool;
  optDoMapReduce : bool;
  optNumPartitions : Z;
  optNumMappers : Z;
  optNumReducers : Z
}.

(** What [Main] does, in order.  [MExit] ends the process: nothing follows. *)
Inductive MainStep : Type :=
| MMapreduce            (* mapreduce(mrjob) *)
| MPrintln (msg : string)
| MExit (code : Z)      (* os.Exit(code) *)
| MMapper               (* mapper(mrjob, os.Stdin, emitter) *)
| MMapperFinal          (* mapperFinal(mrjob, emitter) *)
| MReducer              (* reducer(mrjob, os.Stdin, emitter) *)
| MFlush.               (* emitter.Flush() *)

Definition msgBoth : string :=
  "can either map or reduce, not both. (Did  you mean --mapreduce ?)".
Definition msgNeither : string :=
  "neither map nor reduce nor secondary key reduce called".

(** [Main] *)
Definition Main (f : Flags) : list MainStep :=
  if optDoMapReduce f then [MMapreduce]
  else if optDoMap f && optDoReduce f then [MPrintln msgBoth; MExit 1]
  else if negb (optDoMap f) && negb (optDoReduce f) then [MPrintln msgNeither; MExit 1]
  else (if optDoMap f then [MMapper; MMapperFinal] else [])
       ++ (if optDoReduce f then [MReducer] else [])
       ++ [MFlush].

(** The step is map or reduce work. *)
Definition isWork (s : MainStep) : bool :=
  match s with
  | MMapreduce | MMapper | MMapperFinal | MReducer => true
  | _ => false
  end.

(** [Main] ends in [os.Exit] with a non-zero code. *)
Definition exitsNonZero (steps : list MainStep) : bool :=
  match last steps with
  | Some (MExit code) => negb (code =? 0)%Z
  | _ => false
  end.

(** [Main] prints a message for the user. *)
Definition reportsError (steps : list MainStep) : bool :=
  existsb (fun s => match s with MPrintln _ => true | _ => false end) steps.

(* --------------------------------------------------------------------- *)
(** ** A worker of the mapper pool of [mapreduce]                          *)
(* --------------------------------------------------------------------- *)

(** The work items of the mapper pool. *)
Record mapperFile : Type := mkMapperFile {
  index : nat;
  fname : string
}.

(** What a mapper worker does, in order. *)
Inductive WorkerStep : Type :=
| WOpenError                 (* fmt.Fprintln(os.Stderr, "err opening ", f, ": ", err) *)
| WNewEmitter (idx : nat)    (* newPartitionEmitter(..., "tmp-map-out-p<pid>-f<idx>") *)
| WMap (value : string)      (* a call mrjob.Map("", value, mEmit) made by mapper *)
| WEmitFlush                 (* mEmit.Flush() *)
| WEmitClose                 (* mEmit.Close() *)
| WFileClose                 (* f.Close() *)
| WDone.                     (* wg.Done() *)

(** The calls of [mrjob.Map] that [mapper] makes on a file with [content]. *)
Definition mapCalls (content : string) : list WorkerStep :=
  match mapper content ([] : list JobCall) with
  | Some calls =>
      omap (fun c => match c with CallMap _ v => Some (WMap v) | _ => None end) calls
  | None => []
  end.

(** The body of a goroutine of the mapper pool, run on the work items
    [inputs] that it receives from the channel [mapperWork] until the channel
    is closed.  [open name] is the content of the file [name], or [None] when
    [os.Open] fails.  The function gives the steps of the worker and the work
    items that it has left in the channel. *)
Fixpoint mapperWorker (open : string -> option string) (inputs : list mapperFile)
  : list WorkerStep * list mapperFile :=
  match inputs with
  | [] => ([WDone], [])
  | input :: rest =>
      match open (fname input) with
      | None => ([WOpenError], rest)
      | Some f =>
          let '(steps, remaining) := mapperWorker open rest in
          ([WNewEmitter (index input)] ++ mapCalls f
             ++ [WEmitFlush; WEmitClose; WFileClose] ++ steps, remaining)
      end
  end.

(** The worker has signalled the phase barrier. *)
Definition signalsDone (steps : list WorkerStep) : bool :=
  existsb (fun s => match s with WDone => true | _ => false end) steps.

(* --------------------------------------------------------------------- *)
(** ** [proto.go]: the TSV protocol                                       *)
(* --------------------------------------------------------------------- *)

(** [reflect.Kind], in the order of its constants. *)
Inductive Kind : Type :=
| KInvalid | KBool
| KInt | KInt8 | KInt16 | KInt32 | KInt64
| KUint | KUint8 | KUint16 | KUint32 | KUint64 | KUintptr
| KFloat32 | KFloat64 | KComplex64 | KComplex128
| KArray | KChan | KFunc | KInterface | KMap | KPtr | KSlice
| KString | KStruct | KUnsafePointer.

(** The number of a [reflect.Kind] constant. *)
Definition KindNumber (k : Kind) : nat :=
  match k with
  | KInvalid => 0 | KBool => 1
  | KInt => 2 | KInt8 => 3 | KInt16 => 4 | KInt32 => 5 | KInt64 => 6
  | KUint => 7 | KUint8 => 8 | KUint16 => 9 | KUint32 => 10 | KUint64 => 11
  | KUintptr => 12
  | KFloat32 => 13 | KFloat64 => 14 | KComplex64 => 15 | KComplex128 => 16
  | KArray => 17 | KChan => 18 | KFunc => 19 | KInterface => 20 | KMap => 21
  | KPtr => 22 | KSlice => 23 | KString => 24 | KStruct => 25
  | KUnsafePointer => 26
  end.

Definition Kind_eqb (a b : Kind) : bool := Nat.eqb (KindNumber a) (KindNumber b).

Inductive IntKind : Type := SzInt | SzInt8 | SzInt16 | SzInt32 | SzInt64.
Inductive UintKind : Type := SzUint | SzUint8 | SzUint16 | SzUint32 | SzUint64.
Inductive FloatKind : Type := SzFloat32 | SzFloat64.
(** The kinds that the protocol has no case for. *)
Inductive OtherKind : Type :=
| OUintptr | OComplex64 | OComplex128 | OChan | OFunc | OInterface | OMap
| OPtr | OUnsafePointer.

Section Proto.

(** Go's [float64], and [strconv.FormatFloat(f, 'g', 5, 64)]. *)
Context {float64 : Type} (FormatFloat_g5 : float64 -> string).

(** A Go value held in an [interface{}], as [reflect] shows it.  [VNil] is the
    nil interface: [reflect.TypeOf] gives the nil [Type] for it, and
    [reflect.ValueOf] the zero [Value], whose kind is [Invalid]. *)
#[warnings="-register-all"] Inductive GoValue : Type :=
| VNil
| VBool (b : bool)
| VInt (k : IntKind) (i : Z)
| VUint (k : UintKind) (u : N)
| VFloat (k : FloatKind) (f : float64)
| VString (s : string)
| VStruct (fields : list GoValue)
| VArray (elems : list GoValue)
| VSlice (elems : list GoValue)
| VOther (k : OtherKind).

(** [reflect.Value.Kind] *)
Definition KindOf (v : GoValue) : Kind :=
  match v with
  | VNil => KInvalid
  | VBool _ => KBool
  | VInt SzInt _ => KInt | VInt SzInt8 _ => KInt8 | VInt SzInt16 _ => KInt16
  | VInt SzInt32 _ => KInt32 | VInt SzInt64 _ => KInt64
  | VUint SzUint _ => KUint | VUint SzUint8 _ => KUint8
  | VUint SzUint16 _ => KUint16 | VUint SzUint32 _ => KUint32
  | VUint SzUint64 _ => KUint64
  | VFloat SzFloat32 _ => KFloat32 | VFloat SzFloat64 _ => KFloat64
  | VString _ => KString
  | VStruct _ => KStruct
  | VArray _ => KArray
  | VSlice _ => KSlice
  | VOther OUintptr => KUintptr
  | VOther OComplex64 => KComplex64 | VOther OComplex128 => KComplex128
  | VOther OChan => KChan | VOther OFunc => KFunc
  | VOther OInterface => KInterface | VOther OMap => KMap
  | VOther OPtr => KPtr | VOther OUnsafePointer => KUnsafePointer
  end.

(** [reflect.TypeOf(v).Kind()]: the method call on the nil [Type] panics
    ([None]). *)
Definition TypeKind (v : GoValue) : option Kind :=
  match v with
  | VNil => None
  | _ => Some (KindOf v)
  end.

(** [isPrimitive] *)
Definition isPrimitive (k : Kind) : bool :=
  match k with
  | KBool
  | KInt | KInt8 | KInt16 | KInt32 | KInt64
  | KUint | KUint8 | KUint16 | KUint32 | KUint64
  | KFloat32 | KFloat64
  | KString => true
  | _ => false
  end.

(** [strconv.FormatInt(i, 10)] and [strconv.FormatUint(u, 10)] *)
Definition FormatInt (i : Z) : string := NilZero.string_of_int (Z.to_int i).
Definition FormatUint (u : N) : string := NilZero.string_of_uint (N.to_uint u).

(** [string(k)] for a [Kind] [k]: the string of the rune with that number. *)
Definition stringOfKind (k : Kind) : string :=
  String (ascii_of_nat (KindNumber k)) EmptyString.

(** [primitiveToString] *)
Definition primitiveToString (v : GoValue) : string :=
  match v with
  | VBool b => if b then "1" else "0"
  | VInt _ i => FormatInt i
  | VUint _ u => FormatUint u
  | VFloat _ f => FormatFloat_g5 f
  | VString s => s
  | _ => "(unknown type " +:+ stringOfKind (KindOf v) +:+ ")"
  end.

(** [strings.Join] *)
Fixpoint Join (elems : list string) (sep : string) : string :=
  match elems with
  | [] => ""
  | [e] => e
  | e :: rest => e +:+ sep +:+ Join rest sep
  end.

(** [reflect.Value.Field] over all field indices, and [reflect.Value.Index]
    over all element indices. *)
Definition Fields (v : GoValue) : list GoValue :=
  match v with VStruct fields => fields | _ => [] end.
Definition Elements (v : GoValue) : list GoValue :=
  match v with VArray elems | VSlice elems => elems | _ => [] end.

(** The strings [vs] that [MarshalKV] collects from [value], whose type has
    kind [vKind]. *)
Definition valueStrings (vKind : Kind) (value : GoValue) : list string :=
  if Kind_eqb vKind KStruct then map primitiveToString (Fields value)
  else if isPrimitive vKind then [primitiveToString value]
  else if Kind_eqb vKind KArray || Kind_eqb vKind KSlice
       then map primitiveToString (Elements value)
  else [].

(** [TSVProtocol.MarshalKV]; [None] is a panic. *)
Definition MarshalKV (reduceKey sortKey value : GoValue) : option KeyValue :=
  match TypeKind value with
  | None => None
  | Some vKind =>
      let vs := valueStrings vKind value in
      let vals := Join vs (String TAB EmptyString) in
      let reduceKeyVal := reduceKey in
      let r := primitiveToString reduceKeyVal in
      let sortKeyVal := reduceKey in
      let s := primitiveToString sortKeyVal in
      Some (mkKeyValue r s vals)
  end.

End Proto.

Arguments VNil {float64}.
Arguments VBool {float64} b.
Arguments VInt {float64} k i.
Arguments VUint {float64} k u.
Arguments VString {float64} s.
Arguments VStruct {float64} fields.
Arguments VArray {float64} elems.
Arguments VSlice {float64} elems.
Arguments VOther {float64} k.

(* --------------------------------------------------------------------- *)
(** ** The reduce driver                                                  *)
(* --------------------------------------------------------------------- *)

(** [reducer] runs the driver loop and, for every group, one goroutine that
    calls [mrjob.Reduce]; they share the variables [values] and [done], which
    the closure captures by reference, and the channels.  The embedding is a
    transition system: a state holds the driver, the shared variables, the
    channels and the goroutines; a step is one action of the driver or of one
    goroutine. *)

(** A channel made by [make(chan string, 64)].  [vhist] is a history: every
    value sent so far, whether received or not.  No step reads it. *)
Record vchan : Type := mkVchan {
  vbuf : list string;
  vclosed : bool;
  vhist : list string
}.

Definition valuesCap : nat := 64.

(** Where a goroutine [go func() { ... }()] of [reducer] is. *)
Inductive gpc : Type :=
| GStart                (* started by [go], has not run yet *)
| GReduce (ch : nat)    (* inside mrjob.Reduce(.., .., ch, emitter) *)
| GSending (d : nat)    (* in [done <- true], on channel d *)
| GSent                 (* before [close(done)] *)
| GClosing (d : nat)    (* in [close(done)], on channel d *)
| GDone.                (* returned *)

(** A goroutine: [g_mkv] is the variable [mkv] of the loop turn that started
    it (every turn declares its own); [g_got] is a history, the values
    that its [Reduce] has received. *)
Record goroutine : Type := mkGoroutine {
  g_mkv : KeyValue;
  g_pc : gpc;
  g_got : list string
}.

(** Where the driver is.  [DClose] and [DWait] are [close(values)] and
    [<-done]: inside the loop for the record [mkv] ([Some mkv]), or after the
    loop ([None]). *)
Inductive dpc : Type :=
| DRead                          (* mkv, err := readLineKeyValue(br) and the tests *)
| DClose (next : option KeyValue)
| DWait (next : option KeyValue)
| DMakeValues (mkv : KeyValue)   (* isFirstRun = false; values = make(chan string, 64) *)
| DMakeDone (mkv : KeyValue)     (* done = make(chan bool) *)
| DSpawn (mkv : KeyValue)        (* go func() {...}(); currentReduceKey = mkv.ReduceKey *)
| DSend (mkv : KeyValue)         (* values <- mkv.Value *)
| DReturned.

(** A call of [mrjob.Reduce]: reduceKey, sortKey and the channel. *)
Definition ReduceCall : Type := string * string * nat.

(** The state.  [values] and [done] are the shared variables ([None] is the
    nil channel); [vchans] and [dchans] are the channels made so far, a
    channel being named by its position ([dchans] holds, for every
    [chan bool], whether it is closed).  [calls] and [early] are histories:
    the calls of [mrjob.Reduce] in the order in which they were made, and
    how many times [<-done] returned because the channel was closed. *)
Record state : Type := mkState {
  d_pc : dpc;
  br : string;
  currentReduceKey : string;
  isFirstRun : bool;
  values : option nat;
  done : option nat;
  vchans : list vchan;
  dchans : list bool;
  gs : list goroutine;
  calls : list ReduceCall;
  early : nat;
  panicked : option string
}.

Definition set_pc (p : dpc) (s : state) : state :=
  mkState p (br s) (currentReduceKey s) (isFirstRun s) (values s) (done s)
    (vchans s) (dchans s) (gs s) (calls s) (early s) (panicked s).
Definition set_br (b : string) (s : state) : state :=
  mkState (d_pc s) b (currentReduceKey s) (isFirstRun s) (values s) (done s)
    (vchans s) (dchans s) (gs s) (calls s) (early s) (panicked s).
Definition set_currentReduceKey (k : string) (s : state) : state :=
  mkState (d_pc s) (br s) k (isFirstRun s) (values s) (done s)
    (vchans s) (dchans s) (gs s) (calls s) (early s) (panicked s).
Definition set_isFirstRun (b : bool) (s : state) : state :=
  mkState (d_pc s) (br s) (currentReduceKey s) b (values s) (done s)
    (vchans s) (dchans s) (gs s) (calls s) (early s) (panicked s).
Definition set_values (v : option nat) (s : state) : state :=
  mkState (d_pc s) (br s) (currentReduceKey s) (isFirstRun s) v (done s)
    (vchans s) (dchans s) (gs s) (calls s) (early s) (panicked s).
Definition set_done (d : option nat) (s : state) : state :=
  mkState (d_pc s) (br s) (currentReduceKey s) (isFirstRun s) (values s) d
    (vchans s) (dchans s) (gs s) (calls s) (early s) (panicked s).
Definition set_vchans (v : list vchan) (s : state) : state :=
  mkState (d_pc s) (br s) (currentReduceKey s) (isFirstRun s) (values s) (done s)
    v (dchans s) (gs s) (calls s) (early s) (panicked s).
Definition set_dchans (d : list bool) (s : state) : state :=
  mkState (d_pc s) (br s) (currentReduceKey s) (isFirstRun s) (values s) (done s)
    (vchans s) d (gs s) (calls s) (early s) (panicked s).
Definition set_gs (g : list goroutine) (s : state) : state :=
  mkState (d_pc s) (br s) (currentReduceKey s) (isFirstRun s) (values s) (done s)
    (vchans s) (dchans s) g (calls s) (early s) (panicked s).
Definition set_calls (c : list ReduceCall) (s : state) : state :=
  mkState (d_pc s) (br s) (currentReduceKey s) (isFirstRun s) (values s) (done s)
    (vchans s) (dchans s) (gs s) c (early s) (panicked s).
Definition set_early (n : nat) (s : state) : state :=
  mkState (d_pc s) (br s) (currentReduceKey s) (isFirstRun s) (values s) (done s)
    (vchans s) (dchans s) (gs s) (calls s) n (panicked s).
Definition panic (msg : string) (s : state) : state :=
  mkState (d_pc s) (br s) (currentReduceKey s) (isFirstRun s) (values s) (done s)
    (vchans s) (dchans s) (gs s) (calls s) (early s) (Some msg).

Definition set_g_pc (p : gpc) (g : goroutine) : goroutine :=
  mkGoroutine (g_mkv g) p (g_got g).

(** The state in which [reducer] starts on the reader [r]. *)
Definition init (r : string) : state :=
  mkState DRead r "" true None None [] [] [] [] 0 None.

(** [close(values)] by the driver, which goes on at [p]. *)
Definition closeValues (p : dpc) (s : state) : option state :=
  match values s with
  | None => Some (panic "close of nil channel" s)
  | Some ch =>
      match vchans s !! ch with
      | None => None
      | Some c =>
          if vclosed c then Some (panic "close of closed channel" s)
          else Some (set_pc p
                       (set_vchans (<[ch := mkVchan (vbuf c) true (vhist c)]> (vchans s)) s))
      end
  end.

(** Where the driver goes on after [<-done]. *)
Definition afterWait (next : option KeyValue) : dpc :=
  match next with
  | Some mkv => DMakeValues mkv
  | None => DReturned
  end.

(** One step of the driver; [None] when it is blocked or has returned. *)
Definition driver_step (s : state) : option state :=
  match d_pc s with
  | DRead =>
      match readLineKeyValue (br s) with
      | (Err _, br') => Some (set_pc (DClose None) (set_br br' s))
      | (Ok mkv, br') =>
          let s := set_br br' s in
          if negb (String.eqb (currentReduceKey s) (ReduceKey mkv)) || isFirstRun s then
            if negb (isFirstRun s) then Some (set_pc (DClose (Some mkv)) s)
            else Some (set_pc (DMakeValues mkv) s)
          else Some (set_pc (DSend mkv) s)
      end
  | DClose next => closeValues (DWait next) s
  | DWait next =>
      match done s with
      | None => None (* a receive from the nil channel blocks for ever *)
      | Some d =>
          match dchans s !! d with
          | Some true => (* closed: the receive returns at once *)
              Some (set_pc (afterWait next) (set_early (S (early s)) s))
          | _ => None (* blocked until a sender comes: see [go_step] *)
          end
      end
  | DMakeValues mkv =>
      Some (set_pc (DMakeDone mkv)
              (set_values (Some (length (vchans s)))
                 (set_vchans (vchans s ++ [mkVchan [] false []])
                    (set_isFirstRun false s))))
  | DMakeDone mkv =>
      Some (set_pc (DSpawn mkv)
              (set_done (Some (length (dchans s)))
                 (set_dchans (dchans s ++ [false]) s)))
  | DSpawn mkv =>
      Some (set_pc (DSend mkv)
              (set_currentReduceKey (ReduceKey mkv)
                 (set_gs (gs s ++ [mkGoroutine mkv GStart []]) s)))
  | DSend mkv =>
      match values s with
      | None => None (* a send on the nil channel blocks for ever *)
      | Some ch =>
          match vchans s !! ch with
          | None => None
          | Some c =>
              if vclosed c then Some (panic "send on closed channel" s)
              else if length (vbuf c) <? valuesCap then
                Some (set_pc DRead
                        (set_vchans
                           (<[ch := mkVchan (vbuf c ++ [Value mkv]) false
                                      (vhist c ++ [Value mkv])]> (vchans s)) s))
              else None (* the buffer is full *)
          end
      end
  | DReturned => None
  end.

(** One step of goroutine [i] other than the return of [mrjob.Reduce]. *)
Definition go_step (i : nat) (s : state) : option state :=
  match gs s !! i with
  | None => None
  | Some g =>
      match g_pc g with
      | GStart =>
          (* the arguments are evaluated, [values] among them, and
             mrjob.Reduce is called *)
          match values s with
          | None => None
          | Some ch =>
              Some (set_calls (calls s ++ [(ReduceKey (g_mkv g), SortKey (g_mkv g), ch)])
                      (set_gs (<[i := set_g_pc (GReduce ch) g]> (gs s)) s))
          end
      | GReduce ch =>
          (* Reduce receives the next value of its channel *)
          match vchans s !! ch with
          | None => None
          | Some c =>
              match vbuf c with
              | [] => None
              | v :: buf' =>
                  Some (set_vchans (<[ch := mkVchan buf' (vclosed c) (vhist c)]> (vchans s))
                          (set_gs (<[i := mkGoroutine (g_mkv g) (GReduce ch) (g_got g ++ [v])]>
                                     (gs s)) s))
              end
          end
      | GSending d =>
          (* the channel is not buffered: the send meets the driver's
             receive, or blocks *)
          match dchans s !! d with
          | None => None
          | Some true => Some (panic "send on closed channel" s)
          | Some false =>
              match d_pc s, done s with
              | DWait next, Some d' =>
                  if Nat.eqb d d' then
                    Some (set_pc (afterWait next)
                            (set_gs (<[i := set_g_pc GSent g]> (gs s)) s))
                  else None
              | _, _ => None
              end
          end
      | GSent =>
          (* the operand [done] of [close] is evaluated *)
          match done s with
          | None => None
          | Some d => Some (set_gs (<[i := set_g_pc (GClosing d) g]> (gs s)) s)
          end
      | GClosing d =>
          match dchans s !! d with
          | None => None
          | Some true => Some (panic "close of closed channel" s)
          | Some false =>
              Some (set_dchans (<[d := true]> (dchans s))
                      (set_gs (<[i := set_g_pc GDone g]> (gs s)) s))
          end
      | GDone => None
      end
  end.

(** [mrjob.Reduce] of goroutine [i] returns, and the operand [done] of the
    send is evaluated.  A job may return whenever it likes. *)
Definition ret_step (i : nat) (s : state) : option state :=
  match gs s !! i with
  | None => None
  | Some g =>
      match g_pc g, done s with
      | GReduce _, Some d => Some (set_gs (<[i := set_g_pc (GSending d) g]> (gs s)) s)
      | _, _ => None
      end
  end.

(** Who moves. *)
Inductive label : Type :=
| LDriver
| LGo (i : nat)
| LRet (i : nat).

(** A step; a panic ends the process. *)
Definition step (l : label) (s : state) : option state :=
  match panicked s with
  | Some _ => None
  | None =>
      match l with
      | LDriver => driver_step s
      | LGo i => go_step i s
      | LRet i => ret_step i s
      end
  end.

(** The run along a schedule. *)
Fixpoint run (sched : list label) (s : state) : option state :=
  match sched with
  | [] => Some s
  | l :: sched' =>
      match step l s with
      | Some s' => run sched' s'
      | None => None
      end
  end.

(** [s'] is reached from [s]. *)
Definition reaches (s s' : state) : Prop := exists sched, run sched s = Some s'.

(* --------------------------------------------------------------------- *)
(** ** [mapreduce]: the mapper pool, the reducer pool and the barrier      *)
(* --------------------------------------------------------------------- *)

(** [fmt.Sprintf] with the verb [%d]. *)
Definition Sprintf_d (n : Z) : string := FormatInt n.

(** [n] bytes ["0"]. *)
Fixpoint zeros (n : nat) : string :=
  match n with
  | 0 => ""
  | S k => String "0" (zeros k)
  end.

(** [fmt.Sprintf] with the verb [%04d]: the digits are padded with zeros on
    the left to a width of four bytes; a minus sign takes one of the four. *)
Definition Sprintf_04d (n : Z) : string :=
  if (n <? 0)%Z then
    let d := FormatInt (- n) in String "-" (zeros (3 - String.length d) +:+ d)
  else
    let d := FormatInt n in zeros (4 - String.length d) +:+ d.

(** The names that [mapreduce] builds with [fmt.Sprintf]. *)
Definition mapOutPrefix (pid idx : Z) : string :=
  "tmp-map-out-p" +:+ Sprintf_d pid +:+ "-f" +:+ Sprintf_d idx.

Definition mapOutPrefixStdin (pid : Z) : string :=
  "tmp-map-out-p" +:+ Sprintf_d pid +:+ "-f0".

Definition mapOutPattern (pid partition : Z) : string :=
  "tmp-map-out-p" +:+ Sprintf_d pid +:+ "-f*." +:+ Sprintf_04d partition.

Definition redInName (pid partition : Z) : string :=
  "tmp-red-in-p" +:+ Sprintf_d pid +:+ "." +:+ Sprintf_04d partition.

Definition redOutName (pid partition : Z) : string :=
  "red-out-p" +:+ Sprintf_d pid +:+ "." +:+ Sprintf_04d partition.

(** The text of the [fmt.Printf] that ends [mapreduce]. *)
Definition outputMessage (pid numPartitions : Z) : string :=
  if (numPartitions =? 1)%Z then
    "output is in: red-out-p" +:+ Sprintf_d pid +:+ ".0000" +:+ String NL ""
  else
    "output is in: red-out-p" +:+ Sprintf_d pid +:+ ".0000 - red-out-p"
      +:+ Sprintf_d pid +:+ "." +:+ Sprintf_04d (numPartitions - 1) +:+ String NL "".

(** How the body of a loop ends: the loop goes on, or the goroutine returns
    from inside the body, or the body panics. *)
Inductive outcome : Type :=
| GoesOn
| Returns
| Panics.

Section Pool.

(** Both pools of [mapreduce] are made of goroutines of one shape,
    [for x := range work { body }; wg.Done()].  [body x] gives the steps of
    the loop body on the item [x] and how it ends.  [doneStep] is the step
    [wg.Done()]. *)
Context {Item Step : Type} (body : Item -> list Step * outcome) (doneStep : Step).

(** Where a goroutine of a pool is. *)
Inductive wpc : Type :=
| PRange              (* at [range]: waits for an item, or for the close *)
| PBody (x : Item)    (* has received [x]: the loop body is next *)
| PDoneNext           (* the channel was closed, the loop is left: wg.Done() is next *)
| PReturned           (* has returned from inside the loop body *)
| PPanicked           (* has panicked inside the loop body *)
| PEnded.             (* has called wg.Done() and ended *)

(** A goroutine of a pool.  [w_got] and [w_log] are histories: the items
    that it has received and the steps that it has made. *)
Record worker : Type := mkWorker {
  w_pc : wpc;
  w_got : list Item;
  w_log : list Step
}.

(** What a step of a goroutine does to the rest of the process: it takes
    the item that the main goroutine is sending, or it calls [wg.Done()], or
    nothing, or it ends the process by a panic. *)
Inductive effect : Type :=
| Took
| Signalled
| Quiet
| Panicked.

(** One step of a goroutine of a pool.  The channel is not buffered:
    [offer] is the item that the main goroutine is blocked sending, if any;
    [closed] tells whether the channel is closed.  [None] when the
    goroutine is blocked or has ended. *)
Definition worker_step (offer : option Item) (closed : bool) (w : worker)
  : option (worker * effect) :=
  match w_pc w with
  | PRange =>
      match offer with
      | Some x => Some (mkWorker (PBody x) (w_got w ++ [x]) (w_log w), Took)
      | None =>
          if closed then Some (mkWorker PDoneNext (w_got w) (w_log w), Quiet)
          else None
      end
  | PBody x =>
      let '(steps, o) := body x in
      Some (mkWorker (match o with
                      | GoesOn => PRange
                      | Returns => PReturned
                      | Panics => PPanicked
                      end) (w_got w) (w_log w ++ steps),
            match o with Panics => Panicked | _ => Quiet end)
  | PDoneNext => Some (mkWorker PEnded (w_got w) (w_log w ++ [doneStep]), Signalled)
  | PReturned => None
  | PPanicked => None
  | PEnded => None
  end.

End Pool.

Arguments wpc Item : clear implicits.
Arguments worker Item Step : clear implicits.
Arguments PRange {Item}.
Arguments PDoneNext {Item}.
Arguments PReturned {Item}.
Arguments PPanicked {Item}.
Arguments PEnded {Item}.

(** The loop body of a goroutine of the mapper pool. *)
Definition mapperBody (open : string -> option string) (input : mapperFile)
  : list WorkerStep * outcome :=
  match open (fname input) with
  | None => ([WOpenError], Returns)
  | Some f =>
      ([WNewEmitter (index input)] ++ mapCalls f
         ++ [WEmitFlush; WEmitClose; WFileClose], GoesOn)
  end.

(** What a goroutine of the reducer pool does, in order. *)
Inductive ReduceStep : Type :=
| RGlob (pattern : string)       (* filepath.Glob(pattern) *)
| RSort (cmdline : list string)  (* os.StartProcess("/usr/bin/sort", cmdline, attr); p.Wait() *)
| ROpen (name : string)          (* os.Open(name) *)
| RCreate (name : string)        (* os.Create(name) *)
| RReducer                       (* reducer(mrjob, f, rEmit) *)
| RRemove (name : string)        (* os.Remove(name) *)
| RFlush                         (* rEmit.Flush() *)
| RClose                         (* rout.Close() *)
| RDone.                         (* wg.Done() *)

(** The loop body of a goroutine of the reducer pool, for a sort process
    that starts; [glob pattern] is what [filepath.Glob] finds, and
    [reducerPanics partition] tells whether the call of [reducer] panics (it
    does when its input holds no record: [close(values)] on the nil
    channel).  Nothing in the body returns from the goroutine. *)
Definition reduceBody (pid : Z) (glob : string -> list string)
    (reducerPanics : Z -> bool) (partition : Z) : list ReduceStep * outcome :=
  let fns := glob (mapOutPattern pid partition) in
  let redin := redInName pid partition in
  let cmdline := ["sort"; "-o"; redin] ++ fns in
  let before := [RGlob (mapOutPattern pid partition); RSort cmdline; ROpen redin;
                 RCreate (redOutName pid partition); RReducer] in
  if reducerPanics partition then (before, Panics)
  else (before ++ (RRemove <$> fns) ++ [RRemove redin; RFlush; RClose], GoesOn).

(** What the main goroutine of [mapreduce] does, apart from its work on the
    channels and on the [WaitGroup]. *)
Inductive MRStep : Type :=
| ENewEmitter (prefix : string)  (* newPartitionEmitter(uint(optNumPartitions), prefix) *)
| EJob (c : JobCall)             (* a call of mrjob.Map or mrjob.MapFinal *)
| EFlush                         (* mEmit.Flush() *)
| EClose                         (* mEmit.Close() *)
| EPrintf (msg : string).        (* fmt.Printf *)

(** Where the main goroutine of [mapreduce] is. *)
Inductive mrpc : Type :=
| QStart                        (* the test len(mapperInputFiles) == 0 *)
| QStdin                        (* the branch that maps os.Stdin *)
| QSpawnMappers (i : Z)         (* for i := 0; i < optNumMappers; i++ { wg.Add(1); go ... } *)
| QSendFiles (rest : list mapperFile)  (* mapperWork <- &mapperFile{i, fname}; close(mapperWork) *)
| QWaitMappers                  (* wg.Wait() *)
| QFinal                        (* mapperFinal on an emitter of its own *)
| QSpawnReducers (i : Z)        (* for i := 0; i < optNumReducers; i++ { wg.Add(1); go ... } *)
| QSendPartitions (i : Z)       (* partitions <- i; close(partitions) *)
| QWaitReducers                 (* wg.Wait() *)
| QPrint                        (* fmt.Printf("output is in: ...") *)
| QReturned
| QPanicked.                    (* a goroutine has panicked: the process has ended *)

(** The state of [mapreduce]: the main goroutine, the counter of the
    [WaitGroup], the two channels (whether they are closed) and the
    goroutines of the two pools.  [m_log] is what the main goroutine has
    done. *)
Record mrstate : Type := mkMR {
  m_pc : mrpc;
  wg : Z;
  workClosed : bool;
  mappers : list (worker mapperFile WorkerStep);
  partitionsClosed : bool;
  reducers : list (worker Z ReduceStep);
  m_log : list MRStep
}.

(** Who moves in [mapreduce]. *)
Inductive mrlabel : Type :=
| LMain
| LMapper (i : nat)
| LReducer (i : nat).

Section MapReduce.

(** The flags, the process id, the command-line arguments [flag.Args()],
    the content of [os.Stdin], the files that [os.Open] finds ([None]: it
    fails), what [filepath.Glob] finds, and the partitions on which the
    call of [reducer] panics. *)
Context (f : Flags) (pid : Z) (args : list string) (stdin : string)
  (open : string -> option string) (glob : string -> list string)
  (reducerPanics : Z -> bool).

(** The work items that the main goroutine sends: [&mapperFile{i, fname}]
    for [i, fname := range mapperInputFiles]. *)
Definition mapperItems : list mapperFile := imap mkMapperFile args.

(** The calls of the job in the branch that maps [os.Stdin]: [mapper], then
    [mapperFinal]. *)
Definition stdinCalls : list JobCall :=
  match mapper stdin ([] : list JobCall) with
  | Some w => mapperFinal w
  | None => []
  end.

(** What the main goroutine has done when the map phase is over. *)
Definition mapPhaseLog : list MRStep :=
  match args with
  | [] =>
      [ENewEmitter (mapOutPrefixStdin pid)] ++ (EJob <$> stdinCalls) ++ [EFlush; EClose]
  | _ :: _ =>
      [ENewEmitter (mapOutPrefix pid (Z.of_nat (length args)))]
        ++ (EJob <$> mapperFinal ([] : list JobCall)) ++ [EFlush; EClose]
  end.

(** One step of the main goroutine; [None] when it is blocked or has
    returned.  A send is a step of the goroutine that receives, see
    [mapper_step] and [reducer_step].  [wg.Add(1)] and the [go] statement
    after it are one step: no other goroutine acts on what they change. *)
Definition main_step (s : mrstate) : option mrstate :=
  match m_pc s with
  | QStart =>
      Some (mkMR (match args with [] => QStdin | _ :: _ => QSpawnMappers 0 end)
              (wg s) (workClosed s) (mappers s) (partitionsClosed s) (reducers s) (m_log s))
  | QStdin =>
      Some (mkMR (QSpawnReducers 0) (wg s) (workClosed s) (mappers s)
              (partitionsClosed s) (reducers s) (m_log s ++ mapPhaseLog))
  | QSpawnMappers i =>
      if (i <? optNumMappers f)%Z then
        Some (mkMR (QSpawnMappers (i + 1)) (wg s + 1) (workClosed s)
                (mappers s ++ [mkWorker PRange [] []])
                (partitionsClosed s) (reducers s) (m_log s))
      else
        Some (mkMR (QSendFiles mapperItems) (wg s) (workClosed s) (mappers s)
                (partitionsClosed s) (reducers s) (m_log s))
  | QSendFiles (_ :: _) => None (* blocked until a goroutine receives *)
  | QSendFiles [] =>
      Some (mkMR QWaitMappers (wg s) true (mappers s)
              (partitionsClosed s) (reducers s) (m_log s))
  | QWaitMappers =>
      if (wg s =? 0)%Z then
        Some (mkMR QFinal (wg s) (workClosed s) (mappers s)
                (partitionsClosed s) (reducers s) (m_log s))
      else None (* blocked until the counter is zero *)
  | QFinal =>
      Some (mkMR (QSpawnReducers 0) (wg s) (workClosed s) (mappers s)
              (partitionsClosed s) (reducers s) (m_log s ++ mapPhaseLog))
  | QSpawnReducers i =>
      if (i <? optNumReducers f)%Z then
        Some (mkMR (QSpawnReducers (i + 1)) (wg s + 1) (workClosed s) (mappers s)
                (partitionsClosed s) (reducers s ++ [mkWorker PRange [] []]) (m_log s))
      else
        Some (mkMR (QSendPartitions 0) (wg s) (workClosed s) (mappers s)
                (partitionsClosed s) (reducers s) (m_log s))
  | QSendPartitions i =>
      if (i <? optNumPartitions f)%Z then None (* blocked until a goroutine receives *)
      else
        Some (mkMR QWaitReducers (wg s) (workClosed s) (mappers s)
                true (reducers s) (m_log s))
  | QWaitReducers =>
      if (wg s =? 0)%Z then
        Some (mkMR QPrint (wg s) (workClosed s) (mappers s)
                (partitionsClosed s) (reducers s) (m_log s))
      else None
  | QPrint =>
      Some (mkMR QReturned (wg s) (workClosed s) (mappers s)
              (partitionsClosed s) (reducers s)
              (m_log s ++ [EPrintf (outputMessage pid (optNumPartitions f))]))
  | QReturned => None
  | QPanicked => None
  end.

(** The file that the main goroutine is blocked sending, and where it goes
    on once a goroutine has received it. *)
Definition offeredFile (p : mrpc) : option mapperFile :=
  match p with
  | QSendFiles (x :: _) => Some x
  | _ => None
  end.

Definition afterFile (p : mrpc) : mrpc :=
  match p with
  | QSendFiles (_ :: rest) => QSendFiles rest
  | _ => p
  end.

(** The same for the partition numbers. *)
Definition offeredPartition (p : mrpc) : option Z :=
  match p with
  | QSendPartitions i => if (i <? optNumPartitions f)%Z then Some i else None
  | _ => None
  end.

Definition afterPartition (p : mrpc) : mrpc :=
  match p with
  | QSendPartitions i => QSendPartitions (i + 1)
  | _ => p
  end.

(** One step of goroutine [i] of the mapper pool. *)
Definition mapper_step (i : nat) (s : mrstate) : option mrstate :=
  match mappers s !! i with
  | None => None
  | Some w =>
      match worker_step (mapperBody open) WDone (offeredFile (m_pc s)) (workClosed s) w with
      | None => None
      | Some (w', e) =>
          Some (mkMR (match e with
                      | Took => afterFile (m_pc s)
                      | Panicked => QPanicked
                      | _ => m_pc s
                      end)
                  (match e with Signalled => wg s - 1 | _ => wg s end)%Z
                  (workClosed s) (<[i := w']> (mappers s))
                  (partitionsClosed s) (reducers s) (m_log s))
      end
  end.

(** One step of goroutine [i] of the reducer pool. *)
Definition reducer_step (i : nat) (s : mrstate) : option mrstate :=
  match reducers s !! i with
  | None => None
  | Some w =>
      match worker_step (reduceBody pid glob reducerPanics) RDone
              (offeredPartition (m_pc s)) (partitionsClosed s) w with
      | None => None
      | Some (w', e) =>
          Some (mkMR (match e with
                      | Took => afterPartition (m_pc s)
                      | Panicked => QPanicked
                      | _ => m_pc s
                      end)
                  (match e with Signalled => wg s - 1 | _ => wg s end)%Z
                  (workClosed s) (mappers s)
                  (partitionsClosed s) (<[i := w']> (reducers s)) (m_log s))
      end
  end.

(** The process has ended in a panic. *)
Definition has_panicked (p : mrpc) : bool :=
  match p with QPanicked => true | _ => false end.

(** A step of [mapreduce]; a panic ends the process. *)
Definition mr_step (l : mrlabel) (s : mrstate) : option mrstate :=
  if has_panicked (m_pc s) then None
  else match l with
       | LMain => main_step s
       | LMapper i => mapper_step i s
       | LReducer i => reducer_step i s
       end.

(** The run along a schedule. *)
Fixpoint mr_run (sched : list mrlabel) (s : mrstate) : option mrstate :=
  match sched with
  | [] => Some s
  | l :: sched' =>
      match mr_step l s with
      | Some s' => mr_run sched' s'
      | None => None
      end
  end.

(** The state in which [mapreduce] starts. *)
Definition mr_init : mrstate := mkMR QStart 0 false [] false [] [].

(** [s] is reached by [mapreduce]. *)
Definition mr_reaches (s : mrstate) : Prop := exists sched, mr_run sched mr_init = Some s.

End MapReduce.

(* --------------------------------------------------------------------- *)
(** ** [proto.go]: what [TSVProtocol.UnmarshalKVs] scans                   *)
(* --------------------------------------------------------------------- *)

(** [strings.Split(s, sep)] for a separator of one byte: the substrings
    between the separators, one more than there are separators. *)
Fixpoint Split (s : string) (sep : ascii) : list string :=
  match s with
  | EmptyString => [EmptyString]
  | String c r =>
      if Ascii.eqb c sep then EmptyString :: Split r sep
      else match Split r sep with
           | p :: ps => String c p :: ps
           | [] => [String c EmptyString]
           end
  end.

(** Where a [fmt.Sscan] of [UnmarshalKVs] stores what it reads, inside the
    new element [e]. *)
Inductive ScanDest : Type :=
| DField (i : nat)   (* e.Field(i).Addr().Interface() *)
| DIndex (i : nat)   (* e.Index(i).Addr().Interface() *)
| DElem.             (* e.Addr().Interface() *)

(** A loop [for i := from; i < from + count; i++ { fmt.Sscan(vs[i], dest i) }]:
    the text and the destination of every [fmt.Sscan].  [None] is a panic:
    of [vs[i]], with the index out of range, or of the [Interface()] that
    gives the destination ([dest i = None]). *)
Fixpoint scanLoop (dest : nat -> option ScanDest) (vs : list string) (from count : nat)
  : option (list (string * ScanDest)) :=
  match count with
  | 0 => Some []
  | S count' =>
      match vs !! from, dest from with
      | Some t, Some d =>
          match scanLoop dest vs (S from) count' with
          | Some scans => Some ((t, d) :: scans)
          | None => None
          end
      | _, _ => None
      end
  end.

(** [e.Field(i).Addr().Interface()]: [reflect] panics when the field is not
    exported.  [exported] tells of every field of the struct type whether it
    is. *)
Definition fieldDest (exported : list bool) (i : nat) : option ScanDest :=
  match exported !! i with
  | Some true => Some (DField i)
  | _ => None
  end.

(** The body of the loop of [TSVProtocol.UnmarshalKVs] for one of the
    values, [s]: the calls of [fmt.Sscan] that it makes, whose errors it
    skips.  [vKind] is the kind of the element type [vType]; for a struct,
    [exported] has one entry for each of its [vType.NumField()] fields; for
    an array, [len] is [vType.Len()]. *)
Definition scansOfValue (vKind : Kind) (exported : list bool) (len : nat) (s : string)
  : option (list (string * ScanDest)) :=
  let vs := Split s TAB in
  if Kind_eqb vKind KStruct then scanLoop (fieldDest exported) vs 0 (length exported)
  else if Kind_eqb vKind KArray then scanLoop (fun i => Some (DIndex i)) vs 0 len
  else if isPrimitive vKind then
    match vs !! 0 with
    | Some t => Some [(t, DElem)]
    | None => None
    end
  else Some [].

(* ===================================================================== *)
(** * Part II: what the properties are stated with                         *)
(* ===================================================================== *)

(* --------------------------------------------------------------------- *)
(** ** Runs of [reducer], records and groups                              *)
(* --------------------------------------------------------------------- *)

(** The run is over and went well: the driver has returned, every goroutine
    has returned, and nothing has panicked. *)
Definition finished (s : state) : Prop :=
  d_pc s = DReturned /\ panicked s = None /\ Forall (fun g => g_pc g = GDone) (gs s).

(** The goroutine is inside [mrjob.Reduce]. *)
Definition inReduce (g : goroutine) : bool :=
  match g_pc g with GReduce _ => true | _ => false end.

(** How many invocations of [mrjob.Reduce] are active. *)
Definition activeReduces (s : state) : nat := length (filter (fun g => inReduce g = true) (gs s)).

(** The loop of the driver seen as a reader alone: the records that
    [readLineKeyValue] gives until its first error. *)
Fixpoint records_loop (fuel : nat) (br : string) : list KeyValue :=
  match fuel with
  | 0 => []
  | S fuel' =>
      match readLineKeyValue br with
      | (Err _, _) => []
      | (Ok kv, br') => kv :: records_loop fuel' br'
      end
  end.

Definition records (r : string) : list KeyValue := records_loop (String.length r) r.

(** The groups of a list of records, in the words of the spec: consecutive
    records with the same reduceKey form a group.  A group is given by its
    first record and the values of its records. *)
Fixpoint groups (rs : list KeyValue) : list (KeyValue * list string) :=
  match rs with
  | [] => []
  | r :: rs' =>
      match groups rs' with
      | (r', vs) :: gr' =>
          if String.eqb (ReduceKey r) (ReduceKey r')
          then (r, Value r :: vs) :: gr'
          else (r, [Value r]) :: (r', vs) :: gr'
      | [] => [(r, [Value r])]
      end
  end.

(* --------------------------------------------------------------------- *)
(** ** Strings                                                            *)
(* --------------------------------------------------------------------- *)

(** Does byte [d] occur in [s]? *)
Fixpoint occurs (d : ascii) (s : string) : bool :=
  match s with
  | EmptyString => false
  | String c r => Ascii.eqb c d || occurs d r
  end.

(** [s] holds no newline. *)
Definition newlineFree (s : string) : Prop := occurs NL s = false.

(** The key field of an encoded line. *)
Definition keyField (reduceKey sortKey : string) : string :=
  QueryEscape reduceKey
  +:+ (if isEmpty sortKey then "" else String COMMA (QueryEscape sortKey)).

(* --------------------------------------------------------------------- *)
(** ** The invariants of [reducer]                                        *)
(* --------------------------------------------------------------------- *)

(** The name of the channel made last, when [n] were made. *)
Definition pred_opt (n : nat) : option nat :=
  match n with 0 => None | S k => Some k end.

(** The records that started the goroutines, and the histories of the
    [values] channels, in the order in which they were made. *)
Definition firsts (s : state) : list KeyValue := g_mkv <$> gs s.

Definition hists (s : state) : list (list string) := vhist <$> vchans s.

(** The goroutines and channels of [s] are those of the groups [G], with the
    [values] channels [ev] and [ed] [done] channels made for the group to
    come. *)
Definition shape (s : state) (G : list (KeyValue * list string))
    (ev : list (list string)) (ed : nat) : Prop :=
  firsts s = G.*1 /\ hists s = G.*2 ++ ev /\ length (dchans s) = length G + ed.

(** The record [mkv] starts a group. *)
Definition new_group (processed : list KeyValue) (mkv : KeyValue) : Prop :=
  groups (processed ++ [mkv]) = groups processed ++ [(mkv, [Value mkv])].

(** Where the driver stands on the input, having sent the values of the
    records [processed]. *)
Definition driver_at (input : string) (s : state) (processed : list KeyValue) : Prop :=
  let G := groups processed in
  match d_pc s with
  | DRead =>
      records input = processed ++ records (br s) /\ shape s G [] 0
      /\ (isFirstRun s = false ->
          exists f, last (firsts s) = Some f /\ ReduceKey f = currentReduceKey s)
  | DClose (Some mkv) | DWait (Some mkv) =>
      records input = processed ++ mkv :: records (br s) /\ shape s G [] 0
      /\ new_group processed mkv /\ isFirstRun s = false
  | DMakeValues mkv =>
      records input = processed ++ mkv :: records (br s) /\ shape s G [] 0
      /\ new_group processed mkv
  | DMakeDone mkv =>
      records input = processed ++ mkv :: records (br s) /\ shape s G [[]] 0
      /\ new_group processed mkv /\ isFirstRun s = false
  | DSpawn mkv =>
      records input = processed ++ mkv :: records (br s) /\ shape s G [[]] 1
      /\ new_group processed mkv /\ isFirstRun s = false
  | DSend mkv =>
      records input = processed ++ mkv :: records (br s)
      /\ isFirstRun s = false
      /\ firsts s = (groups (processed ++ [mkv])).*1
      /\ length (dchans s) = length (gs s)
      /\ (exists hs h, hists s = hs ++ [h]
                       /\ (groups (processed ++ [mkv])).*2 = hs ++ [h ++ [Value mkv]])
      /\ currentReduceKey s = ReduceKey mkv
  | DClose None | DWait None | DReturned =>
      records input = processed /\ shape s G [] 0
  end.

(** The invariant of the driver: the shared variables name the channels
    made last, nothing exists before the first record, and the driver stands
    somewhere on the input. *)
Definition driver_inv (input : string) (s : state) : Prop :=
  exists processed,
    values s = pred_opt (length (vchans s))
    /\ done s = pred_opt (length (dchans s))
    /\ (isFirstRun s = true ->
        gs s = [] /\ vchans s = [] /\ dchans s = [] /\ processed = [])
    /\ driver_at input s processed.

(** What the driver's view of a state is made of. *)
Definition same_view (s s' : state) : Prop :=
  br s' = br s /\ currentReduceKey s' = currentReduceKey s
  /\ isFirstRun s' = isFirstRun s /\ values s' = values s /\ done s' = done s
  /\ firsts s' = firsts s /\ hists s' = hists s
  /\ length (dchans s') = length (dchans s).

(** How many more [values] and [done] channels than goroutines there are. *)
Definition extra_v (p : dpc) : nat :=
  match p with DMakeDone _ | DSpawn _ => 1 | _ => 0 end.

Definition extra_d (p : dpc) : nat :=
  match p with DSpawn _ => 1 | _ => 0 end.

(** The goroutine is past its [done <- true]. *)
Definition is_sent (g : goroutine) : bool :=
  match g_pc g with
  | GSent | GClosing _ | GDone => true
  | _ => false
  end.

Definition sent_weight (g : goroutine) : nat := if is_sent g then 1 else 0.

Definition sent_count (s : state) : nat := sum_list (sent_weight <$> gs s).

(** The number of goroutines for which the driver has not yet passed the
    [<-done]: the last one, or none. *)
Definition pending (s : state) : nat :=
  match d_pc s with
  | DMakeValues _ | DMakeDone _ | DSpawn _ | DReturned => 0
  | _ => if isFirstRun s then 0 else 1
  end.

(** Every goroutine is waited for once; the wait ends with its send or
    early. *)
Definition count_inv (s : state) : Prop :=
  sent_count s + early s + pending s = length (gs s).

(** The call that goroutine [i] makes when it reads its own channel. *)
Definition call_of (i : nat) (g : goroutine) : ReduceCall :=
  (ReduceKey (g_mkv g), SortKey (g_mkv g), i).

(** Goroutine [i] is in step with the driver: only the last goroutine may
    still be before its send; it reads channel [i] and sends on [done]
    channel [i]; what its [Reduce] has received and what is still in the
    buffer make up what was sent on channel [i]; its call is call [i]. *)
Definition good_goroutine (s : state) (i : nat) (g : goroutine) : Prop :=
  (is_sent g = true <-> i + pending s < length (gs s))
  /\ match g_pc g with
     | GReduce ch => ch = i
     | GSending d => d = i
     | _ => True
     end
  /\ (forall c, vchans s !! i = Some c -> g_got g ++ vbuf c = vhist c)
  /\ (g_pc g = GStart -> length (calls s) = i)
  /\ (g_pc g <> GStart -> calls s !! i = Some (call_of i g)).

(** Every goroutine is in step with the driver, and a channel without
    goroutine has its buffer untouched. *)
Definition good (s : state) : Prop :=
  length (calls s) <= length (gs s)
  /\ (forall i c, vchans s !! i = Some c -> gs s !! i = None -> vbuf c = vhist c)
  /\ (forall i g, gs s !! i = Some g -> good_goroutine s i g).

(** What holds of every state that [reducer] reaches on [input]. *)
Definition reducer_inv (input : string) (s : state) : Prop :=
  driver_inv input s /\ count_inv s /\ (early s = 0 -> good s).

(* --------------------------------------------------------------------- *)
(** ** The invocations of [mrjob.Reduce]                                  *)
(* --------------------------------------------------------------------- *)

(** The invocations of [mrjob.Reduce] in the order in which they were made:
    reduceKey, sortKey, and what was sent, over the whole run, on the channel
    that the invocation was handed. *)
Definition invocations (s : state) : list (string * string * list string) :=
  (fun c : ReduceCall => (c.1.1, c.1.2, default [] (vhist <$> vchans s !! c.2)))
    <$> calls s.

(** The invocations that the groups of the records of [input] ask for: one
    for every group, with the keys of its first record and the values of its
    records. *)
Definition expected (input : string) : list (string * string * list string) :=
  (fun g : KeyValue * list string => (ReduceKey g.1, SortKey g.1, g.2))
    <$> groups (records input).

(* --------------------------------------------------------------------- *)
(** ** Schedules and inputs                                               *)
(* --------------------------------------------------------------------- *)

(** The schedule in which every goroutine takes each value as soon as it is
    sent and ends as soon as its channel is closed: the start of the first
    group, a record of the current group, the end of a group, and the end
    of a group followed by the start of the next. *)
Definition sched_first : list label :=
  [LDriver; LDriver; LDriver; LDriver; LGo 0; LDriver; LGo 0].

Definition sched_same (i : nat) : list label := [LDriver; LDriver; LGo i].

Definition sched_close (i : nat) : list label :=
  [LDriver; LDriver; LRet i; LGo i; LGo i; LGo i].

Definition sched_new (i : nat) : list label :=
  sched_close i ++ [LDriver; LDriver; LDriver; LGo (S i); LDriver; LGo (S i)].

Fixpoint sched_rest (i : nat) (k : string) (rs : list KeyValue) : list label :=
  match rs with
  | [] => sched_close i
  | r :: rs' =>
      if String.eqb k (ReduceKey r) then sched_same i ++ sched_rest i k rs'
      else sched_new i ++ sched_rest (S i) (ReduceKey r) rs'
  end.

Definition sched_of (rs : list KeyValue) : list label :=
  match rs with
  | [] => [LDriver; LDriver]
  | r :: rs' => sched_first ++ sched_rest 0 (ReduceKey r) rs'
  end.

(** The state at the end of that schedule. *)
Definition final (input : string) : state :=
  default (init input) (run (sched_of (records input)) (init input)).

(** An input with the reduceKeys a, a, b, b, b, c. *)
Definition input_aabbbc : string :=
  encodeKeyValueLine "a" "s1" "v1" +:+ encodeKeyValueLine "a" "s2" "v2"
  +:+ encodeKeyValueLine "b" "s3" "v3" +:+ encodeKeyValueLine "b" "s4" "v4"
  +:+ encodeKeyValueLine "b" "s5" "v5" +:+ encodeKeyValueLine "c" "" "v6".

(** The schedule in which the goroutine of the first group runs its
    [close(done)] only after the driver has made the [done] channel of the
    second group. *)
Definition sched_overlap : list label :=
  [LDriver; LDriver; LDriver; LDriver; LDriver; LGo 0;   (* group a, Reduce runs *)
   LDriver; LDriver;                   (* b is read, close(values), <-done *)
   LRet 0; LGo 0;                      (* Reduce a returns, done <- true *)
   LDriver; LDriver; LDriver; LDriver; (* values, done are made anew; go; send *)
   LGo 0; LGo 0;                       (* goroutine a: close(done) closes the new one *)
   LGo 1;                              (* Reduce b runs *)
   LDriver; LDriver; LDriver;          (* c is read, close(values), <-done returns *)
   LDriver; LDriver; LDriver; LDriver; (* group c is started *)
   LGo 2].                             (* Reduce c runs, and Reduce b still does *)

(** An input with the groups a, b and c, of one record each. *)
Definition input_abc : string :=
  encodeKeyValueLine "a" "" "1" +:+ encodeKeyValueLine "b" "" "2"
  +:+ encodeKeyValueLine "c" "" "3".

(** The schedule in which, on [input_aabbbc], the goroutine of group a runs
    its [close(done)] only after the driver has made the [done] channel of
    group b, and the goroutine of group b runs only after the driver has
    made the channels of group c. *)
Definition sched_late_start : list label :=
  [LDriver; LDriver; LDriver; LDriver; LDriver;  (* v1 is read; values, done are made; go; send *)
   LGo 0; LGo 0;                        (* Reduce a runs and receives v1 *)
   LDriver; LDriver; LGo 0;             (* v2 is read and sent; Reduce a receives it *)
   LDriver; LDriver;                    (* v3 is read: close(values), <-done *)
   LRet 0; LGo 0;                       (* Reduce a returns, done <- true *)
   LDriver; LDriver; LDriver; LDriver;  (* values, done are made anew; go; v3 is sent *)
   LGo 0; LGo 0;                        (* goroutine a: close(done) closes the new one *)
   LDriver; LDriver; LDriver; LDriver;  (* v4 and v5 are read and sent *)
   LDriver; LDriver; LDriver;           (* v6 is read: close(values); <-done returns at once *)
   LDriver; LDriver; LDriver; LDriver;  (* values, done are made anew; go; v6 is sent *)
   LGo 1;                               (* goroutine b runs only now: Reduce b gets the channel of c *)
   LGo 2;                               (* Reduce c runs, on the same channel *)
   LGo 1;                               (* Reduce b receives v6 *)
   LDriver; LDriver;                    (* the input is at its end: close(values), <-done *)
   LRet 1; LGo 1].                      (* Reduce b returns, done <- true: the driver returns *)

(** An input with the groups a and b, of one record each. *)
Definition input_ab : string :=
  encodeKeyValueLine "a" "s1" "1" +:+ encodeKeyValueLine "b" "s2" "2".

(** The schedule in which, on [input_ab], the goroutine of group a runs its
    [close(done)] only after the driver has made the [done] channel of group
    b, and the goroutine of group b does not run before the driver
    returns. *)
Definition sched_not_invoked : list label :=
  [LDriver; LDriver; LDriver; LDriver; LDriver;  (* group a; its value is sent *)
   LGo 0; LGo 0;                        (* Reduce a runs and receives the value *)
   LDriver; LDriver;                    (* b is read: close(values), <-done *)
   LRet 0; LGo 0;                       (* Reduce a returns, done <- true *)
   LDriver; LDriver; LDriver; LDriver;  (* values, done are made anew; go; send *)
   LGo 0; LGo 0;                        (* goroutine a: close(done) closes the new one *)
   LDriver; LDriver; LDriver].          (* end of input: close(values); <-done returns at once *)

(** The lines [ls], each with its newline. *)
Fixpoint unlines (ls : list string) : string :=
  match ls with
  | [] => ""
  | l :: ls' => l +:+ String NL (unlines ls')
  end.

(** The driver is about to read, and the goroutine of the current group has
    received all that was sent. *)
Definition quiet (br k : string) (i : nat) (vcs : list vchan) (dcs : list bool)
    (gs0 : list goroutine) (h : list string) (mkv : KeyValue) (got : list string)
    (cl : list ReduceCall) : state :=
  mkState DRead br k false (Some i) (Some i)
    (vcs ++ [mkVchan [] false h]) (dcs ++ [false])
    (gs0 ++ [mkGoroutine mkv (GReduce i) got]) cl 0 None.

(** The driver has closed the group and its goroutine has ended. *)
Definition closed (p : dpc) (br k : string) (i : nat) (vcs : list vchan)
    (dcs : list bool) (gs0 : list goroutine) (h : list string) (mkv : KeyValue)
    (got : list string) (cl : list ReduceCall) : state :=
  mkState p br k false (Some i) (Some i)
    (vcs ++ [mkVchan [] true h]) (dcs ++ [true])
    (gs0 ++ [mkGoroutine mkv GDone got]) cl 0 None.

(* --------------------------------------------------------------------- *)
(** ** The invariant of [mapreduce]                                        *)
(* --------------------------------------------------------------------- *)

Section PoolNotions.

Context {Item Step : Type} (body : Item -> list Step * outcome) (doneStep : Step).

(** A goroutine that has just been started. *)
Definition idle : worker Item Step := mkWorker PRange [] [].

Definition is_ended (w : worker Item Step) : bool :=
  match w_pc w with PEnded => true | _ => false end.

(** The goroutines that have not called [wg.Done()]. *)
Definition live_weight (w : worker Item Step) : nat := if is_ended w then 0 else 1.

Definition live (ws : list (worker Item Step)) : nat := sum_list (live_weight <$> ws).

(** The items that the goroutines of a pool have received. *)
Definition received (ws : list (worker Item Step)) : list Item := concat (w_got <$> ws).

(** The loop goes on after the body on [x]. *)
Definition goes_on (x : Item) : Prop := (body x).2 = GoesOn.

(** The steps of the loop bodies on the items [xs]. *)
Definition steps_of (xs : list Item) : list Step := concat ((fun x => (body x).1) <$> xs).

(** The goroutine has done what the loop does on the items it has
    received: the body on every item, leaving at the first item on which
    the body returns. *)
Definition worker_ok (w : worker Item Step) : Prop :=
  match w_pc w with
  | PRange | PDoneNext => Forall goes_on (w_got w) /\ w_log w = steps_of (w_got w)
  | PBody x =>
      exists pre, w_got w = pre ++ [x] /\ Forall goes_on pre /\ w_log w = steps_of pre
  | PReturned | PPanicked =>
      exists pre x, w_got w = pre ++ [x] /\ Forall goes_on pre /\ ~ goes_on x
                    /\ w_log w = steps_of (w_got w)
  | PEnded => Forall goes_on (w_got w) /\ w_log w = steps_of (w_got w) ++ [doneStep]
  end.

End PoolNotions.

(** The partition numbers below [i]. *)
Definition partitions_upto (i : Z) : list Z := Z.of_nat <$> seq 0 (Z.to_nat i).

Section MapReduceNotions.

Context (f : Flags) (pid : Z) (args : list string) (stdin : string)
  (open : string -> option string) (glob : string -> list string)
  (reducerPanics : Z -> bool).

(** The map phase is over: with input files, every goroutine of the mapper
    pool has ended, and together they have received every work item once. *)
Definition map_phase_over (s : mrstate) : Prop :=
  match args with
  | [] => mappers s = []
  | _ :: _ =>
      length (mappers s) = Z.to_nat (optNumMappers f)
      /\ Permutation (received (mappers s)) (mapperItems args)
      /\ Forall (fun w => w_pc w = PEnded) (mappers s)
  end.

(** The reduce phase is under way with the goroutines of the reducer pool
    all started, which together have received the partitions below [i]. *)
Definition reduce_phase (s : mrstate) (i : Z) : Prop :=
  map_phase_over s /\ m_log s = mapPhaseLog pid args stdin
  /\ length (reducers s) = Z.to_nat (optNumReducers f)
  /\ (0 <= i <= Z.max 0 (optNumPartitions f))%Z
  /\ Permutation (received (reducers s)) (partitions_upto i).

(** Nothing of the reduce phase has happened. *)
Definition map_phase (s : mrstate) : Prop :=
  reducers s = [] /\ m_log s = [] /\ partitionsClosed s = false.

(** Where the main goroutine stands. *)
Definition mr_at (s : mrstate) : Prop :=
  match m_pc s with
  | QStart => map_phase s /\ mappers s = [] /\ workClosed s = false
  | QStdin => map_phase s /\ mappers s = [] /\ workClosed s = false /\ args = []
  | QSpawnMappers i =>
      map_phase s /\ args <> [] /\ workClosed s = false
      /\ (0 <= i <= Z.max 0 (optNumMappers f))%Z
      /\ mappers s = replicate (Z.to_nat i) idle
  | QSendFiles rest =>
      map_phase s /\ args <> [] /\ workClosed s = false
      /\ length (mappers s) = Z.to_nat (optNumMappers f)
      /\ exists sent, mapperItems args = sent ++ rest
                      /\ Permutation (received (mappers s)) sent
  | QWaitMappers =>
      map_phase s /\ args <> [] /\ workClosed s = true
      /\ length (mappers s) = Z.to_nat (optNumMappers f)
      /\ Permutation (received (mappers s)) (mapperItems args)
  | QFinal => map_phase s /\ args <> [] /\ map_phase_over s
  | QSpawnReducers i =>
      map_phase_over s /\ m_log s = mapPhaseLog pid args stdin
      /\ partitionsClosed s = false
      /\ (0 <= i <= Z.max 0 (optNumReducers f))%Z
      /\ reducers s = replicate (Z.to_nat i) idle
  | QSendPartitions i => reduce_phase s i /\ partitionsClosed s = false
  | QWaitReducers => reduce_phase s (Z.max 0 (optNumPartitions f)) /\ partitionsClosed s = true
  | QPrint =>
      reduce_phase s (Z.max 0 (optNumPartitions f)) /\ partitionsClosed s = true
      /\ Forall (fun w => w_pc w = PEnded) (reducers s)
  | QReturned =>
      map_phase_over s
      /\ m_log s = mapPhaseLog pid args stdin
                     ++ [EPrintf (outputMessage pid (optNumPartitions f))]
      /\ length (reducers s) = Z.to_nat (optNumReducers f)
      /\ Permutation (received (reducers s))
           (partitions_upto (Z.max 0 (optNumPartitions f)))
      /\ partitionsClosed s = true
      /\ Forall (fun w => w_pc w = PEnded) (reducers s)
  | QPanicked =>
      map_phase_over s /\ m_log s = mapPhaseLog pid args stdin
      /\ length (reducers s) = Z.to_nat (optNumReducers f)
      /\ reducers s <> []
  end.

(** What holds of every state that [mapreduce] reaches: the counter of the
    [WaitGroup] counts the goroutines that have not called [wg.Done()],
    every goroutine has done what its loop does on the items it received,
    and the main goroutine stands somewhere. *)
Definition mr_inv (s : mrstate) : Prop :=
  wg s = (Z.of_nat (live (mappers s)) + Z.of_nat (live (reducers s)))%Z
  /\ Forall (worker_ok (mapperBody open) WDone) (mappers s)
  /\ Forall (worker_ok (reduceBody pid glob reducerPanics) RDone) (reducers s)
  /\ mr_at s.

(** [mapreduce] has not got past the [wg.Wait()] of the map phase. *)
Definition in_map_phase (p : mrpc) : bool :=
  match p with
  | QStart | QStdin | QSpawnMappers _ | QSendFiles _ | QWaitMappers => true
  | _ => false
  end.

(** [mapreduce] has not got past the [wg.Wait()] of the reduce phase. *)
Definition before_print (p : mrpc) : bool :=
  match p with
  | QPrint | QReturned => false
  | _ => true
  end.

(** A schedule for a pool of [workers] goroutines (the first of which takes
    every one of the [items] items, one after the other) up to the
    [wg.Wait()] that follows. *)
Definition sched_pool (lab : nat -> mrlabel) (items workers : nat) : list mrlabel :=
  concat (replicate items [lab 0; lab 0]) ++ [LMain]
    ++ concat ((fun i => [lab i; lab i]) <$> seq 0 workers) ++ [LMain].

(** A schedule of [mapreduce]. *)
Definition sched_mapreduce : list mrlabel :=
  [LMain]
    ++ match args with
       | [] => [LMain]
       | _ :: _ =>
           replicate (S (Z.to_nat (optNumMappers f))) LMain
             ++ sched_pool LMapper (length args) (Z.to_nat (optNumMappers f))
             ++ [LMain]
       end
    ++ replicate (S (Z.to_nat (optNumReducers f))) LMain
    ++ sched_pool LReducer (Z.to_nat (optNumPartitions f)) (Z.to_nat (optNumReducers f))
    ++ [LMain].

End MapReduceNotions.

(** A configuration for the examples: two partitions, two goroutines in
    the mapper pool, one in the reducer pool; every file opens but "in1";
    process id 7, nothing on [os.Stdin]. *)
Definition example_flags : Flags := mkFlags false false true 2 2 1.

Definition example_open (name : string) : option string :=
  if String.eqb name "in1" then None else Some ("line of " +:+ name +:+ String NL "").

Definition example_glob (pattern : string) : list string := [pattern].

(** [reducer] panics on no partition, or on partition 1. *)
Definition no_panic (partition : Z) : bool := false.

Definition panic_on_1 (partition : Z) : bool := (partition =? 1)%Z.

(** The run of [mapreduce] along [sched], from the start. *)
Definition example_run (f : Flags) (args : list string) (reducerPanics : Z -> bool)
    (sched : list mrlabel) : mrstate :=
  default mr_init
    (mr_run f 7 args "" example_open example_glob reducerPanics sched mr_init).

(** A schedule on the files "in0" and "in1": each goroutine of the mapper
    pool takes one file, the channel is closed, the first goroutine ends. *)
Definition sched_unreadable : list mrlabel :=
  [LMain; LMain; LMain; LMain; LMapper 0; LMapper 0; LMapper 1; LMapper 1;
   LMain; LMapper 0; LMapper 0].

(** A schedule on the file "in0" up to the start of the reducer pool. *)
Definition sched_barrier : list mrlabel :=
  [LMain; LMain; LMain; LMain; LMapper 0; LMapper 0; LMain; LMapper 0;
   LMapper 0; LMapper 1; LMapper 1; LMain; LMain; LMain].

(** A schedule without input files in which the goroutine of the reducer
    pool takes both partitions. *)
Definition sched_two_partitions : list mrlabel :=
  [LMain; LMain; LMain; LMain; LReducer 0; LReducer 0; LReducer 0; LReducer 0].

(* --------------------------------------------------------------------- *)
(** ** More invariants of [reducer]                                       *)
(* --------------------------------------------------------------------- *)

(** The driver is at a place where the channel that [values] names is open. *)
Definition open_pc (p : dpc) : bool :=
  match p with
  | DRead | DClose _ | DMakeDone _ | DSpawn _ | DSend _ => true
  | _ => false
  end.

(** The driver waits for a goroutine, or has returned. *)
Definition waiting_pc (p : dpc) : bool :=
  match p with
  | DWait _ | DReturned => true
  | _ => false
  end.

(** Every channel is closed, but the one that [values] names while the
    driver works on its group. *)
Definition closed_inv (s : state) : Prop :=
  forall i c, vchans s !! i = Some c -> vclosed c = false ->
              values s = Some i /\ open_pc (d_pc s) = true.

(** The keys of the call that a goroutine makes, once it has made it. *)
Definition started_keys (g : goroutine) : list (string * string) :=
  match g_pc g with
  | GStart => []
  | _ => [(ReduceKey (g_mkv g), SortKey (g_mkv g))]
  end.

(** No goroutine reads, or will read, the channel [ch]. *)
Definition no_reader (ch : nat) (s : state) : Prop :=
  Forall (fun g => match g_pc g with
                   | GStart => False
                   | GReduce ch' => ch' <> ch
                   | _ => True
                   end) (gs s).

(** [n] records with the key "k". *)
Fixpoint same_key_lines (n : nat) : string :=
  match n with
  | 0 => ""
  | S k => "k" +:+ String TAB ("v" +:+ String NL (same_key_lines k))
  end.

(** The schedule in which [mrjob.Reduce] of the first group returns as soon
    as it is called, and the driver goes on for [n] more records. *)
Definition sched_no_drain (n : nat) : list label :=
  [LDriver; LDriver; LDriver; LDriver; LDriver; LGo 0; LRet 0]
    ++ concat (replicate n [LDriver; LDriver]) ++ [LDriver].

(** The state in which the driver has read 65 records of one group, whose
    [mrjob.Reduce] has returned at once: 64 values are in the buffer. *)
Definition undrained_state : state :=
  default (init "") (run (sched_no_drain 63) (init (same_key_lines 65))).

(** The state at the end of the schedule in which two invocations
    overlap. *)
Definition overlap_state : state :=
  default (init "") (run sched_overlap (init input_abc)).

(* --------------------------------------------------------------------- *)
(** ** Lines and streams of lines                                         *)
(* --------------------------------------------------------------------- *)

(** What the key field [k] of a line stands for: it is cut at its first
    comma, and both parts are unescaped; without a comma the sortKey is
    empty. *)
Definition decodeKey (k : string) : result (string * string) :=
  match cut COMMA k with
  | Some (a, b) =>
      match QueryUnescape a, QueryUnescape b with
      | Ok r, Ok s => Ok (r, s)
      | Err e, _ => Err e
      | Ok _, Err e => Err e
      end
  | None =>
      match QueryUnescape k with
      | Ok r => Ok (r, "")
      | Err e => Err e
      end
  end.

(** The record of the line with the key field [k] and the value [v]. *)
Definition lineRecord (line : string * string) : option KeyValue :=
  match decodeKey line.1 with
  | Ok (r, s) => Some (mkKeyValue r s line.2)
  | Err _ => None
  end.

(** The records of the lines [ls], when every key field can be unescaped. *)
Fixpoint lineRecords (ls : list (string * string)) : option (list KeyValue) :=
  match ls with
  | [] => Some []
  | line :: ls' =>
      match lineRecord line, lineRecords ls' with
      | Some kv, Some kvs => Some (kv :: kvs)
      | _, _ => None
      end
  end.

(** The stream of the lines [ls], each given by its key field and its
    value: key field, tab, value, newline. *)
Fixpoint rawLines (ls : list (string * string)) : string :=
  match ls with
  | [] => ""
  | (k, v) :: ls' => k +:+ String TAB (v +:+ String NL (rawLines ls'))
  end.

(** A line as the reader wants it: no tab in the key field, no newline in
    the value. *)
Definition wellFormedLine (line : string * string) : Prop :=
  occurs TAB line.1 = false /\ newlineFree line.2.

(** Every byte of [s] is unreserved: a letter, a digit, or one of [-_.~]. *)
Fixpoint unreserved (s : string) : bool :=
  match s with
  | EmptyString => true
  | String c r => negb (shouldEscape c) && unreserved r
  end.

(* --------------------------------------------------------------------- *)
(** ** Texts of the TSV protocol                                          *)
(* --------------------------------------------------------------------- *)

(** How many times byte [d] occurs in [s]. *)
Fixpoint countByte (d : ascii) (s : string) : nat :=
  match s with
  | EmptyString => 0
  | String c r => (if Ascii.eqb c d then 1 else 0) + countByte d r
  end.

(** The value is a boolean or an integer, and the number it stands for
    ([false] for 0, [true] for 1). *)
Definition numberOf {float64 : Type} (v : @GoValue float64) : option Z :=
  match v with
  | VBool b => Some (if b then 1 else 0)%Z
  | VInt _ i => Some i
  | VUint _ u => Some (Z.of_N u)
  | _ => None
  end.

(** The scans of the texts [ts], the text at index [i] going to [dest i]. *)
Definition scansInto (dest : nat -> ScanDest) (ts : list string)
  : list (string * ScanDest) :=
  imap (fun i t => (t, dest i)) ts.

(* ===================================================================== *)
(** * Part III: the properties                                            *)
(* ===================================================================== *)

(* --------------------------------------------------------------------- *)
(** ** Strings                                                            *)
(* --------------------------------------------------------------------- *)

Lemma append_nil_r (s : string) : s +:+ "" = s.
Proof. induction s as [|c s IH]; simpl; [reflexivity | now rewrite IH]. Qed.

Lemma append_assoc (a b c : string) : (a +:+ b) +:+ c = a +:+ (b +:+ c).
Proof. induction a as [|x a IH]; simpl; [reflexivity | now rewrite IH]. Qed.

Lemma length_append (a b : string) :
  String.length (a +:+ b) = String.length a + String.length b.
Proof. induction a as [|x a IH]; simpl; [reflexivity | now rewrite IH]. Qed.

Lemma occurs_append (d : ascii) (a b : string) :
  occurs d (a +:+ b) = occurs d a || occurs d b.
Proof.
  induction a as [|x a IH]; simpl; [reflexivity |].
  rewrite IH. now rewrite orb_assoc.
Qed.

Lemma splitAt_append (d : ascii) (p r : string) :
  occurs d p = false ->
  splitAt d (p +:+ String d r) = Some (p +:+ String d "", r).
Proof.
  induction p as [|c p IH]; simpl; intros Hp.
  - now rewrite Ascii.eqb_refl.
  - apply orb_false_iff in Hp as [Hc Hp]. rewrite Hc, (IH Hp). reflexivity.
Qed.

Lemma splitAt_none (d : ascii) (s : string) :
  occurs d s = false -> splitAt d s = None.
Proof.
  induction s as [|c s IH]; simpl; intros Hs; [reflexivity |].
  apply orb_false_iff in Hs as [Hc Hs]. now rewrite Hc, (IH Hs).
Qed.

Lemma splitAt_some (d : ascii) (s p rest : string) :
  splitAt d s = Some (p, rest) ->
  exists q, p = q +:+ String d "" /\ s = q +:+ String d rest /\ occurs d q = false.
Proof.
  revert p rest. induction s as [|c s IH]; simpl; intros p rest H; [discriminate |].
  destruct (Ascii.eqb c d) eqn:Hc.
  - apply Ascii.eqb_eq in Hc. subst c. injection H as <- <-. now exists "".
  - destruct (splitAt d s) as [[p' rest']|] eqn:Hs; [|discriminate].
    injection H as <- <-. destruct (IH _ _ eq_refl) as (q & -> & -> & Hq).
    exists (String c q). simpl. now rewrite Hc, Hq.
Qed.

Lemma cut_append (d : ascii) (p r : string) :
  occurs d p = false -> cut d (p +:+ String d r) = Some (p, r).
Proof.
  induction p as [|c p IH]; simpl; intros Hp.
  - now rewrite Ascii.eqb_refl.
  - apply orb_false_iff in Hp as [Hc Hp]. rewrite Hc, (IH Hp). reflexivity.
Qed.

Lemma cut_none (d : ascii) (s : string) : occurs d s = false -> cut d s = None.
Proof.
  induction s as [|c s IH]; simpl; intros Hs; [reflexivity |].
  apply orb_false_iff in Hs as [Hc Hs]. now rewrite Hc, (IH Hs).
Qed.

Lemma TrimRight_delim (d : ascii) (p : string) :
  occurs d p = false -> TrimRight (p +:+ String d "") (String d "") = p.
Proof.
  induction p as [|c p IH]; simpl; intros Hp.
  - now rewrite Ascii.eqb_refl.
  - apply orb_false_iff in Hp as [Hc Hp]. rewrite (IH Hp), Hc.
    simpl. now rewrite andb_false_r.
Qed.

(* --------------------------------------------------------------------- *)
(** ** Escaping                                                           *)
(* --------------------------------------------------------------------- *)

Ltac each_byte c := destruct c as [[] [] [] [] [] [] [] []].

(** The escape of a string is the escapes of its bytes, one after the other. *)
Lemma QueryEscape_cons (c : ascii) (s : string) :
  QueryEscape (String c s) = QueryEscape (String c "") +:+ QueryEscape s.
Proof. each_byte c; reflexivity. Qed.

Lemma QueryUnescape_byte (c : ascii) (r : string) :
  QueryUnescape (QueryEscape (String c "") +:+ r)
  = match QueryUnescape r with
    | Ok t => Ok (String c t)
    | Err e => Err e
    end.
Proof. each_byte c; reflexivity. Qed.

Lemma QueryEscape_byte_safe (c : ascii) :
  occurs TAB (QueryEscape (String c "")) = false
  /\ occurs COMMA (QueryEscape (String c "")) = false.
Proof. each_byte c; split; reflexivity. Qed.

Lemma QueryUnescape_QueryEscape (s : string) : QueryUnescape (QueryEscape s) = Ok s.
Proof.
  induction s as [|c s IH]; [reflexivity |].
  now rewrite QueryEscape_cons, QueryUnescape_byte, IH.
Qed.

Lemma QueryEscape_no_tab (s : string) : occurs TAB (QueryEscape s) = false.
Proof.
  induction s as [|c s IH]; [reflexivity |].
  rewrite QueryEscape_cons, occurs_append, IH.
  now rewrite (proj1 (QueryEscape_byte_safe c)).
Qed.

Lemma QueryEscape_no_comma (s : string) : occurs COMMA (QueryEscape s) = false.
Proof.
  induction s as [|c s IH]; [reflexivity |].
  rewrite QueryEscape_cons, occurs_append, IH.
  now rewrite (proj2 (QueryEscape_byte_safe c)).
Qed.

Lemma keyField_no_tab (r s : string) : occurs TAB (keyField r s) = false.
Proof.
  unfold keyField. rewrite occurs_append, QueryEscape_no_tab.
  destruct s as [|c s]; [reflexivity |].
  change (occurs TAB (String COMMA (QueryEscape (String c s))) = false).
  change (occurs TAB (QueryEscape (String c s)) = false).
  apply QueryEscape_no_tab.
Qed.

Lemma readLineKeyValue_encode (r s v rest : string) :
  newlineFree v ->
  readLineKeyValue (encodeKeyValueLine r s v +:+ rest) = (Ok (mkKeyValue r s v), rest).
Proof.
  intros Hv.
  assert (E : encodeKeyValueLine r s v +:+ rest
              = keyField r s +:+ String TAB (v +:+ String NL rest)).
  { unfold encodeKeyValueLine, keyField. rewrite !append_assoc. reflexivity. }
  rewrite E. unfold readLineKeyValue, ReadString.
  rewrite (splitAt_append TAB _ _ (keyField_no_tab r s)).
  rewrite (TrimRight_delim TAB _ (keyField_no_tab r s)).
  rewrite (splitAt_append NL _ _ Hv), (TrimRight_delim NL _ Hv).
  unfold keyField. destruct (isEmpty s) eqn:Hs.
  - destruct s; [|discriminate]. rewrite append_nil_r.
    unfold SplitN. rewrite (cut_none _ _ (QueryEscape_no_comma r)).
    simpl nth. simpl length. simpl Nat.eqb. cbv iota.
    rewrite QueryUnescape_QueryEscape. reflexivity.
  - unfold SplitN. rewrite (cut_append _ _ _ (QueryEscape_no_comma r)).
    simpl nth. simpl length. simpl Nat.eqb. cbv iota.
    rewrite !QueryUnescape_QueryEscape. reflexivity.
Qed.

(** C2. Round trip of the intermediate line format: for newline-free
    reduceKey, sortKey and value, whatever tabs, commas and percent signs they
    hold, decoding the encoded line gives the three strings back.  (Only the
    value has to be newline-free: see [readLineKeyValue_encode].) *)
Theorem decode_encode_roundtrip (reduceKey sortKey value : string) :
  newlineFree reduceKey -> newlineFree sortKey -> newlineFree value ->
  decodeKeyValueLine (encodeKeyValueLine reduceKey sortKey value)
  = Ok (mkKeyValue reduceKey sortKey value).
Proof.
  intros _ _ Hv. unfold decodeKeyValueLine.
  rewrite <- (append_nil_r (encodeKeyValueLine reduceKey sortKey value)).
  now rewrite readLineKeyValue_encode.
Qed.

Lemma decode_encode_roundtrip_witness :
  decodeKeyValueLine (encodeKeyValueLine "a,b%+ c" "s	k" "v	1,2%")
  = Ok (mkKeyValue "a,b%+ c" "s	k" "v	1,2%").
Proof. apply decode_encode_roundtrip; reflexivity. Defined.

(* --------------------------------------------------------------------- *)
(** ** [Main]                                                             *)
(* --------------------------------------------------------------------- *)

(** The flag [-mapreduce] is looked at first: with it, [Main] runs the full
    pipeline whatever the flags [-mapper] and [-reducer] are. *)
Lemma Main_mapreduce_first (f : Flags) :
  optDoMapReduce f = true -> Main f = [MMapreduce].
Proof. unfold Main. now intros ->. Qed.

(** C6, as stated, fails: with all three mode flags set, both the mapper and
    the reducer flag are selected, and [Main] runs the full pipeline: no
    message, no exit, and map and reduce work. *)
Lemma Main_both_flags_and_mapreduce :
  let f := mkFlags true true true 1 4 4 in
  optDoMap f && optDoReduce f = true
  /\ Main f = [MMapreduce]
  /\ reportsError (Main f) = false
  /\ exitsNonZero (Main f) = false
  /\ existsb isWork (Main f) = true.
Proof. repeat split. Qed.

(** C6, amended: when the full-pipeline flag is not selected, and both the
    mapper and the reducer flag are selected, or neither is, [Main] reports
    an error to the user and exits with code 1, without any map or reduce
    work. *)
Theorem Main_config_error (f : Flags) :
  optDoMapReduce f = false ->
  (optDoMap f = true /\ optDoReduce f = true)
  \/ (optDoMap f = false /\ optDoReduce f = false) ->
  reportsError (Main f) = true
  /\ exitsNonZero (Main f) = true
  /\ existsb isWork (Main f) = false
  /\ exists msg, Main f = [MPrintln msg; MExit 1].
Proof.
  intros Hmr [[Hm Hr] | [Hm Hr]]; unfold Main; rewrite Hmr, Hm, Hr;
    repeat split; eauto.
Qed.

Lemma Main_config_error_witness :
  reportsError (Main (mkFlags true true false 1 4 4)) = true
  /\ exitsNonZero (Main (mkFlags true true false 1 4 4)) = true
  /\ existsb isWork (Main (mkFlags true true false 1 4 4)) = false
  /\ exists msg, Main (mkFlags true true false 1 4 4) = [MPrintln msg; MExit 1].
Proof.
  apply (Main_config_error (mkFlags true true false 1 4 4));
    [reflexivity | left; split; reflexivity].
Defined.

(* --------------------------------------------------------------------- *)
(** ** The mapper pool                                                    *)
(* --------------------------------------------------------------------- *)

Lemma signalsDone_app (a b : list WorkerStep) :
  signalsDone (a ++ b) = signalsDone a || signalsDone b.
Proof. unfold signalsDone. apply existsb_app. Qed.

Lemma mapCalls_no_done (content : string) : signalsDone (mapCalls content) = false.
Proof.
  unfold mapCalls. destruct (mapper content []) as [cs|]; [|reflexivity].
  induction cs as [|c cs IH]; [reflexivity |].
  destruct c; simpl; [exact IH | exact IH].
Qed.

Lemma mapperWorker_cons_open (open : string -> option string) i f inputs :
  open (fname i) = Some f ->
  mapperWorker open (i :: inputs)
  = ([WNewEmitter (index i)] ++ mapCalls f ++ [WEmitFlush; WEmitClose; WFileClose]
       ++ fst (mapperWorker open inputs), snd (mapperWorker open inputs)).
Proof.
  intros H. simpl. rewrite H. now destruct (mapperWorker open inputs).
Qed.


(** C8. A mapper worker whose input file [x] fails to open logs the error and
    returns: the work items [post] that were still to come stay in the queue,
    what the worker did does not depend on them, and the worker does not
    signal the phase barrier ([wg.Done] is not called). *)
Theorem mapperWorker_open_failure
  (open : string -> option string) (pre post : list mapperFile) (x : mapperFile) :
  Forall (fun i => open (fname i) <> None) pre ->
  open (fname x) = None ->
  let '(steps, remaining) := mapperWorker open (pre ++ x :: post) in
  remaining = post
  /\ steps = fst (mapperWorker open (pre ++ [x]))
  /\ last steps = Some WOpenError
  /\ signalsDone steps = false.
Proof.
  intros Hpre Hx. induction Hpre as [|i pre Hi _ IH].
  - simpl. rewrite Hx. repeat split.
  - destruct (open (fname i)) as [f|] eqn:Hf; [|congruence].
    rewrite <- !app_comm_cons, !(mapperWorker_cons_open _ _ _ _ Hf).
    destruct (mapperWorker open (pre ++ x :: post)) as [steps remaining].
    cbn [fst snd]. destruct IH as (-> & -> & Hlast & Hdone).
    repeat split.
    + rewrite !app_assoc, last_app, Hlast. reflexivity.
    + rewrite !signalsDone_app, mapCalls_no_done, Hdone. reflexivity.
Qed.

Lemma mapperWorker_open_failure_witness :
  let open := fun name => if String.eqb name "in0" then Some "line1
" else None in
  let '(steps, remaining) :=
    mapperWorker open ([mkMapperFile 0 "in0"] ++ mkMapperFile 1 "in1" :: [mkMapperFile 2 "in0"]) in
  remaining = [mkMapperFile 2 "in0"]
  /\ steps = fst (mapperWorker open ([mkMapperFile 0 "in0"] ++ [mkMapperFile 1 "in1"]))
  /\ last steps = Some WOpenError
  /\ signalsDone steps = false.
Proof.
  intros open.
  apply (mapperWorker_open_failure open [mkMapperFile 0 "in0"] [mkMapperFile 2 "in0"]
           (mkMapperFile 1 "in1")).
  - repeat constructor. discriminate.
  - reflexivity.
Defined.

(* --------------------------------------------------------------------- *)
(** ** The TSV protocol                                                   *)
(* --------------------------------------------------------------------- *)

Section ProtoFacts.

Context {float64 : Type} (FormatFloat_g5 : float64 -> string).

(** The only panic of [MarshalKV]: the nil interface as [value]. *)
Lemma MarshalKV_nil (r s : @GoValue float64) : MarshalKV FormatFloat_g5 r s VNil = None.
Proof. reflexivity. Qed.


End ProtoFacts.


(* --------------------------------------------------------------------- *)
(** ** Groups                                                             *)
(* --------------------------------------------------------------------- *)

Lemma groups_nil_inv (rs : list KeyValue) : groups rs = [] -> rs = [].
Proof.
  destruct rs as [|r rs]; [reflexivity |]. simpl.
  destruct (groups rs) as [|[r' vs] gr]; [discriminate |].
  destruct (String.eqb _ _); discriminate.
Qed.

(** What one more record at the end does to the groups: it joins the last
    group, or starts a group. *)
Lemma groups_snoc (rs : list KeyValue) (x : KeyValue)
    (G0 : list (KeyValue * list string)) (f : KeyValue) (vs : list string) :
  groups rs = G0 ++ [(f, vs)] ->
  groups (rs ++ [x])
  = if String.eqb (ReduceKey f) (ReduceKey x)
    then G0 ++ [(f, vs ++ [Value x])]
    else G0 ++ [(f, vs); (x, [Value x])].
Proof.
  revert G0 f vs. induction rs as [|r rs IH]; intros G0 f vs HG.
  - by destruct G0.
  - simpl in HG. simpl.
    destruct (groups rs) as [|[r' vs'] gr] eqn:Hg.
    + apply groups_nil_inv in Hg. subst rs.
      destruct G0 as [|? [|? ?]]; simplify_eq/=.
      by destruct (String.eqb _ _).
    + destruct (String.eqb (ReduceKey r) (ReduceKey r')) eqn:Hk.
      * destruct G0 as [|g0 G0]; simplify_eq/=.
        -- rewrite (IH [] r' vs' eq_refl). apply String.eqb_eq in Hk.
           rewrite Hk. destruct (String.eqb (ReduceKey r') (ReduceKey x)); simpl;
             by rewrite String.eqb_refl.
        -- rewrite (IH ((r', vs') :: G0) f vs eq_refl).
           destruct (String.eqb (ReduceKey f) (ReduceKey x)); simpl; by rewrite Hk.
      * destruct G0 as [|g0 G0]; simplify_eq/=.
        rewrite (IH G0 f vs H0).
        destruct G0 as [|g1 G0]; simplify_eq/=.
        -- destruct (String.eqb _ (ReduceKey x)); simpl; by rewrite Hk.
        -- destruct (String.eqb _ (ReduceKey x)); simpl; by rewrite Hk.
Qed.

Lemma groups_single (x : KeyValue) : groups [x] = [(x, [Value x])].
Proof. reflexivity. Qed.

(** No value is lost, doubled or moved by the grouping. *)
Lemma groups_concat (rs : list KeyValue) :
  concat (groups rs).*2 = Value <$> rs.
Proof.
  induction rs as [|r rs IH]; [reflexivity |].
  rewrite fmap_cons, <- IH. cbn [groups].
  destruct (groups rs) as [|[r' vs] gr]; [reflexivity |].
  by destruct (String.eqb _ _).
Qed.

(* --------------------------------------------------------------------- *)
(** ** The readers consume input                                          *)
(* --------------------------------------------------------------------- *)

Lemma splitAt_length (d : ascii) (s p rest : string) :
  splitAt d s = Some (p, rest) -> String.length rest < String.length s.
Proof.
  intros H. destruct (splitAt_some _ _ _ _ H) as (q & _ & -> & _).
  rewrite length_append. simpl. lia.
Qed.

Lemma readLineValue_ok (br br' : string) (kv : KeyValue) :
  readLineValue br = (Ok kv, br') ->
  exists l, newlineFree l /\ br = l +:+ String NL br' /\ kv = mkKeyValue "" "" l.
Proof.
  unfold readLineValue, ReadString.
  destruct (splitAt NL br) as [[p rest]|] eqn:Hs; [|discriminate].
  intros [= <- <-]. destruct (splitAt_some _ _ _ _ Hs) as (q & -> & -> & Hq).
  exists q. by rewrite (TrimRight_delim NL q Hq).
Qed.

Lemma readLineValue_length (br br' : string) (kv : KeyValue) :
  readLineValue br = (Ok kv, br') -> String.length br' < String.length br.
Proof.
  intros H. destruct (readLineValue_ok _ _ _ H) as (l & _ & -> & _).
  rewrite length_append. simpl. lia.
Qed.

Lemma readLineKeyValue_length (br br' : string) (kv : KeyValue) :
  readLineKeyValue br = (Ok kv, br') -> String.length br' < String.length br.
Proof.
  unfold readLineKeyValue, ReadString.
  destruct (splitAt TAB br) as [[k rest]|] eqn:Hk; [|discriminate].
  apply splitAt_length in Hk.
  destruct (QueryUnescape _); [|discriminate].
  destruct (if Nat.eqb _ 2 then _ else _); [|discriminate].
  destruct (splitAt NL rest) as [[v rest']|] eqn:Hv; [|discriminate].
  apply splitAt_length in Hv. intros [= _ <-]. lia.
Qed.

Lemma readLineKeyValue_empty : exists e br', readLineKeyValue "" = (Err e, br').
Proof. by eexists _, _. Qed.

Lemma records_loop_enough (n m : nat) (br : string) :
  String.length br <= n -> String.length br <= m ->
  records_loop n br = records_loop m br.
Proof.
  revert m br. induction n as [|n IH]; intros m br Hn Hm.
  - destruct br; [|simpl in Hn; lia]. by destruct m.
  - destruct m as [|m].
    + destruct br; [|simpl in Hm; lia]. reflexivity.
    + simpl. destruct (readLineKeyValue br) as [[kv|e] br'] eqn:Hr; [|reflexivity].
      apply readLineKeyValue_length in Hr. f_equal. apply IH; lia.
Qed.

(** [records], turn by turn. *)
Lemma records_unfold (br : string) :
  records br
  = match readLineKeyValue br with
    | (Ok kv, br') => kv :: records br'
    | (Err _, _) => []
    end.
Proof.
  unfold records. destruct br as [|c br]; [reflexivity |].
  cbn [String.length records_loop].
  destruct (readLineKeyValue (String c br)) as [[kv|e] br'] eqn:Hr; [|reflexivity].
  apply readLineKeyValue_length in Hr. simpl in Hr.
  f_equal. apply records_loop_enough; lia.
Qed.

(* --------------------------------------------------------------------- *)
(** ** The driver of [reducer], whatever the goroutines do                *)
(* --------------------------------------------------------------------- *)

Lemma driver_inv_init (input : string) : driver_inv input (init input).
Proof.
  exists []. repeat split; try done.
Qed.

Lemma same_view_lengths (s s' : state) :
  same_view s s' ->
  length (gs s') = length (gs s) /\ length (vchans s') = length (vchans s).
Proof.
  intros (_ & _ & _ & _ & _ & Hf & Hh & _). split.
  - apply (f_equal length) in Hf. unfold firsts in Hf. by rewrite !length_fmap in Hf.
  - apply (f_equal length) in Hh. unfold hists in Hh. by rewrite !length_fmap in Hh.
Qed.

(** The driver's invariant is kept by every step that leaves the driver's
    view as it is, and the driver where it is or past a [close(values)] or a
    [<-done]. *)
Lemma driver_inv_same_view (input : string) (s s' : state) :
  same_view s s' ->
  d_pc s' = d_pc s
  \/ (exists next, d_pc s = DClose next /\ d_pc s' = DWait next)
  \/ (exists next, d_pc s = DWait next /\ d_pc s' = afterWait next) ->
  driver_inv input s -> driver_inv input s'.
Proof.
  intros Hv Hpc (processed & Hval & Hdone & Hfirst & Hat).
  destruct (same_view_lengths _ _ Hv) as [Hlg Hlv].
  destruct Hv as (Hbr & Hcrk & Hifr & Hvals & Hdn & Hf & Hh & Hld).
  exists processed. rewrite Hvals, Hdn, Hlv, Hld, Hifr.
  split; [done |]. split; [done |]. split.
  - intros Hi. destruct (Hfirst Hi) as (Hg & Hvc & Hdc & Hp).
    repeat split; try done; apply length_zero_iff_nil.
    + by rewrite Hlg, Hg.
    + by rewrite Hlv, Hvc.
    + by rewrite Hld, Hdc.
  - unfold driver_at, shape in *.
    destruct Hpc as [Hpc | [(next & Hpc & Hpc') | (next & Hpc & Hpc')]].
    + rewrite Hpc.
      destruct (d_pc s) as [|[?|]|[?|]| | | | |];
        rewrite ?Hbr, ?Hcrk, ?Hifr, ?Hf, ?Hh, ?Hld, ?Hlg; done.
    + rewrite Hpc', Hpc in *. destruct next;
        rewrite ?Hbr, ?Hcrk, ?Hifr, ?Hf, ?Hh, ?Hld, ?Hlg; done.
    + rewrite Hpc', Hpc in *. destruct next; simpl;
        rewrite ?Hbr, ?Hcrk, ?Hifr, ?Hf, ?Hh, ?Hld, ?Hlg; tauto.
Qed.

Lemma fmap_insert_same {A B} (f : A -> B) (l : list A) (i : nat) (x y : A) :
  l !! i = Some x -> f y = f x -> f <$> <[i := y]> l = f <$> l.
Proof.
  intros Hl Hf. rewrite list_fmap_insert, Hf. apply list_insert_id.
  by rewrite list_lookup_fmap, Hl.
Qed.

Ltac view_tac :=
  unfold same_view, firsts, hists; simpl; repeat split; try done;
  try (by eapply fmap_insert_same); try (by rewrite length_insert).

Lemma same_view_panic (msg : string) (s : state) : same_view s (panic msg s).
Proof. view_tac. Qed.

Lemma go_step_view (i : nat) (s s' : state) :
  go_step i s = Some s' ->
  same_view s s'
  /\ (d_pc s' = d_pc s
      \/ exists next, d_pc s = DWait next /\ d_pc s' = afterWait next).
Proof.
  unfold go_step. intros H.
  destruct (gs s !! i) as [g|] eqn:Hg; [|done].
  destruct (g_pc g) eqn:Hgp.
  - destruct (values s); simplify_eq. split; [view_tac | by left].
  - destruct (vchans s !! ch) as [c|] eqn:Hc; [|done].
    destruct (vbuf c) eqn:Hb; simplify_eq. split; [view_tac | by left].
  - destruct (dchans s !! d) as [[]|] eqn:Hd; simplify_eq.
    + split; [apply same_view_panic | by left].
    + destruct (d_pc s) eqn:Hpc; try done.
      destruct (done s) as [d'|]; [|done].
      destruct (Nat.eqb d d'); simplify_eq.
      split; [view_tac | right; by eexists].
  - destruct (done s); simplify_eq. split; [view_tac | by left].
  - destruct (dchans s !! d) as [[]|] eqn:Hd; simplify_eq.
    + split; [apply same_view_panic | by left].
    + split; [view_tac | by left].
  - done.
Qed.

Lemma ret_step_view (i : nat) (s s' : state) :
  ret_step i s = Some s' -> same_view s s' /\ d_pc s' = d_pc s.
Proof.
  unfold ret_step. intros H.
  destruct (gs s !! i) as [g|] eqn:Hg; [|done].
  destruct (g_pc g) eqn:Hgp; try done.
  destruct (done s); simplify_eq. split; [view_tac | done].
Qed.

Lemma closeValues_view (p : dpc) (s s' : state) :
  closeValues p s = Some s' ->
  same_view s s' /\ (d_pc s' = d_pc s \/ d_pc s' = p).
Proof.
  unfold closeValues. intros H.
  destruct (values s) as [ch|]; simplify_eq.
  2:{ split; [apply same_view_panic | by left]. }
  destruct (vchans s !! ch) as [c|] eqn:Hc; [|done].
  destruct (vclosed c); simplify_eq.
  - split; [apply same_view_panic | by left].
  - split; [view_tac | by right].
Qed.

(** The last group of a list of records that ends in [x] has the key of [x]. *)
Lemma groups_last_key (rs : list KeyValue) (x : KeyValue) :
  exists f vs, last (groups (rs ++ [x])) = Some (f, vs) /\ ReduceKey f = ReduceKey x.
Proof.
  destruct (groups rs) as [|g G] eqn:Hg.
  - apply groups_nil_inv in Hg. subst rs. by exists x, [Value x].
  - destruct (exists_last (l := g :: G)) as (G0 & [f vs] & HG); [done |].
    rewrite HG in Hg. rewrite (groups_snoc _ x _ _ _ Hg).
    destruct (String.eqb (ReduceKey f) (ReduceKey x)) eqn:Hk.
    + exists f, (vs ++ [Value x]). rewrite last_snoc. by apply String.eqb_eq in Hk.
    + exists x, [Value x].
      change (G0 ++ [(f, vs); (x, [Value x])])
        with (G0 ++ [(f, vs)] ++ [(x, [Value x])]).
      by rewrite app_assoc, last_snoc.
Qed.

Lemma last_fmap_fst {A B} (l : list (A * B)) (a : A) :
  last (l.*1) = Some a -> exists l0 b, l = l0 ++ [(a, b)].
Proof.
  intros H. destruct l as [|x l] using rev_ind; [done |].
  destruct x as [a' b]. rewrite fmap_app in H. cbn [fmap list_fmap] in H.
  rewrite last_snoc in H. simplify_eq/=.
  by exists l, b.
Qed.

Lemma driver_step_inv (input : string) (s s' : state) :
  driver_step s = Some s' -> driver_inv input s -> driver_inv input s'.
Proof.
  intros Hstep Hinv. unfold driver_step in Hstep. pose proof Hinv as Hinv0.
  unfold driver_inv, driver_at, shape, new_group, firsts, hists in Hinv |- *.
  destruct (d_pc s) as [|next|next|mkv|mkv|mkv|mkv|] eqn:Hpc.
  - (* DRead *)
    destruct Hinv as (processed & Hval & Hdone & Hfirst & Hat).
    destruct Hat as (Hrec & (Hf & Hh & Hld) & Hcur).
    rewrite (records_unfold (br s)) in Hrec.
    destruct (readLineKeyValue (br s)) as [[mkv|e] br'] eqn:Hr.
    + simpl in Hstep.
      destruct (isFirstRun s) eqn:Hifr.
      * (* the first record *)
        rewrite orb_true_r in Hstep. simplify_eq/=.
        destruct (Hfirst eq_refl) as (Hg & Hvc & Hdc & ->).
        exists []. simpl. split_and!; try done.
      * rewrite orb_false_r in Hstep. simpl in Hstep.
        destruct (Hcur eq_refl) as (f & Hlast & Hkey).
        rewrite Hf in Hlast.
        destruct (last_fmap_fst _ _ Hlast) as (G0 & vs & HG).
        pose proof (groups_snoc _ mkv _ _ _ HG) as Hsnoc. rewrite Hkey in Hsnoc.
        destruct (String.eqb (currentReduceKey s) (ReduceKey mkv)) eqn:Hk;
          simplify_eq/=.
        -- (* the record goes on with the group *)
           exists processed. simpl. split_and!; try done.
           ++ by rewrite Hifr.
           ++ by rewrite Hf, Hsnoc, HG, !fmap_app.
           ++ rewrite Hld. apply (f_equal length) in Hf.
              rewrite !length_fmap in Hf. lia.
           ++ exists (G0.*2), vs. by rewrite Hh, Hsnoc, HG, !fmap_app, app_nil_r.
           ++ by apply String.eqb_eq.
        -- (* the record starts a group *)
           exists processed. simpl. split_and!; try done.
           ++ by rewrite Hifr.
           ++ rewrite Hsnoc, HG. by rewrite <- app_assoc.
    + simplify_eq/=. exists processed. rewrite app_nil_r in Hrec.
      simpl. split_and!; done.
  - (* DClose *)
    destruct (closeValues_view _ _ _ Hstep) as [Hv Hp].
    apply (driver_inv_same_view input s s'); [done | | ].
    + destruct Hp as [Hp | Hp]; [by left | right; left]. rewrite Hpc. by eexists.
    + exact Hinv0.
  - (* DWait *)
    destruct (done s) as [d|]; [|done].
    destruct (dchans s !! d) as [[]|]; simplify_eq.
    apply (driver_inv_same_view input s); [ | | ].
    + view_tac.
    + right; right. rewrite Hpc. by eexists.
    + exact Hinv0.
  - (* DMakeValues *)
    simplify_eq. destruct Hinv as (processed & Hval & Hdone & Hfirst & Hat).
    destruct Hat as (Hrec & (Hf & Hh & Hld) & Hnew).
    exists processed. simpl. split_and!; try done.
    + by rewrite length_app, Nat.add_1_r.
    + simpl. by rewrite fmap_app, Hh, app_nil_r.
  - (* DMakeDone *)
    simplify_eq. destruct Hinv as (processed & Hval & Hdone & Hfirst & Hat).
    destruct Hat as (Hrec & (Hf & Hh & Hld) & Hnew & Hifr).
    exists processed. simpl. split_and!; try done.
    + by rewrite length_app, Nat.add_1_r.
    + by rewrite Hifr.
    + rewrite length_app, Hld. simpl. lia.
  - (* DSpawn *)
    simplify_eq. destruct Hinv as (processed & Hval & Hdone & Hfirst & Hat).
    destruct Hat as (Hrec & (Hf & Hh & Hld) & Hnew & Hifr).
    exists processed. simpl. split_and!; try done.
    + by rewrite Hifr.
    + simpl. by rewrite fmap_app, Hf, Hnew, fmap_app.
    + rewrite length_app, Hld. apply (f_equal length) in Hf.
      rewrite !length_fmap in Hf. simpl. lia.
    + exists ((groups processed).*2), []. by rewrite Hh, Hnew, fmap_app.
  - (* DSend *)
    destruct Hinv as (processed & Hval & Hdone & Hfirst & Hat).
    destruct Hat as (Hrec & Hifr & Hf & Hld & (hs & h & Hh & HG) & Hcur).
    destruct (values s) as [ch|] eqn:Hvs; [|done].
    destruct (vchans s !! ch) as [c|] eqn:Hc; [|done].
    destruct (vclosed c) eqn:Hcl; simplify_eq.
    { eapply driver_inv_same_view; [apply same_view_panic | by left | done]. }
    destruct (length (vbuf c) <? valuesCap); simplify_eq.
    assert (Hlen : length (vchans s) = S (length hs)).
    { apply (f_equal length) in Hh. 
      rewrite length_fmap, length_app in Hh. simpl in Hh. lia. }
    rewrite Hlen in Hval. simpl in Hval. simplify_eq.
    assert (Hhc : vhist c = h).
    { assert (Hl : (vhist <$> vchans s) !! length hs = Some (vhist c))
        by (by rewrite list_lookup_fmap, Hc).
      rewrite Hh, list_lookup_middle in Hl by done. by simplify_eq. }
    exists (processed ++ [mkv]). simpl.
    split_and!; try done.
    + by rewrite length_insert, Hlen.
    + by rewrite Hifr.
    + by rewrite <- app_assoc.
    + simpl. rewrite list_fmap_insert, Hh. simpl.
      rewrite app_nil_r, HG, Hhc.
      replace (length hs) with (length hs + 0) by lia.
      by rewrite insert_app_r.
    + rewrite Hld. apply (f_equal length) in Hf.
      rewrite !length_fmap in Hf. lia.
    + intros _. destruct (groups_last_key processed mkv) as (f & vs & Hl & Hk).
      exists f. split; [|by rewrite Hcur].
      simpl. rewrite Hf. by rewrite fmap_last, Hl.
  - done.
Qed.

Lemma step_driver_inv (input : string) (l : label) (s s' : state) :
  step l s = Some s' -> driver_inv input s -> driver_inv input s'.
Proof.
  unfold step. destruct (panicked s); [done |]. destruct l as [|i|i]; intros H.
  - by apply driver_step_inv.
  - destruct (go_step_view _ _ _ H) as [Hv Hp].
    apply driver_inv_same_view; [done |]. destruct Hp; auto.
  - destruct (ret_step_view _ _ _ H) as [Hv Hp].
    apply driver_inv_same_view; [done | by left].
Qed.

Lemma run_app (a b : list label) (s : state) :
  run (a ++ b) s = match run a s with Some s' => run b s' | None => None end.
Proof.
  revert s. induction a as [|l a IH]; intros s; [reflexivity |].
  simpl. destruct (step l s); [apply IH | reflexivity].
Qed.

(** Induction over what is reached, a step at a time. *)
Lemma reaches_ind_step (P : state -> Prop) (s0 : state) :
  P s0 ->
  (forall l s s', reaches s0 s -> P s -> step l s = Some s' -> P s') ->
  forall s, reaches s0 s -> P s.
Proof.
  intros H0 Hstep s [sched Hrun]. revert s Hrun.
  induction sched as [|l sched IH] using rev_ind; intros s Hrun.
  - by simplify_eq/=.
  - rewrite run_app in Hrun. destruct (run sched s0) as [s1|] eqn:H1; [|done].
    simpl in Hrun. destruct (step l s1) as [s2|] eqn:H2; simplify_eq.
    eapply Hstep; [by exists sched | by apply IH | done].
Qed.

Lemma reaches_driver_inv (input : string) (s : state) :
  reaches (init input) s -> driver_inv input s.
Proof.
  apply reaches_ind_step; [apply driver_inv_init |].
  intros l s1 s2 _ Hinv Hstep. by eapply step_driver_inv.
Qed.

Lemma driver_inv_lengths (input : string) (s : state) :
  driver_inv input s ->
  length (vchans s) = length (gs s) + extra_v (d_pc s)
  /\ length (dchans s) = length (gs s) + extra_d (d_pc s)
  /\ values s = pred_opt (length (vchans s))
  /\ done s = pred_opt (length (dchans s))
  /\ (isFirstRun s = true -> gs s = [])
  /\ match d_pc s with
     | DClose (Some _) | DWait (Some _) | DMakeDone _ | DSpawn _ | DSend _ =>
         isFirstRun s = false
     | _ => True
     end.
Proof.
  intros (processed & Hval & Hdone & Hfirst & Hat).
  assert (Hl : forall (G : list (KeyValue * list string)) ev ed,
             shape s G ev ed ->
             length (vchans s) = length (gs s) + length ev
             /\ length (dchans s) = length (gs s) + ed).
  { intros G ev ed (Hf & Hh & Hd). apply (f_equal length) in Hf, Hh.
    unfold firsts, hists in *. rewrite ?length_app, !length_fmap in *. lia. }
  assert (Hg : isFirstRun s = true -> gs s = []).
  { intros Hi. by destruct (Hfirst Hi). }
  unfold driver_at in Hat.
  destruct (d_pc s) as [|next|next|mkv|mkv|mkv|mkv|] eqn:Hpc; simpl.
  - destruct Hat as (_ & Hs & _). destruct (Hl _ _ _ Hs). simpl in *. done.
  - destruct next.
    + destruct Hat as (_ & Hs & _ & ?). destruct (Hl _ _ _ Hs). simpl in *. done.
    + destruct Hat as (_ & Hs). destruct (Hl _ _ _ Hs). simpl in *. done.
  - destruct next.
    + destruct Hat as (_ & Hs & _ & ?). destruct (Hl _ _ _ Hs). simpl in *. done.
    + destruct Hat as (_ & Hs). destruct (Hl _ _ _ Hs). simpl in *. done.
  - destruct Hat as (_ & Hs & _). destruct (Hl _ _ _ Hs). simpl in *. done.
  - destruct Hat as (_ & Hs & _ & ?). destruct (Hl _ _ _ Hs). simpl in *. done.
  - destruct Hat as (_ & Hs & _ & ?). destruct (Hl _ _ _ Hs). simpl in *. done.
  - destruct Hat as (_ & Hifr & Hf & Hld & (hs & h & Hh & HG) & _).
    apply (f_equal length) in Hf, Hh, HG. unfold firsts, hists in *.
    rewrite ?length_app, !length_fmap in *. simpl in *.
    split_and!; try done; lia.
  - destruct Hat as (_ & Hs). destruct (Hl _ _ _ Hs). simpl in *. done.
Qed.

(* --------------------------------------------------------------------- *)
(** ** Every [<-done] of a run that ends well is met by a send            *)
(* --------------------------------------------------------------------- *)

Lemma sum_list_insert (l : list nat) (i x y : nat) :
  l !! i = Some x -> sum_list (<[i := y]> l) + x = sum_list l + y.
Proof.
  revert i. induction l as [|a l IH]; intros [|i] H; simplify_eq/=; [lia |].
  specialize (IH _ H). lia.
Qed.

Lemma sum_list_snoc (l : list nat) (x : nat) : sum_list (l ++ [x]) = sum_list l + x.
Proof. induction l as [|a l IH]; simpl; lia. Qed.

Lemma sent_count_insert (s : state) (i : nat) (g g' : goroutine) :
  gs s !! i = Some g ->
  sent_count (set_gs (<[i := g']> (gs s)) s) + sent_weight g
  = sent_count s + sent_weight g'.
Proof.
  intros H. unfold sent_count. simpl. rewrite list_fmap_insert.
  apply sum_list_insert. by rewrite list_lookup_fmap, H.
Qed.

Lemma count_inv_step (input : string) (l : label) (s s' : state) :
  step l s = Some s' -> driver_inv input s -> count_inv s -> count_inv s'.
Proof.
  intros Hstep Hinv Hc.
  destruct (driver_inv_lengths _ _ Hinv) as (Hlv & Hld & Hval & Hdone & Hg & Hifr).
  unfold step in Hstep. destruct (panicked s); [done |].
  unfold count_inv, pending, sent_count, sent_weight, is_sent in *.
  destruct l as [|i|i].
  - unfold driver_step, closeValues in Hstep.
    destruct (d_pc s) as [|next|next|mkv|mkv|mkv|mkv|] eqn:Hpc.
    + destruct (readLineKeyValue (br s)) as [[mkv|e] br'] eqn:Hr; simpl in Hstep.
      * destruct (isFirstRun s) eqn:Hi; simpl in Hstep.
        -- rewrite orb_true_r in Hstep. by simplify_eq/=.
        -- rewrite orb_false_r in Hstep.
           destruct (negb _); simplify_eq/=; by rewrite Hi.
      * by simplify_eq/=.
    + destruct (values s) as [ch|]; simplify_eq/=; [|by rewrite Hpc].
      destruct (vchans s !! ch) as [c|]; [|done].
      destruct (vclosed c); simplify_eq/=; [by rewrite Hpc | done].
    + destruct (done s) as [d|] eqn:Hd; [|done].
      destruct (dchans s !! d) as [[]|] eqn:Hdd; simplify_eq/=.
      destruct (isFirstRun s) eqn:Hi.
      * rewrite (Hg eq_refl) in Hld. simpl in Hld.
        destruct (dchans s); simplify_eq/=.
      * destruct next; simpl; lia.
    + simplify_eq/=. lia.
    + simplify_eq/=. lia.
    + simplify_eq/=. rewrite fmap_app, length_app. cbn [fmap list_fmap].
      rewrite sum_list_snoc. simpl.
      rewrite Hifr in *. simpl. lia.
    + destruct (values s) as [ch|]; [|done].
      destruct (vchans s !! ch) as [c|]; [|done].
      destruct (vclosed c); simplify_eq/=; [by rewrite Hpc |].
      destruct (_ <? _); simplify_eq/=. by rewrite Hifr in *.
    + done.
  - unfold go_step in Hstep.
    destruct (gs s !! i) as [g|] eqn:Hgi; [|done].
    pose proof (sent_count_insert s i g) as Hins.
    unfold sent_count, sent_weight, is_sent in Hins. simpl in Hins.
    assert (Hne : isFirstRun s = false).
    { destruct (isFirstRun s); [|done]. by rewrite (Hg eq_refl) in Hgi. }
    rewrite Hne in *.
    destruct (g_pc g) eqn:Hgp.
    + destruct (values s) as [ch|]; simplify_eq/=. rewrite length_insert.
      specialize (Hins (set_g_pc (GReduce ch) g) Hgi). simpl in Hins. rewrite ?Hne. lia.
    + destruct (vchans s !! ch) as [c|]; [|done].
      destruct (vbuf c) as [|v buf']; simplify_eq/=. rewrite length_insert.
      specialize (Hins (mkGoroutine (g_mkv g) (GReduce ch) (g_got g ++ [v])) Hgi).
      simpl in Hins. rewrite ?Hne. lia.
    + destruct (dchans s !! d) as [[]|]; simplify_eq/=.
      * by rewrite Hne.
      * destruct (d_pc s) eqn:Hpc; try done.
        destruct (done s) as [d'|]; [|done].
        destruct (Nat.eqb d d'); simplify_eq/=. rewrite length_insert.
        specialize (Hins (set_g_pc GSent g) Hgi). simpl in Hins.
        rewrite ?Hne. destruct next; simpl; lia.
    + destruct (done s) as [d|]; simplify_eq/=. rewrite length_insert.
      specialize (Hins (set_g_pc (GClosing d) g) Hgi). simpl in Hins. rewrite ?Hne. lia.
    + destruct (dchans s !! d) as [[]|]; simplify_eq/=.
      * by rewrite Hne.
      * rewrite length_insert.
        specialize (Hins (set_g_pc GDone g) Hgi). simpl in Hins. rewrite ?Hne. lia.
    + done.
  - unfold ret_step in Hstep.
    destruct (gs s !! i) as [g|] eqn:Hgi; [|done].
    pose proof (sent_count_insert s i g) as Hins.
    unfold sent_count, sent_weight, is_sent in Hins. simpl in Hins.
    destruct (g_pc g) eqn:Hgp; try done.
    destruct (done s) as [d|]; simplify_eq/=. rewrite length_insert.
    specialize (Hins (set_g_pc (GSending d) g) Hgi). simpl in Hins. rewrite ?Hne. lia.
Qed.

(* --------------------------------------------------------------------- *)
(** ** Runs without an early [<-done]                                     *)
(* --------------------------------------------------------------------- *)

Lemma good_init (input : string) : good (init input).
Proof. split_and!; [done | done | done]. Qed.

Lemma pending_le_1 (s : state) : pending s <= 1.
Proof. unfold pending. repeat case_match; lia. Qed.

(** A goroutine that is before its send is the last one, and the driver has
    not yet passed the [<-done] for it. *)
Lemma unsent_last (s : state) (i : nat) (g : goroutine) :
  good s -> gs s !! i = Some g -> is_sent g = false ->
  pending s = 1 /\ length (gs s) = S i.
Proof.
  intros (_ & _ & Hg) Hi Hs. destruct (Hg _ _ Hi) as ([_ H1] & _).
  apply lookup_lt_Some in Hi. pose proof (pending_le_1 s).
  destruct (decide (i + pending s < length (gs s))) as [Hlt|Hge]; [|lia].
  rewrite (H1 Hlt) in Hs. done.
Qed.

Lemma pending_1_lengths (input : string) (s : state) :
  driver_inv input s -> pending s = 1 ->
  isFirstRun s = false
  /\ values s = pred_opt (length (gs s))
  /\ done s = pred_opt (length (gs s))
  /\ length (vchans s) = length (gs s)
  /\ length (dchans s) = length (gs s).
Proof.
  intros Hinv Hp.
  destruct (driver_inv_lengths _ _ Hinv) as (Hlv & Hld & Hval & Hdone & _ & _).
  unfold pending in Hp.
  destruct (d_pc s) eqn:Hpc; try done; destruct (isFirstRun s); try done;
    simpl in *; rewrite Nat.add_0_r in *; by rewrite <- Hlv, <- Hld at 1.
Qed.

(** Steps that touch neither goroutines, [values] channels nor calls. *)
Lemma good_same (s s' : state) :
  gs s' = gs s -> vchans s' = vchans s -> calls s' = calls s ->
  pending s' = pending s -> good s -> good s'.
Proof.
  intros Hg Hv Hc Hp. unfold good, good_goroutine.
  by rewrite Hg, Hv, Hc, Hp.
Qed.

Lemma good_driver_step (input : string) (s s' : state) :
  driver_step s = Some s' -> driver_inv input s -> good s ->
  early s' = early s -> good s'.
Proof.
  intros Hstep Hinv Hgood Hearly.
  destruct (driver_inv_lengths _ _ Hinv) as (Hlv & Hld & Hval & Hdone & Hg & Hifr).
  unfold driver_step, closeValues in Hstep.
  destruct (d_pc s) as [|next|next|mkv|mkv|mkv|mkv|] eqn:Hpc.
  - (* DRead *)
    apply (good_same s); [| | | |done];
      destruct (readLineKeyValue (br s)) as [[mkv|e] br'];
      simpl in Hstep; repeat case_match; simplify_eq/=; try done.
    all: unfold pending; simpl; rewrite Hpc; try done.
    all: destruct (isFirstRun s); simpl in *; done.
  - (* DClose *)
    destruct (values s) as [ch|]; simplify_eq/=.
    2:{ apply (good_same s); try done. }
    destruct (vchans s !! ch) as [c|] eqn:Hc; [|done].
    destruct (vclosed c); simplify_eq/=.
    { apply (good_same s); try done. }
    destruct Hgood as (Hcalls & Hextra & Hgs).
    split_and!; simpl; [done | |].
    + intros i c' Hi Hn. destruct (decide (i = ch)) as [->|Hne].
      * rewrite list_lookup_insert_eq in Hi by (by eapply lookup_lt_Some).
        simplify_eq/=. by apply (Hextra ch).
      * rewrite list_lookup_insert_ne in Hi by done. by apply (Hextra i).
    + intros i g Hi. destruct (Hgs _ _ Hi) as (H1 & H2 & H3 & H4 & H5).
      unfold good_goroutine, pending in *. simpl. rewrite Hpc in *.
      split_and!; try done.
      intros c' Hc'. destruct (decide (i = ch)) as [->|Hne].
      * rewrite list_lookup_insert_eq in Hc' by (by eapply lookup_lt_Some).
        simplify_eq/=. by apply H3.
      * rewrite list_lookup_insert_ne in Hc' by done. by apply H3.
  - (* DWait: only the early return is a step of the driver *)
    destruct (done s) as [d|]; [|done].
    destruct (dchans s !! d) as [[]|]; simplify_eq/=. lia.
  - (* DMakeValues *)
    simplify_eq/=. destruct Hgood as (Hcalls & Hextra & Hgs).
    split_and!; simpl; [done | |].
    + intros i c' Hi Hn. apply lookup_app_Some in Hi as [Hi | [_ Hi]].
      * by apply (Hextra i).
      * destruct (i - length (vchans s)); by simplify_eq/=.
    + intros i g Hi. destruct (Hgs _ _ Hi) as (H1 & H2 & H3 & H4 & H5).
      unfold good_goroutine, pending in *. simpl. rewrite Hpc in *.
      split_and!; try done.
      intros c' Hc'. apply H3. rewrite lookup_app_l in Hc'; [done |].
      apply lookup_lt_Some in Hi. simpl in Hlv. lia.
  - (* DMakeDone *)
    simplify_eq/=. apply (good_same s); try done.
    unfold pending. simpl. by rewrite Hpc.
  - (* DSpawn *)
    simplify_eq/=. destruct Hgood as (Hcalls & Hextra & Hgs).
    assert (Hp : pending s = 0) by (unfold pending; by rewrite Hpc).
    assert (Hlen : length (calls s) = length (gs s)).
    { destruct (length (gs s)) as [|k] eqn:Hk; [lia |].
      destruct (lookup_lt_is_Some_2 (gs s) k) as [g0 Hl]; [lia |].
      destruct (Hgs _ _ Hl) as ([_ H1] & _ & _ & H4 & H5).
      assert (Hsent : is_sent g0 = true) by (apply H1; lia).
      assert (Hst : g_pc g0 <> GStart).
      { intros Hst. unfold is_sent in Hsent. by rewrite Hst in Hsent. }
      apply H5, lookup_lt_Some in Hst. lia. }
    split_and!; simpl.
    + rewrite length_app. simpl. lia.
    + intros i c' Hi Hn. apply (Hextra i c' Hi).
      apply lookup_ge_None. apply lookup_ge_None in Hn.
      rewrite length_app in Hn. simpl in Hn. lia.
    + intros i g Hi. unfold good_goroutine, pending. simpl.
      rewrite length_app. simpl. rewrite Hifr.
      apply lookup_app_Some in Hi as [Hi | [Hge Hi]].
      * destruct (Hgs _ _ Hi) as (H1 & H2 & H3 & H4 & H5).
        rewrite Hp in H1. apply lookup_lt_Some in Hi as Hlt.
        split_and!; [split; [lia | intros _; apply H1; lia] | done | done | | done].
        intros Hst. assert (Hs : is_sent g = true) by (apply H1; lia).
        unfold is_sent in Hs. by rewrite Hst in Hs.
      * destruct (i - length (gs s)) as [|k] eqn:Hk; simplify_eq/=.
        assert (i = length (gs s)) as -> by lia.
        split_and!; [split; [done | lia] | done | | done | done].
        intros c' Hc'. apply (Hextra _ _ Hc'). by apply lookup_ge_None.
  - (* DSend *)
    assert (Hp : pending s = 1) by (unfold pending; by rewrite Hpc, Hifr).
    destruct (pending_1_lengths _ _ Hinv Hp) as (_ & Hv' & _ & Hlv' & _).
    destruct (values s) as [ch|] eqn:Hvs; [|done].
    destruct (vchans s !! ch) as [c|] eqn:Hc; [|done].
    destruct (vclosed c); simplify_eq/=.
    { apply (good_same s); try done. }
    destruct (_ <? _); simplify_eq/=.
    destruct Hgood as (Hcalls & Hextra & Hgs).
    assert (Hch : length (gs s) = S ch).
    { destruct (length (gs s)); by simplify_eq/=. }
    split_and!; simpl; [done | |].
    + intros i c' Hi Hn. apply lookup_ge_None in Hn.
      rewrite list_lookup_insert_ne in Hi by lia. apply (Hextra i c' Hi).
      by apply lookup_ge_None.
    + intros i g Hi. destruct (Hgs _ _ Hi) as (H1 & H2 & H3 & H4 & H5).
      unfold good_goroutine, pending in *. simpl. rewrite Hpc in *.
      split_and!; try done.
      intros c' Hc'. destruct (decide (i = ch)) as [->|Hne].
      * rewrite list_lookup_insert_eq in Hc' by (by eapply lookup_lt_Some).
        simplify_eq/=. rewrite app_assoc. f_equal. by apply H3.
      * rewrite list_lookup_insert_ne in Hc' by done. by apply H3.
  - done.
Qed.

(** A goroutine moves on, past the call and not across its send. *)
Lemma good_set_pc (s s' : state) (i : nat) (g : goroutine) (p : gpc) :
  good s -> gs s !! i = Some g ->
  gs s' = <[i := set_g_pc p g]> (gs s) -> vchans s' = vchans s ->
  calls s' = calls s -> pending s' = pending s ->
  g_pc g <> GStart -> p <> GStart -> is_sent (set_g_pc p g) = is_sent g ->
  match p with GReduce ch => ch = i | GSending d => d = i | _ => True end ->
  good s'.
Proof.
  intros (Hcalls & Hextra & Hgs) Hi Hg' Hv' Hc' Hp' Hst Hst' Hsent Hp2.
  unfold good, good_goroutine. rewrite Hg', Hv', Hc', Hp', length_insert.
  split_and!; [done | |].
  - intros j c Hj Hn. apply (Hextra j c Hj).
    apply lookup_ge_None. apply lookup_ge_None in Hn. by rewrite length_insert in Hn.
  - intros j gj Hj. destruct (decide (j = i)) as [->|Hne].
    + rewrite list_lookup_insert_eq in Hj by (by eapply lookup_lt_Some).
      simplify_eq. destruct (Hgs _ _ Hi) as (H1 & H2 & H3 & H4 & H5).
      rewrite Hsent. split_and!; try done. intros _. by apply H5.
    + rewrite list_lookup_insert_ne in Hj by done. by apply Hgs.
Qed.

Lemma good_go_step (input : string) (i : nat) (s s' : state) :
  go_step i s = Some s' -> driver_inv input s -> good s -> good s'.
Proof.
  intros Hstep Hinv Hgood. unfold go_step in Hstep.
  destruct (gs s !! i) as [g|] eqn:Hi; [|done].
  pose proof Hgood as (Hcalls & Hextra & Hgs).
  destruct (Hgs _ _ Hi) as (H1 & H2 & H3 & H4 & H5).
  destruct (g_pc g) as [|ch|d| |d|] eqn:Hgp.
  - (* the call of Reduce *)
    destruct (unsent_last _ _ _ Hgood Hi) as [Hp Hn];
      [unfold is_sent; by rewrite Hgp |].
    destruct (pending_1_lengths _ _ Hinv Hp) as (_ & Hv & _).
    rewrite Hn in Hv. simpl in Hv. rewrite Hv in Hstep. simplify_eq/=.
    specialize (H4 eq_refl).
    unfold good, good_goroutine, pending. simpl.
    rewrite length_insert, length_app. simpl. fold (pending s). rewrite Hp, Hn.
    split_and!; [lia | |].
    + intros j c Hj Hnone. apply (Hextra j c Hj).
      apply lookup_ge_None. apply lookup_ge_None in Hnone.
      by rewrite length_insert in Hnone.
    + intros j gj Hj. destruct (decide (j = i)) as [->|Hne].
      * rewrite list_lookup_insert_eq in Hj by (by eapply lookup_lt_Some).
        simplify_eq/=. split_and!; [split; [done | lia] | done | done | done |].
        intros _. by apply list_lookup_middle.
      * rewrite list_lookup_insert_ne in Hj by done.
        destruct (Hgs _ _ Hj) as (G1 & G2 & G3 & G4 & G5).
        rewrite Hp, Hn in G1.
        assert (Hsj : g_pc gj <> GStart).
        { intros Hst. destruct (unsent_last _ _ _ Hgood Hj) as [_ Hnj];
            [unfold is_sent; by rewrite Hst | lia]. }
        split_and!; [done | done | done | done |].
        intros _. apply lookup_app_l_Some. by apply G5.
  - (* Reduce receives *)
    subst ch. destruct (vchans s !! i) as [c|] eqn:Hc; [|done].
    destruct (vbuf c) as [|v buf'] eqn:Hb; simplify_eq/=.
    specialize (H3 c eq_refl). rewrite Hb in H3.
    unfold good, good_goroutine, pending. simpl.
    rewrite length_insert. fold (pending s).
    split_and!; [done | |].
    + intros j c' Hj Hnone. apply lookup_ge_None in Hnone.
      rewrite length_insert in Hnone. apply lookup_lt_Some in Hi as Hlt.
      rewrite list_lookup_insert_ne in Hj by lia.
      apply (Hextra j c' Hj). by apply lookup_ge_None.
    + intros j gj Hj. destruct (decide (j = i)) as [->|Hne].
      * rewrite list_lookup_insert_eq in Hj by (by eapply lookup_lt_Some).
        simplify_eq/=. unfold is_sent in *. simpl. rewrite Hgp in *.
        split_and!; [done | done | | done |].
        -- intros c' Hc'.
           rewrite list_lookup_insert_eq in Hc' by (by eapply lookup_lt_Some).
           simplify_eq/=. by rewrite <- app_assoc.
        -- intros _. by apply H5.
      * rewrite list_lookup_insert_ne in Hj by done.
        destruct (Hgs _ _ Hj) as (G1 & G2 & G3 & G4 & G5).
        split_and!; [done | done | | done | done].
        intros c' Hc'. rewrite list_lookup_insert_ne in Hc' by done. by apply G3.
  - (* the send *)
    destruct (dchans s !! d) as [[]|] eqn:Hd; simplify_eq/=.
    { by apply (good_same s). }
    destruct (d_pc s) as [|next'|next| | | | |] eqn:Hpc; try done.
    destruct (done s) as [d'|]; [|done].
    destruct (Nat.eqb _ d'); simplify_eq/=.
    destruct (unsent_last _ _ _ Hgood Hi) as [Hp Hn];
      [unfold is_sent; by rewrite Hgp |].
    unfold good, good_goroutine. simpl. rewrite length_insert.
    assert (Hp' : pending (set_pc (afterWait next)
                    (set_gs (<[i:=set_g_pc GSent g]> (gs s)) s)) = 0)
      by (unfold pending; by destruct next).
    rewrite Hp'.
    split_and!; [done | |].
    + intros j c' Hj Hnone. apply (Hextra j c' Hj).
      apply lookup_ge_None. apply lookup_ge_None in Hnone.
      by rewrite length_insert in Hnone.
    + intros j gj Hj. destruct (decide (j = i)) as [->|Hne].
      * rewrite list_lookup_insert_eq in Hj by (by eapply lookup_lt_Some).
        simplify_eq/=. split_and!; [split; [lia | done] | done | done | done |].
        intros _. by apply H5.
      * rewrite list_lookup_insert_ne in Hj by done.
        destruct (Hgs _ _ Hj) as (G1 & G2 & G3 & G4 & G5).
        apply lookup_lt_Some in Hj as Hlt. rewrite Hp in G1.
        split_and!; [| done | done | done | done].
        split; [lia | intros _; apply G1; lia].
  - (* the operand of close *)
    destruct (done s) as [d|]; simplify_eq/=.
    eapply (good_set_pc s _ i g (GClosing d)); try done.
    + by rewrite Hgp.
    + unfold is_sent. simpl. by rewrite Hgp.
  - (* close *)
    destruct (dchans s !! d) as [[]|] eqn:Hd; simplify_eq/=.
    { by apply (good_same s). }
    eapply (good_set_pc s _ i g GDone); try done.
    + by rewrite Hgp.
    + unfold is_sent. simpl. by rewrite Hgp.
  - done.
Qed.

Lemma good_ret_step (input : string) (i : nat) (s s' : state) :
  ret_step i s = Some s' -> driver_inv input s -> good s -> good s'.
Proof.
  intros Hstep Hinv Hgood. unfold ret_step in Hstep.
  destruct (gs s !! i) as [g|] eqn:Hi; [|done].
  destruct (g_pc g) eqn:Hgp; try done.
  destruct (unsent_last _ _ _ Hgood Hi) as [Hp Hn];
    [unfold is_sent; by rewrite Hgp |].
  destruct (pending_1_lengths _ _ Hinv Hp) as (_ & _ & Hd & _).
  rewrite Hn in Hd. simpl in Hd. rewrite Hd in Hstep. simplify_eq/=.
  eapply (good_set_pc s _ i g (GSending i)); try done.
  - by rewrite Hgp.
  - unfold is_sent. simpl. by rewrite Hgp.
Qed.

Lemma step_early (l : label) (s s' : state) :
  step l s = Some s' -> early s' = early s \/ early s' = S (early s).
Proof.
  unfold step. destruct (panicked s); [done |]. destruct l as [|i|i]; intros H.
  - unfold driver_step, closeValues in H.
    destruct (d_pc s); repeat case_match; simplify_eq/=; auto.
  - unfold go_step in H. repeat case_match; simplify_eq/=; auto.
  - unfold ret_step in H. repeat case_match; simplify_eq/=; auto.
Qed.

Lemma reaches_reducer_inv (input : string) (s : state) :
  reaches (init input) s -> reducer_inv input s.
Proof.
  apply reaches_ind_step.
  - split_and!; [apply driver_inv_init | done | intros _; apply good_init].
  - intros l s1 s2 _ (Hd & Hc & Hg) Hstep. split_and!.
    + by eapply step_driver_inv.
    + by eapply count_inv_step.
    + intros He. destruct (step_early _ _ _ Hstep) as [Heq | Heq]; [|lia].
      rewrite He in Heq. specialize (Hg (eq_sym Heq)).
      unfold step in Hstep. destruct (panicked s1); [done |].
      destruct l as [|i|i].
      * eapply good_driver_step; [done | done | done | lia].
      * by eapply good_go_step.
      * by eapply good_ret_step.
Qed.

(** In a run that ends well, no [<-done] returned early. *)
Lemma finished_no_early (input : string) (s : state) :
  reaches (init input) s -> finished s -> early s = 0.
Proof.
  intros Hr (Hpc & _ & Hall). destruct (reaches_reducer_inv _ _ Hr) as (_ & Hc & _).
  unfold count_inv, pending, sent_count in Hc. rewrite Hpc in Hc.
  assert (Hsum : sum_list (sent_weight <$> gs s) = length (gs s)).
  { clear -Hall. induction Hall as [|g l Hg _ IH]; [done |].
    rewrite fmap_cons. simpl. rewrite IH.
    unfold sent_weight, is_sent. by rewrite Hg. }
  lia.
Qed.

(** A run that ends well made the expected invocations, and every [Reduce]
    received, in order, values of its own group. *)
Lemma finished_invocations (input : string) (s : state) :
  reaches (init input) s -> finished s ->
  invocations s = expected input
  /\ (forall i g, gs s !! i = Some g ->
        exists k sk vs, invocations s !! i = Some (k, sk, vs)
                        /\ exists rest, vs = g_got g ++ rest).
Proof.
  intros Hr Hfin. pose proof (finished_no_early _ _ Hr Hfin) as He.
  destruct (reaches_reducer_inv _ _ Hr) as (Hd & _ & Hg).
  destruct (Hg He) as (Hcalls & _ & Hgs). clear Hg.
  destruct Hfin as (Hpc & _ & Hall).
  destruct Hd as (processed & _ & _ & _ & Hat). unfold driver_at in Hat.
  rewrite Hpc in Hat. destruct Hat as (<- & Hf & Hh & _).
  rewrite app_nil_r in Hh. unfold firsts, hists in *.
  assert (Hlook : forall i g, gs s !! i = Some g ->
            exists vs c, groups (records input) !! i = Some (g_mkv g, vs)
                         /\ vchans s !! i = Some c /\ vhist c = vs
                         /\ calls s !! i = Some (call_of i g)
                         /\ g_got g ++ vbuf c = vhist c).
  { intros i g Hi. destruct (Hgs _ _ Hi) as (_ & _ & H3 & _ & H5).
    assert (Hfi : (groups (records input)).*1 !! i = Some (g_mkv g))
      by (by rewrite <- Hf, list_lookup_fmap, Hi).
    rewrite list_lookup_fmap in Hfi.
    destruct (groups (records input) !! i) as [[f vs]|] eqn:HG; simplify_eq/=.
    assert (Hhi : (groups (records input)).*2 !! i = Some vs)
      by (by rewrite list_lookup_fmap, HG).
    rewrite <- Hh, list_lookup_fmap in Hhi.
    destruct (vchans s !! i) as [c|] eqn:Hc; simplify_eq/=.
    exists (vhist c), c. split_and!; try done.
    - apply H5. rewrite Forall_forall in Hall.
      rewrite (Hall g); [done |]. by eapply list_elem_of_lookup_2.
    - by apply H3. }
  split.
  - apply list_eq. intros i. unfold invocations, expected.
    rewrite !list_lookup_fmap.
    destruct (gs s !! i) as [g|] eqn:Hi.
    + destruct (Hlook _ _ Hi) as (vs & c & HG & Hc & Hv & Hcall & _).
      rewrite Hcall, HG. simpl. rewrite Hc. simpl. by rewrite Hv.
    + apply lookup_ge_None in Hi.
      rewrite (proj2 (lookup_ge_None (calls s) i)) by lia.
      rewrite (proj2 (lookup_ge_None (groups (records input)) i)); [done |].
      apply (f_equal length) in Hf. rewrite !length_fmap in Hf. lia.
  - intros i g Hi. destruct (Hlook _ _ Hi) as (vs & c & HG & Hc & Hv & Hcall & Hgot).
    exists (ReduceKey (g_mkv g)), (SortKey (g_mkv g)), vs. split.
    + unfold invocations. rewrite list_lookup_fmap, Hcall. simpl. rewrite Hc. simpl. by rewrite Hv.
    + exists (vbuf c). by rewrite Hgot.
Qed.

(** The first record of the list starts the first group. *)
Lemma groups_head (r : KeyValue) (rs : list KeyValue) :
  exists vs G, groups (r :: rs) = (r, vs) :: G.
Proof.
  simpl. destruct (groups rs) as [|[r' vs] G]; [by eexists _, _ |].
  destruct (String.eqb _ _); by eexists _, _.
Qed.

(** [groups], in the words of the spec: records with the reduceKey of [r]
    that follow [r], up to the first record with another reduceKey, make one
    group with [r]; the group is given by its first record [r] and by the
    values of its records, in their order. *)
Lemma groups_run (r : KeyValue) (same rest : list KeyValue) :
  Forall (fun x => ReduceKey x = ReduceKey r) same ->
  match rest with [] => True | y :: _ => ReduceKey y <> ReduceKey r end ->
  groups (r :: same ++ rest) = (r, Value <$> (r :: same)) :: groups rest.
Proof.
  revert r. induction same as [|x same IH]; intros r Hsame Hrest.
  - simpl app. destruct rest as [|y rest]; [reflexivity |].
    destruct (groups_head y rest) as (vs & G & HG).
    cbn [groups]. cbn [groups] in HG. rewrite HG.
    destruct (String.eqb (ReduceKey r) (ReduceKey y)) eqn:Hk; [|reflexivity].
    apply String.eqb_eq in Hk. congruence.
  - inversion Hsame as [|? ? Hx Hsame']; subst.
    change (groups (r :: (x :: same) ++ rest))
      with (match groups (x :: same ++ rest) with
            | (r', vs) :: gr' =>
                if String.eqb (ReduceKey r) (ReduceKey r')
                then (r, Value r :: vs) :: gr'
                else (r, [Value r]) :: (r', vs) :: gr'
            | [] => [(r, [Value r])]
            end).
    rewrite (IH x).
    + rewrite Hx, String.eqb_refl. reflexivity.
    + eapply Forall_impl; [exact Hsame' |]. simpl. congruence.
    + destruct rest; [done | congruence].
Qed.

Lemma reaches_refl (s : state) : reaches s s.
Proof. by exists []. Qed.

Lemma reaches_run (sched : list label) (s s' : state) :
  run sched s = Some s' -> reaches s s'.
Proof. intros H. by exists sched. Qed.

Lemma finished_groups_aabbbc (input : string) (s : state) :
  ReduceKey <$> records input = ["a"; "a"; "b"; "b"; "b"; "c"] ->
  reaches (init input) s -> finished s ->
  (fun inv : string * string * list string => (inv.1.1, length inv.2))
    <$> invocations s
  = [("a", 2); ("b", 3); ("c", 1)].
Proof.
  intros Hkeys Hr Hfin.
  destruct (finished_invocations _ _ Hr Hfin) as [-> _]. unfold expected.
  destruct (records input) as [|r1 [|r2 [|r3 [|r4 [|r5 [|r6 [|r7 rs]]]]]]];
    try discriminate.
  injection Hkeys as H1 H2 H3 H4 H5 H6.
  change [r1; r2; r3; r4; r5; r6] with (r1 :: [r2] ++ r3 :: [r4; r5] ++ r6 :: [] ++ []).
  rewrite (groups_run r1 [r2]), (groups_run r3 [r4; r5]), (groups_run r6 [] []).
  - simpl. by rewrite H1, H3, H6.
  - done.
  - done.
  - repeat constructor; congruence.
  - rewrite H3, H6. discriminate.
  - repeat constructor; congruence.
  - rewrite H1, H3. discriminate.
Qed.

Lemma finished_values_in_order (input : string) (s : state) :
  reaches (init input) s -> finished s ->
  (invocations s).*2 = (groups (records input)).*2
  /\ concat (invocations s).*2 = Value <$> records input
  /\ forall i g, gs s !! i = Some g ->
       exists k sk vs, invocations s !! i = Some (k, sk, vs)
                       /\ exists rest, vs = g_got g ++ rest.
Proof.
  intros Hr Hfin. destruct (finished_invocations _ _ Hr Hfin) as [Hinv Hgot].
  assert (Hs : (invocations s).*2 = (groups (records input)).*2).
  { rewrite Hinv. unfold expected. rewrite <- list_fmap_compose.
    by apply list_fmap_ext. }
  split_and!; [done | | done]. rewrite Hs. apply groups_concat.
Qed.

Lemma finished_sortKey_of_first_record (input : string) (s : state) :
  reaches (init input) s -> finished s ->
  (fun inv : string * string * list string => (inv.1.1, inv.1.2)) <$> invocations s
  = (fun g : KeyValue * list string => (ReduceKey g.1, SortKey g.1))
      <$> groups (records input).
Proof.
  intros Hr Hfin. destruct (finished_invocations _ _ Hr Hfin) as [-> _].
  unfold expected. rewrite <- list_fmap_compose. by apply list_fmap_ext.
Qed.

(* --------------------------------------------------------------------- *)
(** ** Runs                                                               *)
(* --------------------------------------------------------------------- *)

(* --------------------------------------------------------------------- *)
(** ** One invocation at a time?                                          *)
(* --------------------------------------------------------------------- *)

Lemma filter_none {A} (P : A -> Prop) `{forall x, Decision (P x)} (l : list A) :
  Forall (fun x => ~ P x) l -> filter P l = [].
Proof.
  induction 1 as [|x l Hx _ IH]; [done |].
  rewrite filter_cons. by destruct (decide (P x)).
Qed.

Lemma filter_last_only {A} (P : A -> Prop) `{forall x, Decision (P x)} (l : list A) :
  (forall i x, l !! i = Some x -> P x -> S i = length l) ->
  length (filter P l) <= 1.
Proof.
  destruct l as [|x l _] using rev_ind; [simpl; lia |]. intros Hl.
  rewrite filter_app, length_app.
  assert (Hnil : filter P l = []).
  { apply filter_none, Forall_forall. intros y Hy HP.
    apply list_elem_of_lookup in Hy as [i Hi].
    assert (Hlt := lookup_lt_Some _ _ _ Hi).
    specialize (Hl i y). rewrite lookup_app_l in Hl by done.
    specialize (Hl Hi HP). rewrite length_app in Hl. simpl in Hl. lia. }
  rewrite Hnil, filter_cons, filter_nil. simpl.
  destruct (decide (P x)); simpl; lia.
Qed.

(** As long as no [<-done] has returned early, at most one invocation of
    [mrjob.Reduce] is active. *)
Lemma at_most_one_active (input : string) (s : state) :
  reaches (init input) s -> early s = 0 -> activeReduces s <= 1.
Proof.
  intros Hr He. destruct (reaches_reducer_inv _ _ Hr) as (_ & _ & Hg).
  specialize (Hg He). unfold activeReduces. apply filter_last_only.
  intros i g Hi Hin. destruct (unsent_last _ _ _ Hg Hi) as [_ Hn]; [|done].
  unfold inReduce, is_sent in *. by destruct (g_pc g).
Qed.

(** C4 fails on the code: on the input with the groups a, b and c there is a
    run, without any panic, in which the invocations of [mrjob.Reduce] for b
    and for c are active together: the [<-done] before group c has returned
    without the invocation for b having ended. *)
Theorem reducer_two_active :
  exists s, run sched_overlap (init input_abc) = Some s
            /\ panicked s = None
            /\ activeReduces s = 2
            /\ early s = 1
            /\ (g_pc <$> gs s) = [GDone; GReduce 1; GReduce 2].
Proof. eexists. split; [vm_compute; reflexivity |]. repeat split. Qed.

(** C1 fails on the code: on the input with the reduceKeys a, a, b, b, b, c
    there is a run in which [reducer] returns, without any panic, having
    invoked [mrjob.Reduce] for a, b and c on streams of 2, 1 and 1 values:
    the invocation for b was handed the channel of group c. *)
Theorem reducer_aabbbc_streams_2_1_1 :
  ReduceKey <$> records input_aabbbc = ["a"; "a"; "b"; "b"; "b"; "c"]
  /\ exists s, run sched_late_start (init input_aabbbc) = Some s
               /\ d_pc s = DReturned
               /\ panicked s = None
               /\ (fun inv : string * string * list string => (inv.1.1, length inv.2))
                    <$> invocations s
                  = [("a", 2); ("b", 1); ("c", 1)].
Proof.
  split; [vm_compute; reflexivity |].
  eexists. split; [vm_compute; reflexivity |]. repeat split.
Qed.

(** C3 fails on the code: on the same input there is a run in which
    [reducer] returns, without any panic, and the values of group b are
    dropped while the [Reduce] of group b receives the value of group c: the
    three values of group b stay in the buffer of a channel that no
    invocation was handed, and the invocations for b and for c share the
    channel of group c. *)
Theorem reducer_values_to_other_group :
  exists s, run sched_late_start (init input_aabbbc) = Some s
            /\ d_pc s = DReturned
            /\ panicked s = None
            /\ (groups (records input_aabbbc)).*2 = [["v1"; "v2"]; ["v3"; "v4"; "v5"]; ["v6"]]
            /\ calls s = [("a", "s1", 0); ("b", "s3", 2); ("c", "", 2)]
            /\ (fun g => (ReduceKey (g_mkv g), g_got g)) <$> gs s
               = [("a", ["v1"; "v2"]); ("b", ["v6"]); ("c", [])]
            /\ vbuf <$> vchans s = [[]; ["v3"; "v4"; "v5"]; []].
Proof.
  eexists. split; [vm_compute; reflexivity |]. repeat split.
Qed.

(** C7 fails on the code: on the input with the groups a and b there is a
    run in which [reducer] returns, without any panic, having invoked
    [mrjob.Reduce] for group a only: the last [<-done] returns on a channel
    that the goroutine of group a has closed, while the goroutine of group b
    has not run yet. *)
Theorem reducer_returns_before_last_Reduce :
  exists s, run sched_not_invoked (init input_ab) = Some s
            /\ d_pc s = DReturned
            /\ panicked s = None
            /\ (fun g : KeyValue * list string => (ReduceKey g.1, SortKey g.1))
                 <$> groups (records input_ab)
               = [("a", "s1"); ("b", "s2")]
            /\ (fun inv : string * string * list string => (inv.1.1, inv.1.2))
                 <$> invocations s
               = [("a", "s1")]
            /\ g_pc <$> gs s = [GDone; GStart].
Proof.
  eexists. split; [vm_compute; reflexivity |]. repeat split.
Qed.

(** C5 fails on the code: on the empty input the driver leaves the loop at
    once and panics in [close(values)], [values] being the nil channel. *)
Theorem reducer_empty_input_panics :
  run [LDriver; LDriver] (init "")
  = Some (panic "close of nil channel" (set_pc (DClose None) (init "")))
  /\ step LDriver (init "") = Some (set_pc (DClose None) (init ""))
  /\ records "" = [].
Proof. repeat split. Qed.

(** On the empty input no run of [reducer] returns. *)
Lemma reducer_empty_input_never_returns (s : state) :
  reaches (init "") s -> d_pc s <> DReturned.
Proof.
  intros Hr.
  assert (H : s = init "" \/ s = set_pc (DClose None) (init "")
              \/ s = panic "close of nil channel" (set_pc (DClose None) (init ""))).
  { revert s Hr. apply reaches_ind_step; [by left |].
    intros l s1 s2 _ Hs Hstep.
    destruct Hs as [-> | [-> | ->]]; destruct l as [|[|i]|[|i]];
      vm_compute in Hstep; try discriminate;
      injection Hstep as <-; auto. }
  by destruct H as [-> | [-> | ->]].
Qed.

(* --------------------------------------------------------------------- *)
(** ** A last line without newline                                        *)
(* --------------------------------------------------------------------- *)

Lemma splitAt_occurs (d : ascii) (s : string) :
  splitAt d s = None <-> occurs d s = false.
Proof.
  split; [|apply splitAt_none].
  induction s as [|c s IH]; simpl; [done |].
  destruct (Ascii.eqb c d); [done |].
  destruct (splitAt d s) as [[p r]|]; [done |]. intros _. by apply IH.
Qed.

Lemma splitAt_append_l (d : ascii) (s t p r : string) :
  splitAt d s = Some (p, r) -> splitAt d (s +:+ t) = Some (p, r +:+ t).
Proof.
  intros H. destruct (splitAt_some _ _ _ _ H) as (q & -> & -> & Hq).
  rewrite append_assoc. simpl. by apply splitAt_append.
Qed.

(** When the delimiter is found, but not in [s], what is left is the end of
    [t]. *)
Lemma splitAt_append_r (d : ascii) (s t p r : string) :
  splitAt d s = None -> splitAt d (s +:+ t) = Some (p, r) ->
  exists q, t = q +:+ String d r.
Proof.
  revert p. induction s as [|c s IH]; simpl; intros p Hs Ht.
  - destruct (splitAt_some _ _ _ _ Ht) as (q & _ & -> & _). by exists q.
  - destruct (Ascii.eqb c d); [done |].
    destruct (splitAt d s) as [[p' r']|] eqn:Hs'; [done |].
    destruct (splitAt d (s +:+ t)) as [[p' r']|] eqn:Ht'; [|done].
    simplify_eq. by eapply IH.
Qed.

Lemma newlineFree_append (a b : string) :
  newlineFree (a +:+ b) <-> newlineFree a /\ newlineFree b.
Proof. unfold newlineFree. rewrite occurs_append. apply orb_false_iff. Qed.

(** Both readers fail on a reader that holds no newline. *)
Lemma readLineValue_partial (p : string) :
  newlineFree p -> readLineValue p = (Err EOF, "").
Proof.
  intros Hp. unfold readLineValue, ReadString.
  by rewrite (splitAt_none _ _ Hp).
Qed.

Lemma readLineKeyValue_partial (p : string) :
  newlineFree p -> exists e br', readLineKeyValue p = (Err e, br').
Proof.
  intros Hp. unfold readLineKeyValue, ReadString.
  destruct (splitAt TAB p) as [[k rest]|] eqn:Hk; [|by eexists _, _].
  destruct (splitAt_some _ _ _ _ Hk) as (q & _ & -> & _).
  apply newlineFree_append in Hp as [_ Hp]. unfold newlineFree in Hp.
  simpl in Hp.
  destruct (QueryUnescape _); [|by eexists _, _].
  destruct (if Nat.eqb _ 2 then _ else _); [|by eexists _, _].
  rewrite (splitAt_none _ _ Hp). by eexists _, _.
Qed.

(** What [readLineKeyValue] does on [s] followed by bytes without newline. *)
Lemma readLineKeyValue_append (s p : string) :
  newlineFree p ->
  match readLineKeyValue s with
  | (Ok kv, br') => readLineKeyValue (s +:+ p) = (Ok kv, br' +:+ p)
  | (Err _, _) => exists e br', readLineKeyValue (s +:+ p) = (Err e, br')
  end.
Proof.
  intros Hp. unfold readLineKeyValue, ReadString.
  destruct (splitAt TAB s) as [[k rest]|] eqn:Hk.
  - rewrite (splitAt_append_l _ _ p _ _ Hk).
    destruct (QueryUnescape _); [|by eexists _, _].
    destruct (if Nat.eqb _ 2 then _ else _); [|by eexists _, _].
    destruct (splitAt NL rest) as [[v rest']|] eqn:Hv.
    + by rewrite (splitAt_append_l _ _ p _ _ Hv).
    + apply splitAt_occurs in Hv.
      assert (Hn : newlineFree (rest +:+ p)) by (by apply newlineFree_append).
      rewrite (splitAt_none _ _ Hn). by eexists _, _.
  - destruct (splitAt TAB (s +:+ p)) as [[k rest]|] eqn:Hk'; [|by eexists _, _].
    destruct (splitAt_append_r _ _ _ _ _ Hk Hk') as (q & ->).
    apply newlineFree_append in Hp as [_ Hp]. unfold newlineFree in Hp.
    simpl in Hp.
    destruct (QueryUnescape _); [|by eexists _, _].
    destruct (if Nat.eqb _ 2 then _ else _); [|by eexists _, _].
    rewrite (splitAt_none _ _ Hp). by eexists _, _.
Qed.

(** The reduce driver reads the same records whether or not the input goes
    on with bytes without newline. *)
Lemma records_partial (s p : string) :
  newlineFree p -> records (s +:+ p) = records s.
Proof.
  intros Hp. remember (String.length s) as n eqn:Hn.
  revert s Hn. induction n as [n IH] using lt_wf_ind. intros s ->.
  rewrite (records_unfold (s +:+ p)), (records_unfold s).
  pose proof (readLineKeyValue_append s p Hp) as Ha.
  destruct (readLineKeyValue s) as [[kv|e] br'] eqn:Hr.
  - rewrite Ha. f_equal. apply readLineKeyValue_length in Hr.
    by eapply IH.
  - by destruct Ha as (e' & br'' & ->).
Qed.

Lemma mapper_loop_enough {World} `{MapJob World} (n m : nat) (br : string) (w : World) :
  String.length br < n -> String.length br < m ->
  mapper_loop n br w = mapper_loop m br w.
Proof.
  revert m br w. induction n as [|n IH]; intros m br w Hn Hm; [lia |].
  destruct m as [|m]; [lia |]. simpl.
  destruct (readLineValue br) as [[kv|e] br'] eqn:Hr; [|done].
  apply readLineValue_length in Hr. apply IH; lia.
Qed.

Lemma mapper_loop_S {World} `{MapJob World} (n : nat) (br : string) (w : World) :
  mapper_loop (S n) br w
  = match readLineValue br with
    | (Err _, _) => Some w
    | (Ok kv, br') => mapper_loop n br' (Map "" (Value kv) w)
    end.
Proof. reflexivity. Qed.

(** [mapper], turn by turn. *)
Lemma mapper_unfold {World} `{MapJob World} (br : string) (w : World) :
  mapper br w
  = match readLineValue br with
    | (Ok kv, br') => mapper br' (Map "" (Value kv) w)
    | (Err _, _) => Some w
    end.
Proof.
  unfold mapper. rewrite (mapper_loop_S (String.length br) br w).
  destruct (readLineValue br) as [[kv|e] br'] eqn:Hr; [|done].
  apply readLineValue_length in Hr. apply mapper_loop_enough; lia.
Qed.

(** [mapper] returns. *)
Lemma mapper_total {World} `{MapJob World} (br : string) (w : World) :
  exists w', mapper br w = Some w'.
Proof.
  remember (String.length br) as n eqn:Hn.
  revert br w Hn. induction n as [n IH] using lt_wf_ind. intros br w ->.
  rewrite mapper_unfold.
  destruct (readLineValue br) as [[kv|e] br'] eqn:Hr; [|by eexists].
  apply readLineValue_length in Hr. by eapply IH.
Qed.

(** [mapper] calls [Map] for every line that ends in a newline, and for
    nothing else. *)
Lemma mapper_lines {World} `{MapJob World} (ls : list string) (p : string) (w : World) :
  Forall newlineFree ls -> newlineFree p ->
  mapper (unlines ls +:+ p) w = Some (fold_left (fun w l => Map "" l w) ls w).
Proof.
  intros Hls Hp. revert w. induction Hls as [|l ls Hl _ IH]; intros w.
  - rewrite mapper_unfold. simpl. by rewrite readLineValue_partial.
  - rewrite mapper_unfold. simpl unlines.
    rewrite append_assoc. simpl.
    unfold readLineValue, ReadString.
    rewrite (splitAt_append NL _ _ Hl), (TrimRight_delim NL _ Hl).
    simpl. apply IH.
Qed.

(** What the driver has sent is the values of the first records of the
    input, in their order. *)
Lemma reaches_sent (input : string) (s : state) :
  reaches (init input) s ->
  exists processed rest,
    records input = processed ++ rest /\ concat (hists s) = Value <$> processed.
Proof.
  intros Hr. destruct (reaches_driver_inv _ _ Hr) as (processed & _ & _ & _ & Hat).
  exists processed.
  assert (Hshape : forall ev ed, shape s (groups processed) ev ed -> concat ev = [] ->
            concat (hists s) = Value <$> processed).
  { intros ev ed (_ & Hh & _) Hev.
    by rewrite Hh, concat_app, groups_concat, Hev, app_nil_r. }
  unfold driver_at in Hat.
  destruct (d_pc s) as [|[mkv|]|[mkv|]|mkv|mkv|mkv|mkv|].
  - destruct Hat as (Hrec & Hs & _). eauto.
  - destruct Hat as (Hrec & Hs & _). eauto.
  - destruct Hat as (Hrec & Hs). exists []. rewrite app_nil_r. eauto.
  - destruct Hat as (Hrec & Hs & _). eauto.
  - destruct Hat as (Hrec & Hs). exists []. rewrite app_nil_r. eauto.
  - destruct Hat as (Hrec & Hs & _). eauto.
  - destruct Hat as (Hrec & Hs & _). eauto.
  - destruct Hat as (Hrec & Hs & _). eauto.
  - destruct Hat as (Hrec & _ & _ & _ & (hs & h & Hh & HG) & _).
    eexists; split; [exact Hrec |].
    pose proof (groups_concat (processed ++ [mkv])) as Hc.
    rewrite HG, fmap_app, concat_app in Hc. simpl in Hc.
    rewrite app_nil_r, app_assoc in Hc. apply app_inj_tail in Hc as [Hc _].
    rewrite Hh, concat_app. simpl. by rewrite app_nil_r.
  - destruct Hat as (Hrec & Hs). exists []. rewrite app_nil_r. eauto.
Qed.

(** C10. On an input that ends in a line [p] without newline, both line
    readers give an error when they come to [p]; [mapper] calls [Map] for the
    lines before [p] and not for [p]; and what [reducer] sends to the streams
    of its [Reduce] invocations are values of the records of the input
    without [p], in their order. *)
Theorem unterminated_last_line (p : string) :
  newlineFree p ->
  readLineValue p = (Err EOF, "")
  /\ (exists e br', readLineKeyValue p = (Err e, br'))
  /\ (forall ls, Forall newlineFree ls ->
        mapper (unlines ls +:+ p) ([] : list JobCall) = Some (CallMap "" <$> ls))
  /\ (forall s, records (s +:+ p) = records s)
  /\ (forall s st, reaches (init (s +:+ p)) st ->
        exists processed rest,
          records s = processed ++ rest /\ concat (hists st) = Value <$> processed).
Proof.
  intros Hp. split_and!.
  - by apply readLineValue_partial.
  - by apply readLineKeyValue_partial.
  - intros ls Hls. rewrite (mapper_lines ls p [] Hls Hp). f_equal.
    change (CallMap "" <$> ls) with ([] ++ (CallMap "" <$> ls)).
    generalize ([] : list JobCall). clear Hls.
    induction ls as [|l ls IH]; intros w; simpl; [by rewrite app_nil_r |].
    rewrite IH, <- app_assoc. done.
  - intros s. by apply records_partial.
  - intros s st Hr. rewrite <- (records_partial s p Hp). by apply reaches_sent.
Qed.

Lemma unterminated_last_line_witness :
  readLineValue "k	v" = (Err EOF, "")
  /\ (exists e br', readLineKeyValue "k	v" = (Err e, br'))
  /\ (forall ls, Forall newlineFree ls ->
        mapper (unlines ls +:+ "k	v") ([] : list JobCall) = Some (CallMap "" <$> ls))
  /\ (forall s, records (s +:+ "k	v") = records s)
  /\ (forall s st, reaches (init (s +:+ "k	v")) st ->
        exists processed rest,
          records s = processed ++ rest /\ concat (hists st) = Value <$> processed).
Proof. apply (unterminated_last_line "k	v"). reflexivity. Defined.

(* --------------------------------------------------------------------- *)
(** ** Every input with a record has a run that ends well                  *)
(* --------------------------------------------------------------------- *)

Lemma lookup_snoc {A} (l : list A) (x : A) (i : nat) :
  length l = i -> (l ++ [x]) !! i = Some x.
Proof. intros <-. by apply list_lookup_middle. Qed.

Lemma insert_snoc {A} (l : list A) (x y : A) (i : nat) :
  length l = i -> <[i := y]> (l ++ [x]) = l ++ [y].
Proof.
  intros <-. rewrite insert_app_r_alt by done. by rewrite Nat.sub_diag.
Qed.

Lemma run_cons (l : label) (sched : list label) (s s' : state) :
  step l s = Some s' -> run (l :: sched) s = run sched s'.
Proof. intros H. simpl. by rewrite H. Qed.

(** One step on a state whose lists end in the current group. *)
Ltac step_tac :=
  unfold step; simpl; unfold driver_step, go_step, ret_step, closeValues; simpl;
  repeat (first [ rewrite lookup_snoc by done
                | rewrite insert_snoc by done
                | rewrite Nat.eqb_refl
                | rewrite String.eqb_refl
                | progress simpl ]);
  reflexivity.

Ltac run_tac := repeat (erewrite run_cons by step_tac); reflexivity.

Section Runs.

Context (br br' k : string) (i : nat) (vcs : list vchan) (dcs : list bool)
  (gs0 : list goroutine) (h : list string) (mkv : KeyValue) (got : list string)
  (cl : list ReduceCall).
Context (Hv : length vcs = i) (Hd : length dcs = i) (Hg : length gs0 = i).

Lemma run_same (r : KeyValue) :
  readLineKeyValue br = (Ok r, br') -> k = ReduceKey r ->
  run (sched_same i) (quiet br k i vcs dcs gs0 h mkv got cl)
  = Some (quiet br' k i vcs dcs gs0 (h ++ [Value r]) mkv (got ++ [Value r]) cl).
Proof.
  intros Hr ->. unfold sched_same, quiet.
  erewrite run_cons
    by (unfold step, driver_step; simpl; rewrite Hr; simpl;
        rewrite String.eqb_refl; reflexivity).
  run_tac.
Qed.

Lemma run_close_end (e : error) :
  readLineKeyValue br = (Err e, br') ->
  run (sched_close i) (quiet br k i vcs dcs gs0 h mkv got cl)
  = Some (closed DReturned br' k i vcs dcs gs0 h mkv got cl).
Proof.
  intros Hr. unfold sched_close, quiet, closed.
  erewrite run_cons by (unfold step, driver_step; simpl; rewrite Hr; reflexivity).
  run_tac.
Qed.

Lemma run_close_new (r : KeyValue) :
  readLineKeyValue br = (Ok r, br') -> String.eqb k (ReduceKey r) = false ->
  run (sched_close i) (quiet br k i vcs dcs gs0 h mkv got cl)
  = Some (closed (DMakeValues r) br' k i vcs dcs gs0 h mkv got cl).
Proof.
  intros Hr Hk. unfold sched_close, quiet, closed.
  erewrite run_cons
    by (unfold step, driver_step; simpl; rewrite Hr; simpl; rewrite Hk; reflexivity).
  run_tac.
Qed.

(** The next group is started and its first value sent and received. *)
Lemma run_start (r : KeyValue) :
  run [LDriver; LDriver; LDriver; LGo (S i); LDriver; LGo (S i)]
      (closed (DMakeValues r) br' k i vcs dcs gs0 h mkv got cl)
  = Some (quiet br' (ReduceKey r) (S i)
            (vcs ++ [mkVchan [] true h]) (dcs ++ [true])
            (gs0 ++ [mkGoroutine mkv GDone got]) [Value r] r [Value r]
            (cl ++ [(ReduceKey r, SortKey r, S i)])).
Proof.
  assert (Hv' : length (vcs ++ [mkVchan [] true h]) = S i)
    by (rewrite length_app; simpl; lia).
  assert (Hd' : length (dcs ++ [true]) = S i) by (rewrite length_app; simpl; lia).
  assert (Hg' : length (gs0 ++ [mkGoroutine mkv GDone got]) = S i)
    by (rewrite length_app; simpl; lia).
  unfold closed, quiet.
  erewrite run_cons by (unfold step, driver_step; simpl; rewrite Hv'; reflexivity).
  erewrite run_cons by (unfold step, driver_step; simpl; rewrite Hd'; reflexivity).
  run_tac.
Qed.

End Runs.

Lemma run_first (input br' : string) (r : KeyValue) :
  readLineKeyValue input = (Ok r, br') ->
  run sched_first (init input)
  = Some (quiet br' (ReduceKey r) 0 [] [] [] [Value r] r [Value r]
            [(ReduceKey r, SortKey r, 0)]).
Proof.
  intros Hr. unfold sched_first, init, quiet.
  erewrite run_cons
    by (unfold step, driver_step; simpl; rewrite Hr; simpl;
        rewrite orb_true_r; reflexivity).
  run_tac.
Qed.

Lemma closed_finished (br k : string) (i : nat) (vcs : list vchan) (dcs : list bool)
    (gs0 : list goroutine) (h : list string) (mkv : KeyValue) (got : list string)
    (cl : list ReduceCall) :
  Forall (fun g => g_pc g = GDone) gs0 ->
  finished (closed DReturned br k i vcs dcs gs0 h mkv got cl).
Proof.
  intros Hall. split_and!; [done | done |]. simpl.
  apply Forall_app. split; [done | by repeat constructor].
Qed.

(** From a quiet state the schedule leads to the end. *)
Lemma run_rest (rs : list KeyValue) :
  forall br k i vcs dcs gs0 h mkv got cl,
    records br = rs ->
    length vcs = i -> length dcs = i -> length gs0 = i ->
    Forall (fun g => g_pc g = GDone) gs0 ->
    exists s, run (sched_rest i k rs) (quiet br k i vcs dcs gs0 h mkv got cl) = Some s
              /\ finished s.
Proof.
  induction rs as [|r rs IH]; intros br k i vcs dcs gs0 h mkv got cl Hrec Hv Hd Hg Hall.
  - rewrite records_unfold in Hrec.
    destruct (readLineKeyValue br) as [[r|e] br'] eqn:Hr; [done |].
    eexists. split; [by eapply run_close_end |]. by apply closed_finished.
  - rewrite records_unfold in Hrec.
    destruct (readLineKeyValue br) as [[r'|e] br'] eqn:Hr; [|done].
    injection Hrec as -> Hrec. cbn [sched_rest].
    destruct (String.eqb k (ReduceKey r)) eqn:Hk.
    + apply String.eqb_eq in Hk. rewrite run_app.
      rewrite (run_same br br' k i vcs dcs gs0 h mkv got cl Hv Hg r Hr Hk).
      by apply IH.
    + unfold sched_new. rewrite <- app_assoc, run_app.
      rewrite (run_close_new br br' k i vcs dcs gs0 h mkv got cl Hv Hd Hg r Hr Hk).
      rewrite run_app.
      rewrite (run_start br' k i vcs dcs gs0 h mkv got cl Hv Hd Hg r).
      apply IH; try done; try (rewrite length_app; simpl; lia).
      apply Forall_app. split; [done | by repeat constructor].
Qed.

(** On every input with at least one record, [reducer] has a run that ends
    well: the one of the schedule [sched_of]. *)
Lemma final_finished (input : string) :
  records input <> [] ->
  reaches (init input) (final input) /\ finished (final input).
Proof.
  intros Hne. unfold final.
  destruct (records input) as [|r rs] eqn:Hrec; [done |].
  rewrite records_unfold in Hrec.
  destruct (readLineKeyValue input) as [[r'|e] br'] eqn:Hr; [|done].
  injection Hrec as -> Hrec. cbn [sched_of].
  rewrite run_app, (run_first _ _ _ Hr).
  destruct (run_rest rs br' (ReduceKey r) 0 [] [] [] [Value r] r [Value r]
              [(ReduceKey r, SortKey r, 0)] Hrec eq_refl eq_refl eq_refl)
    as (s & Hrun & Hfin); [done |].
  rewrite Hrun. simpl. split; [|done].
  exists (sched_first ++ sched_rest 0 (ReduceKey r) rs).
  by rewrite run_app, (run_first _ _ _ Hr).
Qed.

(* --------------------------------------------------------------------- *)
(** ** The invocations of a run that ends well                            *)
(* --------------------------------------------------------------------- *)

(** Grouping, on the runs that end well.  On an input whose records carry
    the reduceKeys a, a, b, b, b, c, [reducer] has a run that ends well, and
    every run that ends well has made exactly three invocations of
    [mrjob.Reduce], for a, b and c in this order, on streams of 2, 3 and 1
    values.  (A run in which the driver returns need not end well: see
    the schedule [sched_late_start].) *)
Theorem reducer_groups_aabbbc (input : string) :
  ReduceKey <$> records input = ["a"; "a"; "b"; "b"; "b"; "c"] ->
  (exists s, reaches (init input) s /\ finished s)
  /\ forall s, reaches (init input) s -> finished s ->
       (fun inv : string * string * list string => (inv.1.1, length inv.2))
         <$> invocations s
       = [("a", 2); ("b", 3); ("c", 1)].
Proof.
  intros Hkeys. split.
  - exists (final input). apply final_finished. intros Hnil. by rewrite Hnil in Hkeys.
  - intros s. by apply finished_groups_aabbbc.
Qed.

(** The order of the values, on the runs that end well.  On an input with a
    record, [reducer] has a run that ends well.  In every run that ends
    well, the streams of the invocations carry the values of the groups,
    group by group, in the order of the records: put end to end they are the
    values of the records, so that no value is dropped, doubled or sent to
    another group's stream; and what the [Reduce] of a group has received is
    the beginning of its stream.  (A run in which the driver returns need
    not end well: see the schedule [sched_late_start].) *)
Theorem reducer_values_in_order (input : string) :
  (records input <> [] -> exists s, reaches (init input) s /\ finished s)
  /\ forall s, reaches (init input) s -> finished s ->
       (invocations s).*2 = (groups (records input)).*2
       /\ concat (invocations s).*2 = Value <$> records input
       /\ forall i g, gs s !! i = Some g ->
            exists k sk vs, invocations s !! i = Some (k, sk, vs)
                            /\ exists rest, vs = g_got g ++ rest.
Proof.
  split.
  - intros Hne. exists (final input). by apply final_finished.
  - intros s. by apply finished_values_in_order.
Qed.

(** The keys of the invocations, on the runs that end well.  On an input
    with a record, [reducer] has a run that ends well.  In every run that
    ends well, [mrjob.Reduce] has been invoked once for every group, in the
    order of the groups, with the reduceKey and the sortKey of the first
    record of the group.  (A run in which the driver returns need not end
    well: see the schedule [sched_not_invoked].) *)
Theorem reducer_sortKey_of_first_record (input : string) :
  (records input <> [] -> exists s, reaches (init input) s /\ finished s)
  /\ forall s, reaches (init input) s -> finished s ->
       (fun inv : string * string * list string => (inv.1.1, inv.1.2))
         <$> invocations s
       = (fun g : KeyValue * list string => (ReduceKey g.1, SortKey g.1))
           <$> groups (records input).
Proof.
  split.
  - intros Hne. exists (final input). by apply final_finished.
  - intros s. by apply finished_sortKey_of_first_record.
Qed.

(** The run of [sched_of] on [input_aabbbc]. *)
Lemma final_aabbbc :
  reaches (init input_aabbbc) (final input_aabbbc) /\ finished (final input_aabbbc).
Proof.
  split.
  - apply (reaches_run (sched_of (records input_aabbbc))). vm_compute. reflexivity.
  - split_and!; [vm_compute; reflexivity | vm_compute; reflexivity |].
    vm_compute. repeat constructor.
Defined.

Example final_aabbbc_invocations :
  invocations (final input_aabbbc)
  = [("a", "s1", ["v1"; "v2"]); ("b", "s3", ["v3"; "v4"; "v5"]); ("c", "", ["v6"])].
Proof. vm_compute. reflexivity. Qed.

Lemma reducer_groups_aabbbc_witness :
  (fun inv : string * string * list string => (inv.1.1, length inv.2))
    <$> invocations (final input_aabbbc)
  = [("a", 2); ("b", 3); ("c", 1)].
Proof.
  apply (reducer_groups_aabbbc input_aabbbc).
  - vm_compute. reflexivity.
  - apply final_aabbbc.
  - apply final_aabbbc.
Defined.

Lemma reducer_values_in_order_witness :
  (exists s, reaches (init input_aabbbc) s /\ finished s)
  /\ (invocations (final input_aabbbc)).*2 = (groups (records input_aabbbc)).*2
  /\ concat (invocations (final input_aabbbc)).*2 = Value <$> records input_aabbbc.
Proof.
  destruct (reducer_values_in_order input_aabbbc) as [Hex Hall]. split.
  - apply Hex. vm_compute. discriminate.
  - destruct (Hall (final input_aabbbc)) as (H1 & H2 & _);
      [apply final_aabbbc | apply final_aabbbc |]. by split.
Defined.

Lemma reducer_sortKey_of_first_record_witness :
  (exists s, reaches (init input_aabbbc) s /\ finished s)
  /\ (fun inv : string * string * list string => (inv.1.1, inv.1.2))
       <$> invocations (final input_aabbbc)
     = [("a", "s1"); ("b", "s3"); ("c", "")].
Proof.
  destruct (reducer_sortKey_of_first_record input_aabbbc) as [Hex Hall]. split.
  - apply Hex. vm_compute. discriminate.
  - rewrite (Hall (final input_aabbbc)); [| apply final_aabbbc | apply final_aabbbc].
    vm_compute. reflexivity.
Defined.

(* --------------------------------------------------------------------- *)
(** ** [mapreduce]: the pools                                              *)
(* --------------------------------------------------------------------- *)

Section PoolFacts.

Context {Item Step : Type} (body : Item -> list Step * outcome) (doneStep : Step).

Implicit Types (w : worker Item Step) (ws : list (worker Item Step)).

Lemma live_insert ws i w w' :
  ws !! i = Some w -> live (<[i := w']> ws) + live_weight w = live ws + live_weight w'.
Proof.
  intros Hi. unfold live. rewrite list_fmap_insert. apply sum_list_insert.
  rewrite list_lookup_fmap, Hi. reflexivity.
Qed.

Lemma live_snoc ws w : live (ws ++ [w]) = live ws + live_weight w.
Proof. unfold live. rewrite fmap_app. apply sum_list_snoc. Qed.

Lemma live_replicate_idle (n : nat) : live (replicate n (@idle Item Step)) = n.
Proof.
  induction n as [|n IH]; [reflexivity |].
  change (live (replicate (S n) (@idle Item Step))) with (S (live (replicate n (@idle Item Step)))).
  now rewrite IH.
Qed.

Lemma live_none ws : live ws = 0 <-> Forall (fun w => w_pc w = PEnded) ws.
Proof.
  unfold live. induction ws as [|w ws IH]; simpl.
  - split; [constructor | reflexivity].
  - rewrite Forall_cons. unfold live_weight at 1, is_ended.
    destruct (w_pc w); simpl; split; try lia; try (intros [? ?]; discriminate).
    + intros H. split; [reflexivity | now apply IH].
    + intros [_ H]. now apply IH.
Qed.

Lemma received_replicate_idle (n : nat) : received (replicate n (@idle Item Step)) = [].
Proof. induction n as [|n IH]; [reflexivity | exact IH]. Qed.

Lemma received_snoc_idle ws : received (ws ++ [idle]) = received ws.
Proof. unfold received. rewrite fmap_app, concat_app. simpl. now rewrite app_nil_r. Qed.

Lemma received_insert_same ws i w w' :
  ws !! i = Some w -> w_got w' = w_got w -> received (<[i := w']> ws) = received ws.
Proof. intros Hi Hg. unfold received. now rewrite (fmap_insert_same _ _ _ _ _ Hi Hg). Qed.

Lemma received_insert_took ws i w w' (x : Item) :
  ws !! i = Some w -> w_got w' = w_got w ++ [x] ->
  Permutation (received (<[i := w']> ws)) (received ws ++ [x]).
Proof.
  intros Hi Hg. unfold received.
  apply list_elem_of_split_length in Hi as (l1 & l2 & -> & ->).
  rewrite insert_app_r_alt by lia. rewrite Nat.sub_diag. simpl.
  rewrite !fmap_app, !concat_app. simpl. rewrite Hg.
  rewrite <- !app_assoc. apply Permutation_app_head, Permutation_app_head.
  apply Permutation_app_comm.
Qed.

Lemma steps_of_snoc (xs : list Item) (x : Item) :
  steps_of body (xs ++ [x]) = steps_of body xs ++ (body x).1.
Proof. unfold steps_of. rewrite fmap_app, concat_app. simpl. now rewrite app_nil_r. Qed.

(** A step of a goroutine keeps it in line with its loop. *)
Lemma worker_step_ok (offer : option Item) (closed : bool) w w' (e : effect) :
  worker_step body doneStep offer closed w = Some (w', e) ->
  worker_ok body doneStep w -> worker_ok body doneStep w'.
Proof.
  unfold worker_step, worker_ok. intros Hs Hok.
  destruct (w_pc w) as [|x| | | |] eqn:Hpc; try discriminate.
  - destruct offer as [x|].
    + injection Hs as <- <-. simpl. exists (w_got w). tauto.
    + destruct closed; [|discriminate]. injection Hs as <- <-. simpl. exact Hok.
  - destruct Hok as (pre & Hg & Hall & Hl).
    destruct (body x) as [steps o] eqn:Hb. injection Hs as <- <-. simpl.
    destruct o; simpl.
    + rewrite Hg, steps_of_snoc, Hb, Hl. split; [|reflexivity].
      apply Forall_app. split; [exact Hall |]. constructor; [|constructor].
      unfold goes_on. now rewrite Hb.
    + exists pre, x. split_and!; [exact Hg | exact Hall | |].
      * unfold goes_on. rewrite Hb. simpl. discriminate.
      * now rewrite Hg, steps_of_snoc, Hb, Hl.
    + exists pre, x. split_and!; [exact Hg | exact Hall | |].
      * unfold goes_on. rewrite Hb. simpl. discriminate.
      * now rewrite Hg, steps_of_snoc, Hb, Hl.
  - injection Hs as <- <-. simpl. destruct Hok as [Hall Hl]. now rewrite Hl.
Qed.

(** What a step of a goroutine is, by its effect. *)
Lemma worker_step_effect (offer : option Item) (closed : bool) w w' (e : effect) :
  worker_step body doneStep offer closed w = Some (w', e) ->
  is_ended w = false
  /\ match e with
     | Took => exists x, offer = Some x /\ w_got w' = w_got w ++ [x] /\ is_ended w' = false
     | Signalled => w_got w' = w_got w /\ is_ended w' = true
     | Quiet => w_got w' = w_got w /\ is_ended w' = false
     | Panicked =>
         w_got w' = w_got w /\ is_ended w' = false
         /\ exists x, (body x).2 = Panics
     end.
Proof.
  unfold worker_step, is_ended. intros Hs.
  destruct (w_pc w) as [|x| | | |] eqn:Hpc; try discriminate.
  - destruct offer as [x|].
    + injection Hs as <- <-. simpl. split; [reflexivity |]. exists x. tauto.
    + destruct closed; [|discriminate]. injection Hs as <- <-. simpl. tauto.
  - destruct (body x) as [steps o] eqn:Hb. injection Hs as <- <-.
    destruct o; simpl; split_and!; try reflexivity.
    exists x. now rewrite Hb.
  - injection Hs as <- <-. simpl. tauto.
Qed.

(** A goroutine that has just been started moves only when it is offered
    an item or its channel is closed. *)
Lemma worker_step_idle w :
  w_pc w = PRange -> worker_step body doneStep None false w = None.
Proof. unfold worker_step. now intros ->. Qed.

Lemma worker_step_ended (offer : option Item) (closed : bool) w :
  w_pc w = PEnded -> worker_step body doneStep offer closed w = None.
Proof. unfold worker_step. now intros ->. Qed.

End PoolFacts.

Lemma partitions_upto_succ (i : Z) :
  (0 <= i)%Z -> partitions_upto (i + 1) = partitions_upto i ++ [i].
Proof.
  intros Hi. unfold partitions_upto.
  replace (Z.to_nat (i + 1)) with (S (Z.to_nat i)) by lia.
  rewrite seq_S, fmap_app. simpl. now rewrite Z2Nat.id by lia.
Qed.

Lemma replicate_snoc {A} (x : A) (n : nat) : replicate n x ++ [x] = replicate (S n) x.
Proof. induction n as [|n IH]; [reflexivity |]. simpl. now rewrite IH. Qed.

Section MapReduceFacts.

Context (f : Flags) (pid : Z) (args : list string) (stdin : string)
  (open : string -> option string) (glob : string -> list string)
  (reducerPanics : Z -> bool).

Lemma mr_inv_init : mr_inv f pid args stdin open glob reducerPanics mr_init.
Proof.
  unfold mr_inv, mr_at, map_phase. simpl. split_and!; try reflexivity; constructor.
Qed.

Lemma worker_ok_idle {Item Step} (body : Item -> list Step * outcome) (d : Step) :
  worker_ok body d idle.
Proof. split; [constructor | reflexivity]. Qed.

Lemma main_step_inv (s s' : mrstate) :
  main_step f pid args stdin s = Some s' ->
  mr_inv f pid args stdin open glob reducerPanics s -> mr_inv f pid args stdin open glob reducerPanics s'.
Proof.
  unfold main_step, mr_inv, mr_at. intros Hs (Hwg & Hm & Hr & Hat).
  destruct (m_pc s) as [| |i|rest| | |i|i| | | |] eqn:Hpc.
  - (* QStart *)
    injection Hs as <-. simpl. destruct Hat as (Hmp & Hnil & Hcl).
    split_and!; try assumption.
    destruct args; simpl; [tauto |]. split_and!; try assumption; try discriminate; lia.
  - (* QStdin *)
    injection Hs as <-. simpl.
    destruct Hat as ((Hrs & Hlog & Hpc') & Hnil & Hcl & Hargs).
    split_and!; try assumption; try lia.
    all: try (unfold map_phase_over; simpl; now rewrite Hargs).
    all: try (now rewrite Hlog).
    all: try (now rewrite Hrs).
  - (* QSpawnMappers *)
    destruct Hat as (Hmp & Hargs & Hcl & Hi & Hms).
    destruct (i <? optNumMappers f)%Z eqn:Hlt; injection Hs as <-; simpl.
    + apply Z.ltb_lt in Hlt. split_and!; try assumption.
      * rewrite live_snoc, Hwg. unfold live_weight. simpl. lia.
      * apply Forall_app. split; [assumption |]. constructor; [|constructor].
        apply worker_ok_idle.
      * lia.
      * lia.
      * rewrite Hms. replace (Z.to_nat (i + 1)) with (S (Z.to_nat i)) by lia.
        apply replicate_snoc.
    + apply Z.ltb_ge in Hlt. split_and!; try assumption.
      * rewrite Hms, length_replicate. lia.
      * exists []. split; [reflexivity |]. rewrite Hms, received_replicate_idle. constructor.
  - (* QSendFiles *)
    destruct rest as [|x rest]; [|discriminate]. injection Hs as <-. simpl.
    destruct Hat as (Hmp & Hargs & Hcl & Hlen & sent & Hsent & Hperm).
    rewrite app_nil_r in Hsent. subst sent. split_and!; try assumption. reflexivity.
  - (* QWaitMappers *)
    destruct (wg s =? 0)%Z eqn:Hz; [|discriminate]. injection Hs as <-. simpl.
    apply Z.eqb_eq in Hz.
    destruct Hat as (Hmp & Hargs & Hcl & Hlen & Hperm).
    split_and!; try assumption.
    unfold map_phase_over. simpl. destruct args; [congruence |].
    split_and!; try assumption.
    apply live_none. lia.
  - (* QFinal *)
    injection Hs as <-. simpl.
    destruct Hat as ((Hrs & Hlog & Hpc') & Hargs & Hover).
    split_and!; try assumption; try lia.
    all: try (now rewrite Hlog).
    all: try (now rewrite Hrs).
  - (* QSpawnReducers *)
    destruct Hat as (Hover & Hlog & Hcl & Hi & Hrs).
    destruct (i <? optNumReducers f)%Z eqn:Hlt; injection Hs as <-; simpl.
    + apply Z.ltb_lt in Hlt. split_and!; try assumption.
      * rewrite live_snoc, Hwg. unfold live_weight. simpl. lia.
      * apply Forall_app. split; [assumption |]. constructor; [|constructor].
        apply worker_ok_idle.
      * lia.
      * lia.
      * rewrite Hrs. replace (Z.to_nat (i + 1)) with (S (Z.to_nat i)) by lia.
        apply replicate_snoc.
    + apply Z.ltb_ge in Hlt. split_and!; try assumption.
      unfold reduce_phase. simpl. split_and!; try assumption; try lia.
      * rewrite Hrs, length_replicate. lia.
      * rewrite Hrs, received_replicate_idle. constructor.
  - (* QSendPartitions *)
    destruct (i <? optNumPartitions f)%Z eqn:Hlt; [discriminate |].
    injection Hs as <-. simpl. apply Z.ltb_ge in Hlt.
    destruct Hat as ((Hover & Hlog & Hlen & Hi & Hperm) & Hcl).
    split_and!; try assumption; try reflexivity.
    unfold reduce_phase. simpl.
    replace (Z.max 0 (optNumPartitions f)) with i by lia.
    split_and!; try assumption; lia.
  - (* QWaitReducers *)
    destruct (wg s =? 0)%Z eqn:Hz; [|discriminate]. injection Hs as <-. simpl.
    apply Z.eqb_eq in Hz. destruct Hat as (Hph & Hcl).
    split_and!; try assumption.
    apply live_none. lia.
  - (* QPrint *)
    injection Hs as <-. simpl.
    destruct Hat as ((Hover & Hlog & Hlen & Hi & Hperm) & Hcl & Hall).
    split_and!; try assumption. now rewrite Hlog.
  - discriminate.
  - discriminate.
Qed.

(** Nothing in the loop body of the mapper pool panics. *)
Lemma mapperBody_no_panic (x : mapperFile) : (mapperBody open x).2 <> Panics.
Proof. unfold mapperBody. destruct (open (fname x)); discriminate. Qed.

(** A goroutine of the mapper pool moves only while the main goroutine
    sends the files or waits for the pool. *)
Lemma mapper_step_phase (i : nat) (s s' : mrstate) :
  mapper_step open i s = Some s' -> mr_at f pid args stdin s ->
  (exists rest, m_pc s = QSendFiles rest) \/ m_pc s = QWaitMappers.
Proof.
  unfold mapper_step, mr_at. intros Hs Hat.
  destruct (mappers s !! i) as [w|] eqn:Hi; [|discriminate].
  assert (Hover : map_phase_over f args s -> False).
  { unfold map_phase_over. destruct args.
    - intros Hnil. now rewrite Hnil in Hi.
    - intros (_ & _ & Hall). rewrite Forall_lookup in Hall.
      rewrite (worker_step_ended _ _ _ _ _ (Hall _ _ Hi)) in Hs. discriminate. }
  destruct (m_pc s) as [| |j|rest| | |j|j| | | |] eqn:Hpc;
    try (exfalso; apply Hover; tauto);
    try (destruct Hat as (_ & Hnil & _); now rewrite Hnil in Hi).
  - destruct Hat as (_ & _ & Hcl & _ & Hms). rewrite Hms in Hi.
    apply lookup_replicate_1 in Hi as [-> _]. rewrite Hcl in Hs. simpl in Hs. discriminate.
  - left. now exists rest.
  - now right.
  - destruct Hat as [Hph _]. exfalso. apply Hover. apply Hph.
  - destruct Hat as [Hph _]. exfalso. apply Hover. apply Hph.
  - destruct Hat as [Hph _]. exfalso. apply Hover. apply Hph.
Qed.

Lemma mapper_step_inv (i : nat) (s s' : mrstate) :
  mapper_step open i s = Some s' ->
  mr_inv f pid args stdin open glob reducerPanics s -> mr_inv f pid args stdin open glob reducerPanics s'.
Proof.
  intros Hs (Hwg & Hm & Hr & Hat).
  pose proof (mapper_step_phase _ _ _ Hs Hat) as Hphase.
  unfold mapper_step in Hs. unfold mr_inv, mr_at in *.
  destruct (mappers s !! i) as [w|] eqn:Hi; [|discriminate].
  destruct (worker_step (mapperBody open) WDone (offeredFile (m_pc s)) (workClosed s) w)
    as [[w' e]|] eqn:Hw; [|discriminate].
  injection Hs as <-. simpl.
  pose proof (worker_step_ok _ _ _ _ _ _ _ Hw (proj1 (Forall_lookup _ _) Hm _ _ Hi)) as Hok'.
  pose proof (worker_step_effect _ _ _ _ _ _ _ Hw) as [Hlive He].
  pose proof (live_insert (mappers s) i w w' Hi) as Hl.
  unfold live_weight in Hl. rewrite Hlive in Hl.
  assert (Hm' : Forall (worker_ok (mapperBody open) WDone) (<[i := w']> (mappers s))).
  { apply Forall_insert; assumption. }
  destruct Hphase as [[rest Hpc] | Hpc]; rewrite Hpc in *; simpl in *.
  - destruct Hat as (Hmp & Hargs & Hcl & Hlen & sent & Hsent & Hperm).
    destruct e.
    + destruct He as (x & Hoff & Hgot & Hend). rewrite Hend in Hl.
      destruct rest as [|y rest]; [discriminate |]. injection Hoff as ->. simpl.
      split_and!; try assumption; try lia.
      * now rewrite length_insert.
      * exists (sent ++ [x]). split; [now rewrite <- app_assoc |].
        rewrite (received_insert_took _ _ _ _ _ Hi Hgot). now apply Permutation_app_tail.
    + destruct He as (Hgot & Hend). rewrite Hend in Hl.
      split_and!; try assumption; try lia.
      * now rewrite length_insert.
      * exists sent. split; [assumption |]. now rewrite (received_insert_same _ _ _ _ Hi Hgot).
    + destruct He as (Hgot & Hend). rewrite Hend in Hl.
      split_and!; try assumption; try lia.
      * now rewrite length_insert.
      * exists sent. split; [assumption |]. now rewrite (received_insert_same _ _ _ _ Hi Hgot).
    + destruct He as (_ & _ & x & Hx). now apply mapperBody_no_panic in Hx.
  - destruct Hat as (Hmp & Hargs & Hcl & Hlen & Hperm).
    destruct e.
    + destruct He as (x & Hoff & _). discriminate.
    + destruct He as (Hgot & Hend). rewrite Hend in Hl.
      split_and!; try assumption; try lia.
      * now rewrite length_insert.
      * now rewrite (received_insert_same _ _ _ _ Hi Hgot).
    + destruct He as (Hgot & Hend). rewrite Hend in Hl.
      split_and!; try assumption; try lia.
      * now rewrite length_insert.
      * now rewrite (received_insert_same _ _ _ _ Hi Hgot).
    + destruct He as (_ & _ & x & Hx). now apply mapperBody_no_panic in Hx.
Qed.

(** A goroutine of the reducer pool moves only while the main goroutine
    sends the partitions or waits for the pool. *)
Lemma reducer_step_phase (i : nat) (s s' : mrstate) :
  has_panicked (m_pc s) = false ->
  reducer_step f pid glob reducerPanics i s = Some s' -> mr_at f pid args stdin s ->
  (exists j, m_pc s = QSendPartitions j) \/ m_pc s = QWaitReducers.
Proof.
  unfold reducer_step, mr_at. intros Hnp Hs Hat.
  destruct (reducers s !! i) as [w|] eqn:Hi; [|discriminate].
  assert (Hended : Forall (fun w => w_pc w = PEnded) (reducers s) -> False).
  { intros Hall. rewrite Forall_lookup in Hall.
    rewrite (worker_step_ended _ _ _ _ _ (Hall _ _ Hi)) in Hs. discriminate. }
  destruct (m_pc s) as [| |j|rest| | |j|j| | | |] eqn:Hpc;
    try (destruct Hat as ((Hnil & _) & _); now rewrite Hnil in Hi);
    try (exfalso; apply Hended; tauto).
  - destruct Hat as (_ & _ & Hcl & _ & Hrs). rewrite Hrs in Hi.
    apply lookup_replicate_1 in Hi as [-> _]. rewrite Hcl in Hs. simpl in Hs. discriminate.
  - left. now exists j.
  - now right.
  - discriminate.
Qed.

Lemma reducer_step_inv (i : nat) (s s' : mrstate) :
  has_panicked (m_pc s) = false ->
  reducer_step f pid glob reducerPanics i s = Some s' ->
  mr_inv f pid args stdin open glob reducerPanics s -> mr_inv f pid args stdin open glob reducerPanics s'.
Proof.
  intros Hnp Hs (Hwg & Hm & Hr & Hat).
  pose proof (reducer_step_phase _ _ _ Hnp Hs Hat) as Hphase.
  unfold reducer_step in Hs. unfold mr_inv, mr_at in *.
  destruct (reducers s !! i) as [w|] eqn:Hi; [|discriminate].
  destruct (worker_step (reduceBody pid glob reducerPanics) RDone (offeredPartition f (m_pc s))
              (partitionsClosed s) w) as [[w' e]|] eqn:Hw; [|discriminate].
  injection Hs as <-. simpl.
  pose proof (worker_step_ok _ _ _ _ _ _ _ Hw (proj1 (Forall_lookup _ _) Hr _ _ Hi)) as Hok'.
  pose proof (worker_step_effect _ _ _ _ _ _ _ Hw) as [Hlive He].
  pose proof (live_insert (reducers s) i w w' Hi) as Hl.
  unfold live_weight in Hl. rewrite Hlive in Hl.
  assert (Hr' : Forall (worker_ok (reduceBody pid glob reducerPanics) RDone) (<[i := w']> (reducers s))).
  { apply Forall_insert; assumption. }
  destruct Hphase as [[j Hpc] | Hpc]; rewrite Hpc in *; simpl in *.
  - destruct Hat as ((Hover & Hlog & Hlen & Hj & Hperm) & Hcl).
    destruct e.
    + destruct He as (x & Hoff & Hgot & Hend). rewrite Hend in Hl.
      destruct (j <? optNumPartitions f)%Z eqn:Hlt; [|discriminate].
      injection Hoff as ->. apply Z.ltb_lt in Hlt. simpl.
      split_and!; try assumption; try lia.
      unfold reduce_phase. simpl. split_and!; try assumption; try lia.
      * now rewrite length_insert.
      * rewrite (received_insert_took _ _ _ _ _ Hi Hgot), partitions_upto_succ by lia.
        now apply Permutation_app_tail.
    + destruct He as (Hgot & Hend). rewrite Hend in Hl.
      split_and!; try assumption; try lia.
      unfold reduce_phase. simpl. split_and!; try assumption; try lia.
      * now rewrite length_insert.
      * now rewrite (received_insert_same _ _ _ _ Hi Hgot).
    + destruct He as (Hgot & Hend). rewrite Hend in Hl.
      split_and!; try assumption; try lia.
      unfold reduce_phase. simpl. split_and!; try assumption; try lia.
      * now rewrite length_insert.
      * now rewrite (received_insert_same _ _ _ _ Hi Hgot).
    + destruct He as (Hgot & Hend & _). rewrite Hend in Hl.
      assert (Hne : <[i := w']> (reducers s) <> []).
      { intros Hnil. apply (f_equal length) in Hnil. rewrite length_insert in Hnil.
        apply lookup_lt_Some in Hi. simpl in Hnil. lia. }
      split_and!; try assumption; try lia.
      now rewrite length_insert.
  - destruct Hat as ((Hover & Hlog & Hlen & Hj & Hperm) & Hcl).
    destruct e.
    + destruct He as (x & Hoff & _). discriminate.
    + destruct He as (Hgot & Hend). rewrite Hend in Hl.
      split_and!; try assumption; try lia.
      unfold reduce_phase. simpl. split_and!; try assumption; try lia.
      * now rewrite length_insert.
      * now rewrite (received_insert_same _ _ _ _ Hi Hgot).
    + destruct He as (Hgot & Hend). rewrite Hend in Hl.
      split_and!; try assumption; try lia.
      unfold reduce_phase. simpl. split_and!; try assumption; try lia.
      * now rewrite length_insert.
      * now rewrite (received_insert_same _ _ _ _ Hi Hgot).
    + destruct He as (Hgot & Hend & _). rewrite Hend in Hl.
      assert (Hne : <[i := w']> (reducers s) <> []).
      { intros Hnil. apply (f_equal length) in Hnil. rewrite length_insert in Hnil.
        apply lookup_lt_Some in Hi. simpl in Hnil. lia. }
      split_and!; try assumption; try lia.
      now rewrite length_insert.
Qed.

Lemma mr_step_inv (l : mrlabel) (s s' : mrstate) :
  mr_step f pid args stdin open glob reducerPanics l s = Some s' ->
  mr_inv f pid args stdin open glob reducerPanics s -> mr_inv f pid args stdin open glob reducerPanics s'.
Proof.
  unfold mr_step. destruct (has_panicked (m_pc s)) eqn:Hnp; [discriminate |].
  destruct l as [|i|i].
  - apply main_step_inv.
  - apply mapper_step_inv.
  - now apply reducer_step_inv.
Qed.

Lemma mr_run_app (a b : list mrlabel) (s : mrstate) :
  mr_run f pid args stdin open glob reducerPanics (a ++ b) s
  = match mr_run f pid args stdin open glob reducerPanics a s with
    | Some s' => mr_run f pid args stdin open glob reducerPanics b s'
    | None => None
    end.
Proof.
  revert s. induction a as [|l a IH]; intros s; simpl; [reflexivity |].
  destruct (mr_step f pid args stdin open glob reducerPanics l s); [apply IH | reflexivity].
Qed.

(** Induction on the runs of [mapreduce]. *)
Lemma mr_reaches_ind (P : mrstate -> Prop) :
  P mr_init ->
  (forall l s s', mr_reaches f pid args stdin open glob reducerPanics s -> P s ->
                  mr_step f pid args stdin open glob reducerPanics l s = Some s' -> P s') ->
  forall s, mr_reaches f pid args stdin open glob reducerPanics s -> P s.
Proof.
  intros H0 Hstep s [sched Hrun]. revert s Hrun.
  induction sched as [|l sched IH] using rev_ind; intros s Hrun.
  - simpl in Hrun. now injection Hrun as <-.
  - rewrite mr_run_app in Hrun.
    destruct (mr_run f pid args stdin open glob reducerPanics sched mr_init) as [s1|] eqn:H1; [|discriminate].
    simpl in Hrun.
    destruct (mr_step f pid args stdin open glob reducerPanics l s1) as [s2|] eqn:H2; [|discriminate].
    injection Hrun as <-.
    apply (Hstep l s1 s2); [now exists sched | now apply IH | exact H2].
Qed.

Lemma mr_reaches_inv (s : mrstate) :
  mr_reaches f pid args stdin open glob reducerPanics s -> mr_inv f pid args stdin open glob reducerPanics s.
Proof.
  apply mr_reaches_ind; [apply mr_inv_init |].
  intros l s1 s2 _ Hinv Hs. exact (mr_step_inv _ _ _ Hs Hinv).
Qed.

End MapReduceFacts.

(* --------------------------------------------------------------------- *)
(** ** [mapreduce]: a run that returns                                     *)
(* --------------------------------------------------------------------- *)

Section MapReduceRuns.

Context (f : Flags) (pid : Z) (args : list string) (stdin : string)
  (open : string -> option string) (glob : string -> list string)
  (reducerPanics : Z -> bool).


Lemma goes_on_mapperBody (x : mapperFile) :
  goes_on (mapperBody open) x <-> open (fname x) <> None.
Proof.
  unfold goes_on, mapperBody. destruct (open (fname x)); simpl; split; congruence.
Qed.

Lemma goes_on_reduceBody (p : Z) :
  goes_on (reduceBody pid glob reducerPanics) p <-> reducerPanics p = false.
Proof.
  unfold goes_on, reduceBody. destruct (reducerPanics p); simpl; split; congruence.
Qed.











End MapReduceRuns.

(* --------------------------------------------------------------------- *)
(** ** [mapreduce]: what holds of every run                                *)
(* --------------------------------------------------------------------- *)

Section MapReduceProperties.

Context (f : Flags) (pid : Z) (args : list string) (stdin : string)
  (open : string -> option string) (glob : string -> list string)
  (reducerPanics : Z -> bool).

Lemma received_nil {Item Step} (ws : list (worker Item Step)) :
  length ws = 0 -> received ws = [].
Proof. destruct ws; [reflexivity | discriminate]. Qed.

Lemma mapperItems_nil : mapperItems args = [] -> args = [].
Proof.
  intros H. apply (f_equal length) in H. unfold mapperItems in H.
  rewrite length_imap in H. now destruct args.
Qed.

Lemma elem_of_concat {A} (ls : list (list A)) (x : A) :
  x ∈ concat ls <-> exists l, l ∈ ls /\ x ∈ l.
Proof.
  induction ls as [|l ls IH]; simpl.
  - split; [intros H; now apply elem_of_nil in H | intros (l & H & _); now apply elem_of_nil in H].
  - rewrite elem_of_app, IH. split.
    + intros [H | (l' & Hl' & H)].
      * exists l. split; [left | exact H].
      * exists l'. split; [now right | exact H].
    + intros (l' & Hl' & H). apply elem_of_cons in Hl' as [-> | Hl'].
      * now left.
      * right. now exists l'.
Qed.

(** What a goroutine of a pool has received is among what the pool has. *)
Lemma elem_of_received {Item Step} (ws : list (worker Item Step)) (x : Item) :
  x ∈ received ws <-> exists w, w ∈ ws /\ x ∈ w_got w.
Proof.
  unfold received. rewrite elem_of_concat. split.
  - intros (l & Hl & Hx). apply list_elem_of_fmap in Hl as (w & -> & Hw). now exists w.
  - intros (w & Hw & Hx). exists (w_got w). split; [|exact Hx].
    apply list_elem_of_fmap. now exists w.
Qed.

(** Once the map phase is over, every input file was opened. *)
Lemma map_phase_over_opened (s : mrstate) (name : string) :
  Forall (worker_ok (mapperBody open) WDone) (mappers s) ->
  map_phase_over f args s -> name ∈ args -> open name <> None.
Proof.
  unfold map_phase_over. intros Hok Hover Hin.
  destruct args as [|a args'] eqn:Hargs; [now apply elem_of_nil in Hin |].
  rewrite <- Hargs in *. destruct Hover as (_ & Hperm & Hall).
  apply list_elem_of_lookup_1 in Hin as [i Hi].
  assert (Hx : mkMapperFile i name ∈ received (mappers s)).
  { rewrite Hperm. unfold mapperItems. now apply elem_of_lookup_imap_2. }
  apply elem_of_received in Hx as (w & Hw & Hx).
  rewrite Forall_forall in Hok, Hall.
  specialize (Hok w Hw). specialize (Hall w Hw).
  unfold worker_ok in Hok. rewrite Hall in Hok. destruct Hok as [Hgo _].
  rewrite Forall_forall in Hgo. specialize (Hgo _ Hx).
  now apply goes_on_mapperBody in Hgo.
Qed.


Lemma stdinCalls_final : exists calls, stdinCalls stdin = calls ++ [CallMapFinal].
Proof.
  unfold stdinCalls. destruct (mapper_total stdin ([] : list JobCall)) as [w ->].
  now exists w.
Qed.

Lemma mapPhaseLog_final :
  EJob CallMapFinal ∈ mapPhaseLog pid args stdin
  /\ last (mapPhaseLog pid args stdin) = Some EClose.
Proof.
  unfold mapPhaseLog. destruct args as [|a args'].
  - destruct stdinCalls_final as [calls ->]. split.
    + apply elem_of_app. right. apply elem_of_app. left.
      rewrite fmap_app. apply elem_of_app. right. simpl. left.
    + change [EFlush; EClose] with ([EFlush] ++ [EClose]).
      rewrite !app_assoc. apply last_snoc.
  - split.
    + simpl. right. left.
    + reflexivity.
Qed.

Lemma Sprintf_04d_0 : Sprintf_04d 0 = "0000".
Proof. reflexivity. Qed.

(** The text of the last [fmt.Printf], in terms of the names of the
    output files. *)
Lemma outputMessage_names (numPartitions : Z) :
  outputMessage pid numPartitions
  = "output is in: " +:+ redOutName pid 0
      +:+ (if (numPartitions =? 1)%Z then ""
           else " - " +:+ redOutName pid (numPartitions - 1))
      +:+ String NL "".
Proof.
  unfold outputMessage, redOutName. rewrite Sprintf_04d_0.
  destruct (numPartitions =? 1)%Z.
  - change ("output is in: red-out-p") with ("output is in: " +:+ "red-out-p").
    change ".0000" with ("." +:+ "0000").
    rewrite !append_assoc. reflexivity.
  - change ("output is in: red-out-p") with ("output is in: " +:+ "red-out-p").
    change ".0000 - red-out-p" with ("." +:+ "0000" +:+ " - " +:+ "red-out-p").
    rewrite !append_assoc. reflexivity.
Qed.

Lemma partitions_upto_max (n : Z) : partitions_upto (Z.max 0 n) = partitions_upto n.
Proof. unfold partitions_upto. f_equal. f_equal. lia. Qed.

Lemma elem_of_partitions_upto (n p : Z) : p ∈ partitions_upto n <-> (0 <= p < n)%Z.
Proof.
  unfold partitions_upto. rewrite list_elem_of_fmap. split.
  - intros (k & -> & Hk). apply elem_of_seq in Hk. lia.
  - intros Hp. exists (Z.to_nat p). split; [lia |]. apply elem_of_seq. lia.
Qed.

Lemma steps_of_elem {Item Step} (body : Item -> list Step * outcome) (xs : list Item)
    (x : Item) (st : Step) :
  x ∈ xs -> st ∈ (body x).1 -> st ∈ steps_of body xs.
Proof.
  intros Hx Hst. unfold steps_of. apply elem_of_concat.
  exists (body x).1. split; [|exact Hst].
  apply list_elem_of_fmap. now exists x.
Qed.

(** X1: when one of the input files cannot be opened, [mapreduce]
    never gets past the [wg.Wait()] of the map phase: the goroutine that
    received the file returns without [wg.Done()], so the counter never gets
    back to zero; [mapperFinal] is not called, nothing of the reduce phase
    happens and nothing is printed. *)
Theorem mapreduce_unreadable_file_blocks (name : string) (s : mrstate) :
  name ∈ args -> open name = None ->
  mr_reaches f pid args stdin open glob reducerPanics s ->
  in_map_phase (m_pc s) = true /\ m_log s = [] /\ reducers s = []
  /\ partitionsClosed s = false.
Proof.
  intros Hin Hopen Hreach.
  destruct (mr_reaches_inv _ _ _ _ _ _ _ _ Hreach) as (_ & Hm & _ & Hat).
  assert (Hover : map_phase_over f args s -> False).
  { intros Hover. now apply (map_phase_over_opened s name Hm Hover Hin). }
  unfold mr_at in Hat.
  destruct (m_pc s) as [| |i|rest| | |i|i| | | |];
    try (exfalso; apply Hover; unfold reduce_phase in Hat; tauto);
    unfold map_phase in Hat; simpl; tauto.
Qed.

(** X2: with input files and no goroutine in the mapper pool (the
    flag [-mappers] at zero or below), the main goroutine blocks for ever
    in its first send on [mapperWork]: it never closes the channel. *)
Theorem mapreduce_no_mappers_blocks (s : mrstate) :
  args <> [] -> (optNumMappers f <= 0)%Z ->
  mr_reaches f pid args stdin open glob reducerPanics s ->
  (m_pc s = QStart \/ m_pc s = QSpawnMappers 0 \/ m_pc s = QSendFiles (mapperItems args))
  /\ mappers s = [] /\ workClosed s = false.
Proof.
  intros Hargs HN Hreach.
  destruct (mr_reaches_inv _ _ _ _ _ _ _ _ Hreach) as (_ & _ & _ & Hat).
  assert (Hnil : forall ms : list (worker mapperFile WorkerStep),
             length ms = Z.to_nat (optNumMappers f) -> ms = []).
  { intros ms Hlen. destruct ms; [reflexivity |]. simpl in Hlen. lia. }
  assert (Hover : map_phase_over f args s -> False).
  { unfold map_phase_over. destruct args as [|a args'] eqn:Ha; [congruence |].
    rewrite <- Ha. intros (Hlen & Hperm & _). rewrite (Hnil _ Hlen) in Hperm.
    apply Permutation_nil in Hperm. apply mapperItems_nil in Hperm. congruence. }
  unfold mr_at in Hat.
  destruct (m_pc s) as [| |i|rest| | |i|i| | | |];
    try (exfalso; apply Hover; unfold reduce_phase in Hat; tauto).
  - split_and!; [now left | tauto | tauto].
  - destruct Hat as (_ & _ & Hcl & Hi & Hms).
    assert (i = 0%Z) as -> by lia. simpl in Hms.
    split_and!; [right; now left | assumption | assumption].
  - destruct Hat as (_ & _ & Hcl & Hlen & sent & Hsent & Hperm).
    rewrite (Hnil _ Hlen) in *. apply Permutation_nil in Hperm. subst sent.
    simpl in Hsent. subst rest.
    split_and!; [right; now right | reflexivity | assumption].
  - destruct Hat as (_ & _ & _ & Hlen & Hperm). rewrite (Hnil _ Hlen) in Hperm.
    apply Permutation_nil in Hperm. apply mapperItems_nil in Hperm. congruence.
Qed.

(** X3: with a partition to reduce and no goroutine in the reducer
    pool (the flag [-reducers] at zero or below), the main goroutine blocks
    for ever in its first send on [partitions]: no partition is received,
    the channel is never closed, and the message that names the output is
    never printed. *)
Theorem mapreduce_no_reducers_blocks (s : mrstate) :
  (1 <= optNumPartitions f)%Z -> (optNumReducers f <= 0)%Z ->
  mr_reaches f pid args stdin open glob reducerPanics s ->
  before_print (m_pc s) = true /\ m_pc s <> QWaitReducers
  /\ reducers s = [] /\ partitionsClosed s = false
  /\ forall i, m_pc s = QSendPartitions i -> i = 0%Z.
Proof.
  intros HP HR Hreach.
  destruct (mr_reaches_inv _ _ _ _ _ _ _ _ Hreach) as (_ & _ & _ & Hat).
  assert (Hnil : forall rs : list (worker Z ReduceStep),
             length rs = Z.to_nat (optNumReducers f) -> rs = []).
  { intros rs Hlen. destruct rs; [reflexivity |]. simpl in Hlen. lia. }
  assert (Hall : length (reducers s) = Z.to_nat (optNumReducers f) ->
                 Permutation (received (reducers s))
                   (partitions_upto (Z.max 0 (optNumPartitions f))) -> False).
  { intros Hlen Hperm. rewrite (Hnil _ Hlen) in Hperm.
    apply Permutation_nil in Hperm. rewrite partitions_upto_max in Hperm.
    assert (Hin : 0%Z ∈ partitions_upto (optNumPartitions f))
      by (apply elem_of_partitions_upto; lia).
    rewrite Hperm in Hin. now apply elem_of_nil in Hin. }
  unfold mr_at, map_phase, reduce_phase in Hat.
  destruct (m_pc s) as [| |i|rest| | |i|i| | | |] eqn:Hpc; simpl;
    try (split_and!; [reflexivity | discriminate | tauto | tauto | discriminate]);
    try (exfalso; apply Hall; tauto).
  - destruct Hat as (_ & _ & Hcl & Hi & Hrs).
    assert (i = 0%Z) as -> by lia. simpl in Hrs.
    split_and!; [reflexivity | discriminate | assumption | assumption | discriminate].
  - destruct Hat as ((Hover & Hlog & Hlen & Hi & Hperm) & Hcl).
    rewrite (Hnil _ Hlen) in *. apply Permutation_nil in Hperm.
    split_and!; [reflexivity | discriminate | reflexivity | assumption |].
    intros j [= <-]. destruct (Z.eq_dec i 0%Z) as [-> | Hne]; [reflexivity |].
    assert (Hin : 0%Z ∈ partitions_upto i) by (apply elem_of_partitions_upto; lia).
    rewrite Hperm in Hin. now apply elem_of_nil in Hin.
  - destruct Hat as (_ & _ & Hlen & Hne). now rewrite (Hnil _ Hlen) in Hne.
Qed.


(** X5: the barrier between the phases.  As soon as a goroutine of
    the reducer pool exists, every goroutine of the mapper pool has ended
    and the main goroutine has finished the map phase: [mrjob.MapFinal] was
    called and its emitter flushed and closed. *)
Theorem mapreduce_barrier (s : mrstate) :
  mr_reaches f pid args stdin open glob reducerPanics s -> reducers s <> [] ->
  Forall (fun w => w_pc w = PEnded) (mappers s)
  /\ (exists rest, m_log s = mapPhaseLog pid args stdin ++ rest)
  /\ EJob CallMapFinal ∈ mapPhaseLog pid args stdin
  /\ last (mapPhaseLog pid args stdin) = Some EClose.
Proof.
  intros Hreach Hrs.
  destruct (mr_reaches_inv _ _ _ _ _ _ _ _ Hreach) as (_ & _ & _ & Hat).
  destruct mapPhaseLog_final as [Hfinal Hlast].
  assert (Hover : map_phase_over f args s ->
                  Forall (fun w => w_pc w = PEnded) (mappers s)).
  { unfold map_phase_over. destruct args.
    - intros ->. constructor.
    - tauto. }
  unfold mr_at, map_phase, reduce_phase in Hat.
  destruct (m_pc s) as [| |i|rest| | |i|i| | | |]; try tauto.
  - destruct Hat as (Hov & Hlog & _). split_and!; try tauto.
    exists []. now rewrite app_nil_r.
  - destruct Hat as ((Hov & Hlog & _) & _). split_and!; try tauto.
    exists []. now rewrite app_nil_r.
  - destruct Hat as ((Hov & Hlog & _) & _). split_and!; try tauto.
    exists []. now rewrite app_nil_r.
  - destruct Hat as ((Hov & Hlog & _) & _). split_and!; try tauto.
    exists []. now rewrite app_nil_r.
  - destruct Hat as (Hov & Hlog & _). split_and!; try tauto.
    eexists. exact Hlog.
  - destruct Hat as (Hov & Hlog & _). split_and!; try tauto.
    exists []. now rewrite app_nil_r.
Qed.

(** X6: [mapreduce] reduces every partition once and names its
    output.  When [mapreduce] has returned, the goroutines of the reducer
    pool have together received every partition number below
    [optNumPartitions] exactly once; each has run the loop body on the
    partitions it received and then called [wg.Done()]; on no partition
    did [reducer] panic, and for every partition the output file of its
    name was created; and the last thing printed names the output files of
    the first and of the last partition. *)
Theorem mapreduce_reduces_every_partition_once (s : mrstate) :
  mr_reaches f pid args stdin open glob reducerPanics s -> m_pc s = QReturned ->
  Permutation (received (reducers s)) (partitions_upto (optNumPartitions f))
  /\ Forall (fun w => w_pc w = PEnded
                      /\ w_log w = steps_of (reduceBody pid glob reducerPanics) (w_got w) ++ [RDone])
       (reducers s)
  /\ (forall p, (0 <= p < optNumPartitions f)%Z ->
        reducerPanics p = false
        /\ exists w, w ∈ reducers s /\ RCreate (redOutName pid p) ∈ w_log w)
  /\ last (m_log s)
     = Some (EPrintf ("output is in: " +:+ redOutName pid 0
                        +:+ (if (optNumPartitions f =? 1)%Z then ""
                             else " - " +:+ redOutName pid (optNumPartitions f - 1))
                        +:+ String NL "")).
Proof.
  intros Hreach Hpc.
  destruct (mr_reaches_inv _ _ _ _ _ _ _ _ Hreach) as (_ & _ & Hr & Hat).
  unfold mr_at in Hat. rewrite Hpc in Hat.
  destruct Hat as (_ & Hlog & _ & Hperm & _ & Hall).
  rewrite partitions_upto_max in Hperm.
  assert (Hws : Forall (fun w => w_pc w = PEnded
                   /\ Forall (goes_on (reduceBody pid glob reducerPanics)) (w_got w)
                   /\ w_log w = steps_of (reduceBody pid glob reducerPanics) (w_got w) ++ [RDone])
                  (reducers s)).
  { apply Forall_forall. intros w Hw. rewrite Forall_forall in Hr, Hall.
    specialize (Hr w Hw). specialize (Hall w Hw).
    unfold worker_ok in Hr. rewrite Hall in Hr. tauto. }
  split_and!.
  - exact Hperm.
  - eapply Forall_impl; [exact Hws |]. simpl. tauto.
  - intros p Hp.
    assert (Hin : p ∈ received (reducers s)).
    { rewrite Hperm. now apply elem_of_partitions_upto. }
    apply elem_of_received in Hin as (w & Hw & Hin).
    rewrite Forall_forall in Hws. destruct (Hws w Hw) as (_ & Hgo & Hlogw).
    rewrite Forall_forall in Hgo. specialize (Hgo p Hin).
    apply goes_on_reduceBody in Hgo. split; [exact Hgo |].
    exists w. split; [exact Hw |]. rewrite Hlogw.
    apply elem_of_app. left. apply (steps_of_elem _ _ p); [exact Hin |].
    unfold reduceBody. rewrite Hgo. simpl. do 3 right. left.
  - rewrite Hlog, last_snoc, outputMessage_names. reflexivity.
Qed.

(** X7: when the call of [reducer] panics on one of the partitions
    (as it does on a partition without records), [mapreduce] never gets past
    the [wg.Wait()] of the reduce phase: the message that names the output is
    never printed and [mapreduce] does not return. *)
Theorem mapreduce_reducer_panic_no_output (p : Z) (s : mrstate) :
  (0 <= p < optNumPartitions f)%Z -> reducerPanics p = true ->
  mr_reaches f pid args stdin open glob reducerPanics s ->
  before_print (m_pc s) = true
  /\ Forall (fun e => match e with EPrintf _ => False | _ => True end) (m_log s).
Proof.
  intros Hp Hpanic Hreach.
  destruct (mr_reaches_inv _ _ _ _ _ _ _ _ Hreach) as (_ & _ & Hr & Hat).
  assert (Hall : Permutation (received (reducers s))
                   (partitions_upto (Z.max 0 (optNumPartitions f))) ->
                 Forall (fun w => w_pc w = PEnded) (reducers s) -> False).
  { intros Hperm Hall. rewrite partitions_upto_max in Hperm.
    assert (Hin : p ∈ received (reducers s)).
    { rewrite Hperm. now apply elem_of_partitions_upto. }
    apply elem_of_received in Hin as (w & Hw & Hin).
    rewrite Forall_forall in Hr, Hall. specialize (Hr w Hw). specialize (Hall w Hw).
    unfold worker_ok in Hr. rewrite Hall in Hr. destruct Hr as [Hgo _].
    rewrite Forall_forall in Hgo. specialize (Hgo p Hin).
    apply goes_on_reduceBody in Hgo. congruence. }
  assert (Hlog : forall l, l = [] \/ l = mapPhaseLog pid args stdin ->
             Forall (fun e => match e with EPrintf _ => False | _ => True end) l).
  { intros l [-> | ->]; [constructor |].
    unfold mapPhaseLog. destruct args.
    - repeat (apply Forall_app; split); repeat constructor.
      apply Forall_fmap, Forall_true. intros c. exact I.
    - repeat constructor. }
  unfold mr_at, map_phase, reduce_phase in Hat.
  destruct (m_pc s) as [| |i|rest| | |i|i| | | |]; simpl;
    try (exfalso; apply Hall; tauto);
    (split; [reflexivity | apply Hlog; tauto]).
Qed.

End MapReduceProperties.

Lemma mapreduce_unreadable_file_blocks_witness :
  let s := example_run example_flags ["in0"; "in1"] no_panic sched_unreadable in
  in_map_phase (m_pc s) = true /\ m_log s = [] /\ reducers s = []
  /\ partitionsClosed s = false.
Proof.
  apply (mapreduce_unreadable_file_blocks example_flags 7 ["in0"; "in1"] ""
           example_open example_glob no_panic "in1").
  - right. left.
  - reflexivity.
  - exists sched_unreadable. vm_compute. reflexivity.
Defined.

Lemma mapreduce_no_mappers_blocks_witness :
  let f := mkFlags false false true 1 0 4 in
  let s := example_run f ["in0"] no_panic [LMain; LMain] in
  (m_pc s = QStart \/ m_pc s = QSpawnMappers 0
   \/ m_pc s = QSendFiles (mapperItems ["in0"]))
  /\ mappers s = [] /\ workClosed s = false.
Proof.
  apply (mapreduce_no_mappers_blocks (mkFlags false false true 1 0 4) 7 ["in0"] ""
           example_open example_glob no_panic).
  - discriminate.
  - simpl. lia.
  - exists [LMain; LMain]. vm_compute. reflexivity.
Defined.

Lemma mapreduce_no_reducers_blocks_witness :
  let f := mkFlags false false true 1 4 0 in
  let s := example_run f [] no_panic [LMain; LMain; LMain] in
  before_print (m_pc s) = true /\ m_pc s <> QWaitReducers
  /\ reducers s = [] /\ partitionsClosed s = false
  /\ forall i, m_pc s = QSendPartitions i -> i = 0%Z.
Proof.
  apply (mapreduce_no_reducers_blocks (mkFlags false false true 1 4 0) 7 [] ""
           example_open example_glob no_panic).
  - simpl. lia.
  - simpl. lia.
  - exists [LMain; LMain; LMain]. vm_compute. reflexivity.
Defined.


Lemma mapreduce_barrier_witness :
  let s := example_run example_flags ["in0"] no_panic sched_barrier in
  Forall (fun w => w_pc w = PEnded) (mappers s)
  /\ (exists rest, m_log s = mapPhaseLog 7 ["in0"] "" ++ rest)
  /\ EJob CallMapFinal ∈ mapPhaseLog 7 ["in0"] ""
  /\ last (mapPhaseLog 7 ["in0"] "") = Some EClose.
Proof.
  apply (mapreduce_barrier example_flags 7 ["in0"] "" example_open example_glob no_panic).
  - exists sched_barrier. vm_compute. reflexivity.
  - vm_compute. discriminate.
Defined.

Lemma mapreduce_reduces_every_partition_once_witness :
  let s := example_run example_flags [] no_panic (sched_mapreduce example_flags []) in
  Permutation (received (reducers s)) [0%Z; 1%Z]
  /\ Forall (fun w => w_pc w = PEnded
                      /\ w_log w = steps_of (reduceBody 7 example_glob no_panic) (w_got w)
                                     ++ [RDone])
       (reducers s)
  /\ (forall p, (0 <= p < 2)%Z ->
        no_panic p = false
        /\ exists w, w ∈ reducers s /\ RCreate (redOutName 7 p) ∈ w_log w)
  /\ last (m_log s)
     = Some (EPrintf ("output is in: red-out-p7.0000 - red-out-p7.0001" +:+ String NL "")).
Proof.
  apply (mapreduce_reduces_every_partition_once example_flags 7 [] ""
           example_open example_glob no_panic).
  - exists (sched_mapreduce example_flags []). vm_compute. reflexivity.
  - vm_compute. reflexivity.
Defined.

Lemma mapreduce_reducer_panic_no_output_witness :
  let s := example_run example_flags [] panic_on_1 sched_two_partitions in
  before_print (m_pc s) = true
  /\ Forall (fun e => match e with EPrintf _ => False | _ => True end) (m_log s).
Proof.
  apply (mapreduce_reducer_panic_no_output example_flags 7 [] ""
           example_open example_glob panic_on_1 1).
  - simpl. lia.
  - reflexivity.
  - exists sched_two_partitions. vm_compute. reflexivity.
Defined.

Example example_panicked :
  m_pc (example_run example_flags [] panic_on_1 sched_two_partitions) = QPanicked.
Proof. vm_compute. reflexivity. Qed.

(* --------------------------------------------------------------------- *)
(** ** [reducer]: what holds of every run, finished or not                 *)
(* --------------------------------------------------------------------- *)

(** X8: the driver never holds more than 64 values ahead of a
    [mrjob.Reduce]: in every state that [reducer] reaches, the buffer of
    every [values] channel holds at most [valuesCap] values. *)
Theorem reducer_buffer_bounded (input : string) (s : state) :
  reaches (init input) s ->
  Forall (fun c => length (vbuf c) <= valuesCap) (vchans s).
Proof.
  revert s. apply reaches_ind_step; [constructor |].
  intros l s s' _ IH Hstep. unfold step in Hstep.
  destruct (panicked s); [discriminate |].
  destruct l as [|i|i].
  - unfold driver_step in Hstep.
    destruct (d_pc s) as [|next|next|mkv|mkv|mkv|mkv|]; try discriminate.
    + destruct (readLineKeyValue (br s)) as [[mkv|e] br'].
      * simpl in Hstep.
        destruct (negb (String.eqb (currentReduceKey s) (ReduceKey mkv)) || isFirstRun s);
          [destruct (negb (isFirstRun s)) |]; injection Hstep as <-; exact IH.
      * injection Hstep as <-. exact IH.
    + unfold closeValues in Hstep.
      destruct (values s) as [ch|]; [|injection Hstep as <-; exact IH].
      destruct (vchans s !! ch) as [c|] eqn:Hc; [|discriminate].
      destruct (vclosed c); injection Hstep as <-; [exact IH |]. simpl.
      apply Forall_insert; [exact IH |].
      rewrite Forall_lookup in IH. exact (IH _ _ Hc).
    + destruct (done s) as [d|]; [|discriminate].
      destruct (dchans s !! d) as [[|]|]; try discriminate.
      injection Hstep as <-. exact IH.
    + injection Hstep as <-. simpl. apply Forall_app. split; [exact IH |].
      constructor; [simpl; unfold valuesCap; lia | constructor].
    + injection Hstep as <-. exact IH.
    + injection Hstep as <-. exact IH.
    + destruct (values s) as [ch|]; [|discriminate].
      destruct (vchans s !! ch) as [c|] eqn:Hc; [|discriminate].
      destruct (vclosed c); [injection Hstep as <-; exact IH |].
      destruct (length (vbuf c) <? valuesCap) eqn:Hlt; [|discriminate].
      injection Hstep as <-. simpl. apply Forall_insert; [exact IH |].
      simpl. rewrite length_app. simpl. apply Nat.ltb_lt in Hlt. lia.
  - unfold go_step in Hstep.
    destruct (gs s !! i) as [g|]; [|discriminate].
    destruct (g_pc g) as [|ch|d| |d|]; try discriminate.
    + destruct (values s); [|discriminate]. injection Hstep as <-. exact IH.
    + destruct (vchans s !! ch) as [c|] eqn:Hc; [|discriminate].
      destruct (vbuf c) as [|v buf'] eqn:Hbuf; [discriminate |].
      injection Hstep as <-. simpl. apply Forall_insert; [exact IH |].
      simpl. rewrite Forall_lookup in IH. specialize (IH _ _ Hc).
      simpl in IH. rewrite Hbuf in IH. simpl in IH. lia.
    + destruct (dchans s !! d) as [[|]|]; try discriminate.
      * injection Hstep as <-. exact IH.
      * destruct (d_pc s); try discriminate.
        destruct (done s) as [d'|]; [|discriminate].
        destruct (Nat.eqb d d'); [|discriminate]. injection Hstep as <-. exact IH.
    + destruct (done s); [|discriminate]. injection Hstep as <-. exact IH.
    + destruct (dchans s !! d) as [[|]|]; try discriminate; injection Hstep as <-; exact IH.
  - unfold ret_step in Hstep.
    destruct (gs s !! i) as [g|]; [|discriminate].
    destruct (g_pc g); try discriminate.
    destruct (done s); [|discriminate]. injection Hstep as <-. exact IH.
Qed.

(** The cases of a step. *)
Ltac step_cases H :=
  unfold step, driver_step, go_step, ret_step, closeValues in H;
  repeat match type of H with
         | match ?x with _ => _ end = Some _ =>
             let E := fresh "E" in destruct x eqn:E; try discriminate H
         | (if ?b then _ else _) = Some _ =>
             let E := fresh "E" in destruct b eqn:E; try discriminate H
         end;
  try (injection H as <-).

Lemma closed_inv_step (l : label) (s s' : state) :
  step l s = Some s' ->
  closed_inv s /\ (isFirstRun s = true -> vchans s = []) ->
  closed_inv s' /\ (isFirstRun s' = true -> vchans s' = []).
Proof.
  intros Hstep [Hcl Hfirst]. unfold closed_inv in *.
  step_cases Hstep; simpl in *.
  all: try (split; [exact Hcl | exact Hfirst]).
  all: (split; [|first [exact Hfirst | intros Hf; discriminate Hf
                        | intros Hf; specialize (Hfirst Hf); rewrite Hfirst in *;
                          simpl in *; discriminate]]).
  all: intros j c' Hj Hc'.
  all: repeat match goal with
              | Hx : d_pc _ = _ |- context [d_pc _] => rewrite Hx
              | Hx : values _ = _ |- context [values _] => rewrite Hx
              end.
  all: try match type of Hj with
           | <[?n := _]> _ !! _ = Some _ =>
               destruct (decide (j = n)) as [-> | Hne];
               [ rewrite list_lookup_insert_eq in Hj by (eapply lookup_lt_Some; eassumption);
                 injection Hj as <-; simpl in Hc'; try discriminate Hc'
               | rewrite list_lookup_insert_ne in Hj by congruence ]
           | (_ ++ [_]) !! _ = Some _ =>
               apply lookup_snoc_Some in Hj as [[_ Hj] | [-> <-]];
               [| split; reflexivity]
           end.
  all: try (split; reflexivity).
  all: try match goal with
           | Hx : vchans _ !! ?n = Some ?v, Hy : vclosed ?v = false |- _ =>
               destruct (Hcl _ _ Hx Hy) as [Hv Hp]
           end.
  all: try discriminate.
  all: try (split; [first [exact Hv | congruence] | first [reflexivity | exact Hp]]).
  all: try (apply negb_false_iff in E5; rewrite (Hfirst E5) in *; discriminate).
  all: exfalso; congruence.
Qed.

Lemma reaches_closed_inv (input : string) (s : state) :
  reaches (init input) s -> closed_inv s.
Proof.
  intros Hr.
  enough (H : closed_inv s /\ (isFirstRun s = true -> vchans s = [])) by apply H.
  revert s Hr. apply reaches_ind_step.
  - split; [|reflexivity]. intros i c Hi. discriminate Hi.
  - intros l s s' _ IH Hstep. exact (closed_inv_step _ _ _ Hstep IH).
Qed.

(** When the driver waits for a goroutine or has returned, [values] names
    a channel. *)
Lemma waits_with_values_step (l : label) (s s' : state) :
  step l s = Some s' ->
  (waiting_pc (d_pc s) = true -> values s <> None) ->
  (waiting_pc (d_pc s') = true -> values s' <> None).
Proof.
  intros Hstep IH.
  step_cases Hstep; simpl in *.
  all: repeat match goal with
              | Hx : d_pc _ = _ |- _ => rewrite Hx in *
              | Hx : values _ = _ |- _ => rewrite Hx in *
              end.
  all: simpl in *; try exact IH; try discriminate.
  all: intros Hp.
  all: try discriminate.
  all: apply IH; reflexivity.
Qed.

Lemma reaches_waits_with_values (input : string) (s : state) :
  reaches (init input) s -> waiting_pc (d_pc s) = true -> values s <> None.
Proof.
  revert s.
  apply (reaches_ind_step (fun s => waiting_pc (d_pc s) = true -> values s <> None)).
  - discriminate.
  - intros l s s' _ IH Hstep. exact (waits_with_values_step _ _ _ Hstep IH).
Qed.

(** X9: what holds when the driver of [reducer] returns, whatever the
    schedule and whether or not the goroutines are done: the input had a
    record; one goroutine was started for every group, with the first record
    of the group; every group has a [values] channel of its own, on which
    exactly the values of the group were sent, in their order; and every
    [values] channel is closed. *)
Theorem reducer_driver_returned (input : string) (s : state) :
  reaches (init input) s -> d_pc s = DReturned ->
  records input <> []
  /\ g_mkv <$> gs s = (groups (records input)).*1
  /\ vhist <$> vchans s = (groups (records input)).*2
  /\ Forall (fun c => vclosed c = true) (vchans s).
Proof.
  intros Hr Hpc.
  pose proof (reaches_driver_inv _ _ Hr) as (processed & Hv & _ & _ & Hat).
  pose proof (reaches_closed_inv _ _ Hr) as Hcl.
  pose proof (reaches_waits_with_values _ _ Hr) as Hw.
  unfold driver_at in Hat. rewrite Hpc in *.
  destruct Hat as (Hrec & Hf & Hh & _). rewrite app_nil_r in Hh.
  subst processed. fold (firsts s) (hists s). split_and!.
  - intros Hnil. rewrite Hnil in Hh. simpl in Hh.
    apply fmap_nil_inv in Hh. rewrite Hh in Hv. simpl in Hv.
    now apply Hw.
  - exact Hf.
  - exact Hh.
  - apply Forall_lookup. intros i c Hi.
    destruct (vclosed c) eqn:Hc; [reflexivity |].
    destruct (Hcl _ _ Hi Hc) as [_ Hp]. rewrite Hpc in Hp. discriminate Hp.
Qed.

(** The first records of the groups of a list of records stay what they
    are when more records follow. *)
Lemma groups_firsts_app (a b : list KeyValue) :
  exists rest, (groups (a ++ b)).*1 = (groups a).*1 ++ rest.
Proof.
  induction b as [|x b IH] using rev_ind.
  - exists []. now rewrite !app_nil_r.
  - destruct IH as [rest IH]. rewrite app_assoc.
    destruct (groups (a ++ b)) as [|[f vs] G0 _] eqn:HG using rev_ind.
    + apply groups_nil_inv in HG. apply app_eq_nil in HG as [-> ->]. simpl.
      eexists. reflexivity.
    + rewrite (groups_snoc _ x _ _ _ HG). rewrite fmap_app in IH. simpl in IH.
      destruct (String.eqb (ReduceKey f) (ReduceKey x)).
      * exists rest. rewrite fmap_app. simpl. exact IH.
      * exists (rest ++ [x]). rewrite fmap_app. simpl.
        change [f; x] with ([f] ++ [x]). rewrite app_assoc, IH.
        now rewrite <- app_assoc.
Qed.

Lemma concat_insert_same {A B} (h : A -> list B) (l : list A) (i : nat) (x y : A) :
  l !! i = Some x -> h y = h x -> concat (h <$> <[i := y]> l) = concat (h <$> l).
Proof. intros Hi Hh. now rewrite (fmap_insert_same _ _ _ _ _ Hi Hh). Qed.

Lemma concat_insert_snoc {A B} (h : A -> list B) (l : list A) (i : nat) (x y : A) (b : B) :
  l !! i = Some x -> h y = h x ++ [b] ->
  Permutation (concat (h <$> <[i := y]> l)) (concat (h <$> l) ++ [b]).
Proof.
  intros Hi Hh.
  apply list_elem_of_split_length in Hi as (l1 & l2 & -> & ->).
  rewrite insert_app_r_alt by lia. rewrite Nat.sub_diag. simpl.
  rewrite !fmap_app, !concat_app. simpl. rewrite Hh.
  rewrite <- !app_assoc. apply Permutation_app_head, Permutation_app_head.
  apply Permutation_app_comm.
Qed.

(** The calls made so far are those of the goroutines that have started to
    run. *)
Lemma calls_started_step (l : label) (s s' : state) :
  step l s = Some s' ->
  Permutation (calls s).*1 (concat (started_keys <$> gs s)) ->
  Permutation (calls s').*1 (concat (started_keys <$> gs s')).
Proof.
  intros Hstep IH.
  step_cases Hstep; simpl in *; try exact IH.
  - (* go func() {...}() *)
    rewrite fmap_app, concat_app. simpl. now rewrite app_nil_r.
  - (* the call of mrjob.Reduce *)
    rewrite fmap_app. simpl.
    erewrite concat_insert_snoc; [| eassumption |].
    + apply Permutation_app_tail. exact IH.
    + unfold started_keys. simpl.
      match goal with Hx : g_pc _ = GStart |- _ => rewrite Hx end. reflexivity.
  - erewrite concat_insert_same; [exact IH | eassumption |].
    unfold started_keys. simpl.
    match goal with Hx : g_pc _ = GReduce _ |- _ => rewrite Hx end. reflexivity.
  - erewrite concat_insert_same; [exact IH | eassumption |].
    unfold started_keys. simpl.
    match goal with Hx : g_pc _ = GSending _ |- _ => rewrite Hx end. reflexivity.
  - erewrite concat_insert_same; [exact IH | eassumption |].
    unfold started_keys. simpl.
    match goal with Hx : g_pc _ = GSent |- _ => rewrite Hx end. reflexivity.
  - erewrite concat_insert_same; [exact IH | eassumption |].
    unfold started_keys. simpl.
    match goal with Hx : g_pc _ = GClosing _ |- _ => rewrite Hx end. reflexivity.
  - erewrite concat_insert_same; [exact IH | eassumption |].
    unfold started_keys. simpl.
    match goal with Hx : g_pc _ = GReduce _ |- _ => rewrite Hx end. reflexivity.
Qed.

Lemma length_started_keys (gs0 : list goroutine) :
  length (concat (started_keys <$> gs0)) <= length gs0.
Proof.
  induction gs0 as [|g gs0 IH]; [simpl; lia |].
  rewrite fmap_cons. cbn [concat]. rewrite length_app. cbn [length].
  unfold started_keys at 1. destruct (g_pc g); cbn [length]; lia.
Qed.

(** X10: in every state that [reducer] reaches, whatever the schedule,
    the goroutines started so far are those of the first groups of the
    input, in their order, each with the first record of its group; and the
    calls of [mrjob.Reduce] made so far are, up to their order, the calls of
    the goroutines that have started to run, with the keys of those first
    records.  So there is at most one call for a group, and none with other
    keys. *)
Theorem reducer_calls_follow_groups (input : string) (s : state) :
  reaches (init input) s ->
  (exists rest, (groups (records input)).*1 = (g_mkv <$> gs s) ++ rest)
  /\ Permutation (calls s).*1 (concat (started_keys <$> gs s))
  /\ length (calls s) <= length (gs s) <= length (groups (records input)).
Proof.
  intros Hr.
  assert (Hpre : exists rest, (groups (records input)).*1 = (g_mkv <$> gs s) ++ rest).
  { pose proof (reaches_driver_inv _ _ Hr) as (processed & _ & _ & _ & Hat).
    fold (firsts s). unfold driver_at, shape in Hat.
    destruct (d_pc s) as [|[mkv|]|[mkv|]|mkv|mkv|mkv|mkv|].
    all: destruct Hat as (Hrec & Hat); rewrite Hrec.
    all: try (destruct Hat as ((Hf & _) & _); rewrite Hf; apply groups_firsts_app).
    all: try (destruct Hat as (Hf & _ & _); rewrite Hf; exists []; now rewrite app_nil_r).
    destruct Hat as (_ & Hf & _). rewrite Hf.
    change (mkv :: records (br s)) with ([mkv] ++ records (br s)).
    rewrite app_assoc. apply groups_firsts_app. }
  assert (Hperm : Permutation (calls s).*1 (concat (started_keys <$> gs s))).
  { clear Hpre. revert s Hr.
    apply (reaches_ind_step
             (fun s => Permutation (calls s).*1 (concat (started_keys <$> gs s)))).
    - constructor.
    - intros l s s' _ IH Hstep. exact (calls_started_step _ _ _ Hstep IH). }
  split_and!; [exact Hpre | exact Hperm | |].
  - pose proof (Permutation_length Hperm) as Hlen. rewrite length_fmap in Hlen.
    pose proof (length_started_keys (gs s)) as Hle. rewrite <- Hlen in Hle. exact Hle.
  - destruct Hpre as [rest Hpre]. apply (f_equal length) in Hpre.
    rewrite length_app, !length_fmap in Hpre. lia.
Qed.

(** X11: as long as no [<-done] has returned on a closed channel, the
    goroutines of [reducer] take their turns: at most one invocation of
    [mrjob.Reduce] is active, it is that of the goroutine started last and
    it reads the channel of its own group, and the calls were made in the
    order of the groups, call [i] with the keys of group [i] and the channel
    of group [i]. *)
Theorem reducer_in_order_before_early_return (input : string) (s : state) :
  reaches (init input) s -> early s = 0 ->
  activeReduces s <= 1
  /\ (forall i g ch, gs s !! i = Some g -> g_pc g = GReduce ch ->
        ch = i /\ S i = length (gs s))
  /\ (forall i (c : ReduceCall), calls s !! i = Some c ->
        exists g, gs s !! i = Some g
                  /\ c = (ReduceKey (g_mkv g), SortKey (g_mkv g), i)).
Proof.
  intros Hr He. split; [exact (at_most_one_active _ _ Hr He) |].
  destruct (reaches_reducer_inv _ _ Hr) as (_ & _ & Hg). specialize (Hg He).
  pose proof Hg as (Hlen & _ & Hgood). split.
  - intros i g ch Hi Hpc. destruct (Hgood _ _ Hi) as (_ & Hch & _).
    rewrite Hpc in Hch. split; [exact Hch |].
    destruct (unsent_last _ _ _ Hg Hi) as [_ Hn]; [|now rewrite Hn].
    unfold is_sent. now rewrite Hpc.
  - intros i c Hi.
    assert (Hlt : i < length (gs s)).
    { eapply Nat.lt_le_trans; [exact (lookup_lt_Some _ _ _ Hi) | exact Hlen]. }
    apply lookup_lt_is_Some in Hlt as [g Hgi]. exists g. split; [exact Hgi |].
    destruct (Hgood _ _ Hgi) as (_ & _ & _ & Hstart & Hcall).
    destruct (g_pc g) eqn:Hpc;
      try (rewrite Hcall in Hi by discriminate; now injection Hi as <-).
    pose proof (lookup_lt_Some _ _ _ Hi) as Hlt'. specialize (Hstart eq_refl).
    exfalso. apply (Nat.lt_irrefl i).
    exact (eq_ind _ (fun n => i < n) Hlt' _ Hstart).
Qed.

(** A state in which the driver is blocked for ever in [values <- mkv.Value]. *)
Lemma blocked_step (mkv : KeyValue) (ch : nat) (buf : list string) (l : label)
    (s s' : state) :
  step l s = Some s' ->
  d_pc s = DSend mkv /\ values s = Some ch
  /\ (exists c, vchans s !! ch = Some c /\ vbuf c = buf) /\ length buf = valuesCap
  /\ no_reader ch s ->
  d_pc s' = DSend mkv /\ values s' = Some ch
  /\ (exists c, vchans s' !! ch = Some c /\ vbuf c = buf) /\ length buf = valuesCap
  /\ no_reader ch s'.
Proof.
  intros Hstep (Hpc & Hv & (c & Hc & Hbuf) & Hfull & Hno). unfold no_reader in *.
  step_cases Hstep; simpl in *.
  all: try congruence.
  all: try (split_and!; try assumption; try (now exists c); fail).
  all: try match goal with
           | Hg : gs _ !! ?i = Some ?g, Hp : g_pc ?g = _ |- _ =>
               pose proof (proj1 (Forall_lookup _ _) Hno _ _ Hg) as Hgi;
               simpl in Hgi; rewrite Hp in Hgi
           end.
  all: try contradiction.
  all: try (split_and!; try assumption; try (now exists c);
            apply Forall_insert; [assumption | exact I]; fail).
  - (* send on a closed channel: a panic, the driver stays where it is *)
    split_and!; try assumption; try congruence. now exists c.
  - (* the buffer is full: the send does not happen *)
    exfalso.
    match goal with
    | Hx : vchans _ !! ?n = Some ?v, Hy : (length (vbuf ?v) <? valuesCap) = true |- _ =>
        assert (n = ch) as -> by congruence;
        assert (v = c) as -> by congruence;
        apply Nat.ltb_lt in Hy; rewrite Hbuf in Hy; lia
    end.
  - (* another channel is read *)
    split_and!; try assumption.
    + exists c. split; [|exact Hbuf]. now rewrite list_lookup_insert_ne by congruence.
    + apply Forall_insert; [assumption |]. simpl. exact Hgi.
Qed.

(** X12: [mrjob.Reduce] has to drain its channel.  When the driver is
    about to send a value on a [values] channel whose buffer is full, and no
    goroutine reads that channel or is still to start ([mrjob.Reduce] has
    returned before the end of its group), the driver is blocked for ever:
    [reducer] does not return, and no more input is read. *)
Theorem reducer_blocks_when_not_drained (input : string) (s : state)
    (mkv : KeyValue) (ch : nat) (c : vchan) :
  reaches (init input) s ->
  d_pc s = DSend mkv -> values s = Some ch -> vchans s !! ch = Some c ->
  length (vbuf c) = valuesCap -> no_reader ch s ->
  forall s', reaches s s' ->
    d_pc s' = DSend mkv /\ br s' = br s
    /\ exists c', vchans s' !! ch = Some c' /\ vbuf c' = vbuf c.
Proof.
  intros _ Hpc Hv Hc Hfull Hno s' Hr'.
  enough (H : (d_pc s' = DSend mkv /\ values s' = Some ch
               /\ (exists c', vchans s' !! ch = Some c' /\ vbuf c' = vbuf c)
               /\ length (vbuf c) = valuesCap /\ no_reader ch s')
              /\ br s' = br s) by tauto.
  revert s' Hr'.
  apply (reaches_ind_step
           (fun s' => (d_pc s' = DSend mkv /\ values s' = Some ch
                       /\ (exists c', vchans s' !! ch = Some c' /\ vbuf c' = vbuf c)
                       /\ length (vbuf c) = valuesCap /\ no_reader ch s')
                      /\ br s' = br s)).
  - split_and!; try assumption; try reflexivity. now exists c.
  - intros l s1 s2 _ [IH Hbr] Hstep. split.
    + exact (blocked_step _ _ _ _ _ _ Hstep IH).
    + rewrite <- Hbr. destruct IH as (Hpc1 & _).
      clear -Hstep Hpc1. step_cases Hstep; simpl; congruence.
Qed.

Lemma reducer_buffer_bounded_witness :
  Forall (fun c => length (vbuf c) <= valuesCap) (vchans undrained_state)
  /\ (length <$> (vbuf <$> vchans undrained_state)) = [64].
Proof.
  split.
  - apply (reducer_buffer_bounded (same_key_lines 65)).
    exists (sched_no_drain 63). vm_compute. reflexivity.
  - vm_compute. reflexivity.
Defined.

Lemma reducer_driver_returned_witness :
  records input_aabbbc <> []
  /\ g_mkv <$> gs (final input_aabbbc) = (groups (records input_aabbbc)).*1
  /\ vhist <$> vchans (final input_aabbbc) = (groups (records input_aabbbc)).*2
  /\ Forall (fun c => vclosed c = true) (vchans (final input_aabbbc)).
Proof.
  apply (reducer_driver_returned input_aabbbc (final input_aabbbc)).
  - apply final_aabbbc.
  - vm_compute. reflexivity.
Defined.

Lemma reducer_calls_follow_groups_witness :
  (exists rest, (groups (records input_abc)).*1 = (g_mkv <$> gs overlap_state) ++ rest)
  /\ Permutation (calls overlap_state).*1 (concat (started_keys <$> gs overlap_state))
  /\ length (calls overlap_state) <= length (gs overlap_state)
     <= length (groups (records input_abc)).
Proof.
  apply (reducer_calls_follow_groups input_abc overlap_state).
  exists sched_overlap. vm_compute. reflexivity.
Defined.

Lemma reducer_in_order_before_early_return_witness :
  activeReduces (final input_aabbbc) <= 1
  /\ (forall i g ch, gs (final input_aabbbc) !! i = Some g -> g_pc g = GReduce ch ->
        ch = i /\ S i = length (gs (final input_aabbbc)))
  /\ (forall i (c : ReduceCall), calls (final input_aabbbc) !! i = Some c ->
        exists g, gs (final input_aabbbc) !! i = Some g
                  /\ c = (ReduceKey (g_mkv g), SortKey (g_mkv g), i)).
Proof.
  apply (reducer_in_order_before_early_return input_aabbbc (final input_aabbbc)).
  - apply final_aabbbc.
  - vm_compute. reflexivity.
Defined.

Lemma reducer_blocks_when_not_drained_witness :
  reaches (init (same_key_lines 65)) undrained_state
  /\ forall s', reaches undrained_state s' ->
       d_pc s' = DSend (mkKeyValue "k" "" "v") /\ br s' = br undrained_state
       /\ exists c', vchans s' !! 0 = Some c'
                     /\ vbuf c' = vbuf (mkVchan (replicate 64 "v") false (replicate 64 "v")).
Proof.
  split; [exists (sched_no_drain 63); vm_compute; reflexivity |].
  apply (reducer_blocks_when_not_drained (same_key_lines 65) undrained_state
           (mkKeyValue "k" "" "v") 0 (mkVchan (replicate 64 "v") false (replicate 64 "v"))).
  - exists (sched_no_drain 63). vm_compute. reflexivity.
  - vm_compute. reflexivity.
  - vm_compute. reflexivity.
  - vm_compute. reflexivity.
  - vm_compute. reflexivity.
  - unfold no_reader. vm_compute. repeat constructor.
Defined.

(* --------------------------------------------------------------------- *)
(** ** The reader on complete lines                                        *)
(* --------------------------------------------------------------------- *)

Lemma SplitN_2 (k : string) :
  SplitN k COMMA 2
  = match cut COMMA k with
    | Some (a, b) => [a; b]
    | None => [k]
    end.
Proof. simpl. destruct (cut COMMA k) as [[a b]|]; reflexivity. Qed.

Lemma unreserved_byte (c : ascii) :
  shouldEscape c = false ->
  Ascii.eqb c TAB = false /\ Ascii.eqb c NL = false /\ Ascii.eqb c COMMA = false
  /\ Ascii.eqb c PERCENT = false /\ Ascii.eqb c PLUS = false.
Proof. each_byte c; intros H; try discriminate H; repeat split. Qed.

(** A string of unreserved bytes holds no separator and is its own escaped
    and unescaped form. *)
Lemma unreserved_plain (s : string) :
  unreserved s = true ->
  occurs TAB s = false /\ occurs NL s = false /\ occurs COMMA s = false
  /\ QueryEscape s = s /\ QueryUnescape s = Ok s.
Proof.
  induction s as [|c s IH]; simpl; [repeat split |].
  intros H. apply andb_true_iff in H as [Hc Hs]. apply negb_true_iff in Hc.
  destruct (IH Hs) as (Ht & Hn & Hco & He & Hu).
  destruct (unreserved_byte c Hc) as (H1 & H2 & H3 & H4 & H5).
  rewrite H1, H2, H3, H4, H5, Hc, Ht, Hn, Hco, He, Hu. repeat split.
Qed.

(** The reader on a line whose key field holds no tab and whose value holds
    no newline. *)
Lemma readLineKeyValue_complete (k v rest : string) :
  occurs TAB k = false -> newlineFree v ->
  readLineKeyValue (k +:+ String TAB (v +:+ String NL rest))
  = match decodeKey k with
    | Ok (r, s) => (Ok (mkKeyValue r s v), rest)
    | Err e => (Err e, v +:+ String NL rest)
    end.
Proof.
  intros Hk Hv. unfold readLineKeyValue, ReadString, decodeKey.
  rewrite (splitAt_append TAB k _ Hk), (TrimRight_delim TAB k Hk), SplitN_2.
  destruct (cut COMMA k) as [[a b]|]; simpl.
  - destruct (QueryUnescape a) as [r|e]; [|reflexivity].
    destruct (QueryUnescape b) as [s|e]; [|reflexivity].
    rewrite (splitAt_append NL v _ Hv), (TrimRight_delim NL v Hv). reflexivity.
  - destruct (QueryUnescape k) as [r|e]; [|reflexivity].
    rewrite (splitAt_append NL v _ Hv), (TrimRight_delim NL v Hv). reflexivity.
Qed.

(** X13: [readLineKeyValue] on a complete line.  The key field is all
    that comes before the first tab, newlines included; it is cut at its
    first comma and both parts are unescaped; the value is all that follows
    up to the first newline, tabs included.  When the key field cannot be
    unescaped the reader returns the error and leaves the value unread.  A
    key of unreserved bytes is returned as it is. *)
Theorem readLineKeyValue_line (k v rest : string) :
  occurs TAB k = false -> newlineFree v ->
  readLineKeyValue (k +:+ String TAB (v +:+ String NL rest))
  = match decodeKey k with
    | Ok (r, s) => (Ok (mkKeyValue r s v), rest)
    | Err e => (Err e, v +:+ String NL rest)
    end
  /\ (unreserved k = true -> decodeKey k = Ok (k, ""))
  /\ (forall l, occurs TAB l = false -> occurs COMMA (l +:+ String NL k) = false ->
      QueryUnescape (l +:+ String NL k) = Ok (l +:+ String NL k) ->
      readLineKeyValue (l +:+ String NL (k +:+ String TAB (v +:+ String NL rest)))
      = (Ok (mkKeyValue (l +:+ String NL k) "" v), rest)).
Proof.
  intros Hk Hv.
  split_and!.
  - exact (readLineKeyValue_complete k v rest Hk Hv).
  - intros Hu. destruct (unreserved_plain k Hu) as (_ & _ & Hco & _ & Hq).
    unfold decodeKey. now rewrite (cut_none COMMA k Hco), Hq.
  - intros l Hl Hco Hq.
    assert (Hlk : occurs TAB (l +:+ String NL k) = false).
    { rewrite occurs_append. simpl. now rewrite Hl, Hk. }
    pose proof (readLineKeyValue_complete _ v rest Hlk Hv) as Hline.
    rewrite append_assoc in Hline. simpl in Hline.
    rewrite Hline. unfold decodeKey. now rewrite (cut_none COMMA _ Hco), Hq.
Qed.

Lemma records_line (k v rest : string) :
  occurs TAB k = false -> newlineFree v ->
  records (k +:+ String TAB (v +:+ String NL rest))
  = match lineRecord (k, v) with
    | Some kv => kv :: records rest
    | None => []
    end.
Proof.
  intros Hk Hv. rewrite records_unfold.
  rewrite (readLineKeyValue_complete k v rest Hk Hv).
  unfold lineRecord. simpl. destruct (decodeKey k) as [[r s]|e]; reflexivity.
Qed.

Lemma records_bad_key (k rest : string) (e : error) :
  occurs TAB k = false -> decodeKey k = Err e ->
  records (k +:+ String TAB rest) = [].
Proof.
  intros Hk Hd. rewrite records_unfold.
  unfold readLineKeyValue, ReadString.
  rewrite (splitAt_append TAB k _ Hk), (TrimRight_delim TAB k Hk), SplitN_2.
  unfold decodeKey in Hd.
  destruct (cut COMMA k) as [[a b]|]; simpl.
  - destruct (QueryUnescape a) as [r|e1]; [|reflexivity].
    destruct (QueryUnescape b) as [s|e2]; [discriminate | reflexivity].
  - destruct (QueryUnescape k) as [r|e1]; [discriminate | reflexivity].
Qed.

(** X14: the records of a stream of lines.  [reducer] reads one record
    for every line, in order, as long as the key fields can be unescaped;
    what follows the lines is read in the same way.  At the first line whose
    key field cannot be unescaped (a ["%"] that is not followed by two
    hexadecimal digits) the reading ends without any report: that line and
    all that follows it, whatever it holds, give no record. *)
Theorem records_of_lines (ls : list (string * string)) (kvs : list KeyValue) :
  Forall wellFormedLine ls -> lineRecords ls = Some kvs ->
  (forall tail, records (rawLines ls +:+ tail) = kvs ++ records tail)
  /\ (forall bad rest e, occurs TAB bad = false -> decodeKey bad = Err e ->
        records (rawLines ls +:+ (bad +:+ String TAB rest)) = kvs).
Proof.
  intros Hwf Hm.
  assert (Htail : forall tail, records (rawLines ls +:+ tail) = kvs ++ records tail).
  { revert kvs Hm. induction Hwf as [|[k v] ls [Hk Hv] Hwf IH]; intros kvs Hm tail.
    - simpl in Hm. injection Hm as <-. reflexivity.
    - cbn [lineRecords] in Hm. simpl in Hk, Hv.
      destruct (lineRecord (k, v)) as [kv|] eqn:Hkv; [|discriminate].
      destruct (lineRecords ls) as [kvs'|] eqn:Hm'; [|discriminate].
      injection Hm as <-.
      cbn [rawLines]. rewrite append_assoc.
      change (String TAB (v +:+ String NL (rawLines ls)) +:+ tail)
        with (String TAB ((v +:+ String NL (rawLines ls)) +:+ tail)).
      rewrite append_assoc.
      change (String NL (rawLines ls) +:+ tail) with (String NL (rawLines ls +:+ tail)).
      rewrite (records_line k v _ Hk Hv), Hkv. cbn [app]. f_equal. now apply IH. }
  split; [exact Htail |].
  intros bad rest e Hb Hd. rewrite Htail, (records_bad_key bad rest e Hb Hd).
  apply app_nil_r.
Qed.

Lemma readLineKeyValue_line_witness :
  readLineKeyValue ("a%2Cb,s+1" +:+ String TAB ("v	w" +:+ String NL "rest"))
  = (Ok (mkKeyValue "a,b" "s 1" "v	w"), "rest")
  /\ decodeKey "key-1" = Ok ("key-1", "")
  /\ readLineKeyValue ("no tab here" +:+ String NL ("k" +:+ String TAB ("v" +:+ String NL "")))
     = (Ok (mkKeyValue ("no tab here" +:+ String NL "k") "" "v"), "").
Proof.
  destruct (readLineKeyValue_line "a%2Cb,s+1" "v	w" "rest") as (H1 & _ & _);
    [reflexivity | reflexivity |].
  destruct (readLineKeyValue_line "key-1" "v" "") as (_ & H2 & _);
    [reflexivity | reflexivity |].
  destruct (readLineKeyValue_line "k" "v" "") as (_ & _ & H3);
    [reflexivity | reflexivity |].
  split_and!.
  - exact H1.
  - apply H2. reflexivity.
  - apply H3; reflexivity.
Defined.

Lemma records_of_lines_witness :
  (forall tail, records (rawLines [("a,s", "1"); ("b", "2")] +:+ tail)
                = [mkKeyValue "a" "s" "1"; mkKeyValue "b" "" "2"] ++ records tail)
  /\ (forall bad rest e, occurs TAB bad = false -> decodeKey bad = Err e ->
        records (rawLines [("a,s", "1"); ("b", "2")] +:+ (bad +:+ String TAB rest))
        = [mkKeyValue "a" "s" "1"; mkKeyValue "b" "" "2"]).
Proof.
  apply (records_of_lines [("a,s", "1"); ("b", "2")]).
  - repeat constructor.
  - reflexivity.
Defined.

Example records_stop_at_bad_escape :
  records (rawLines [("a", "1"); ("100%", "2"); ("c", "3")])
  = [mkKeyValue "a" "" "1"].
Proof. vm_compute. reflexivity. Qed.

(* --------------------------------------------------------------------- *)
(** ** The TSV protocol: what is read back                                *)
(* --------------------------------------------------------------------- *)

Lemma Split_nonempty (s : string) (sep : ascii) : Split s sep <> [].
Proof.
  destruct s as [|c r]; simpl; [discriminate |].
  destruct (Ascii.eqb c sep); [discriminate |].
  destruct (Split r sep); discriminate.
Qed.

Lemma Split_length (s : string) (sep : ascii) :
  length (Split s sep) = S (countByte sep s).
Proof.
  induction s as [|c r IH]; simpl; [reflexivity |].
  destruct (Ascii.eqb c sep); simpl; [now rewrite IH |].
  pose proof (Split_nonempty r sep) as Hne.
  destruct (Split r sep) as [|p ps]; [congruence |]. exact IH.
Qed.

Lemma Split_plain (s : string) (sep : ascii) :
  occurs sep s = false -> Split s sep = [s].
Proof.
  induction s as [|c r IH]; simpl; [reflexivity |].
  intros H. apply orb_false_iff in H as [Hc Hr].
  now rewrite Hc, (IH Hr).
Qed.

Lemma Split_append (a b : string) (sep : ascii) :
  occurs sep a = false -> Split (a +:+ String sep b) sep = a :: Split b sep.
Proof.
  induction a as [|c r IH]; simpl.
  - intros _. now rewrite Ascii.eqb_refl.
  - intros H. apply orb_false_iff in H as [Hc Hr].
    now rewrite Hc, (IH Hr).
Qed.

(** [strings.Split] undoes [strings.Join] on texts without the separator;
    for no text at all it gives one empty text. *)
Lemma Split_Join (ts : list string) :
  Forall (fun t => occurs TAB t = false) ts ->
  Split (Join ts (String TAB "")) TAB = match ts with [] => [""] | _ => ts end.
Proof.
  induction 1 as [|t ts Ht Hts IH]; [reflexivity |].
  destruct ts as [|t' ts'].
  - simpl. now apply Split_plain.
  - change (Join (t :: t' :: ts') (String TAB ""))
      with (t +:+ String TAB "" +:+ Join (t' :: ts') (String TAB "")).
    change (String TAB "" +:+ Join (t' :: ts') (String TAB ""))
      with (String TAB (Join (t' :: ts') (String TAB ""))).
    rewrite (Split_append _ _ _ Ht), IH. reflexivity.
Qed.

Lemma scanLoop_spec (dest : nat -> option ScanDest) (d : nat -> ScanDest)
    (vs : list string) (count from : nat) :
  (forall i, from <= i < from + count -> dest i = Some (d i)) ->
  from <= length vs ->
  scanLoop dest vs from count
  = if decide (from + count <= length vs)
    then Some (imap (fun i t => (t, d (from + i))) (take count (drop from vs)))
    else None.
Proof.
  revert from. induction count as [|n IH]; intros from Hd Hfrom; simpl.
  - destruct (decide _) as [_|Hn]; [reflexivity | lia].
  - destruct (vs !! from) as [t|] eqn:Ht.
    + pose proof (lookup_lt_Some _ _ _ Ht) as Hlt.
      rewrite (Hd from) by lia.
      rewrite IH by (try lia; intros i Hi; apply Hd; lia).
      destruct (decide (S from + n <= length vs)) as [Hle|Hgt];
        destruct (decide (from + S n <= length vs)) as [Hle'|Hgt']; try lia;
        [|reflexivity].
      rewrite (drop_S _ _ _ Ht). cbn [take imap]. rewrite Nat.add_0_r.
      f_equal. f_equal. apply imap_ext. intros i x _. simpl.
      now rewrite Nat.add_succ_r.
    + apply lookup_ge_None in Ht.
      destruct (decide (from + S n <= length vs)) as [Hle'|Hgt']; [lia | reflexivity].
Qed.

Lemma scanLoop_0 (dest : nat -> option ScanDest) (d : nat -> ScanDest)
    (vs : list string) (count : nat) :
  (forall i, i < count -> dest i = Some (d i)) ->
  scanLoop dest vs 0 count
  = if decide (count <= length vs) then Some (scansInto d (take count vs)) else None.
Proof.
  intros Hd. rewrite (scanLoop_spec dest d) by (try lia; intros i Hi; apply Hd; lia).
  simpl. rewrite drop_0. reflexivity.
Qed.

(** The loop panics when it comes to a destination that cannot be taken. *)
Lemma scanLoop_no_dest (dest : nat -> option ScanDest) (vs : list string)
    (count from i : nat) :
  from <= i < from + count -> dest i = None -> scanLoop dest vs from count = None.
Proof.
  revert from. induction count as [|n IH]; intros from Hi Hd; [lia |]. simpl.
  destruct (vs !! from) as [t|]; [|reflexivity].
  destruct (decide (i = from)) as [->|Hne]; [now rewrite Hd |].
  destruct (dest from); [|reflexivity].
  rewrite IH by (try lia; assumption). reflexivity.
Qed.

Lemma fieldDest_exported (exported : list bool) (i : nat) :
  Forall (fun b => b = true) exported -> i < length exported ->
  fieldDest exported i = Some (DField i).
Proof.
  intros He Hi. unfold fieldDest.
  destruct (lookup_lt_is_Some_2 _ _ Hi) as [b Hb].
  rewrite Hb. now rewrite (proj1 (Forall_lookup _ _) He i b Hb).
Qed.

Lemma lookup_Split_0 (s : string) : exists t, Split s TAB !! 0 = Some t.
Proof.
  pose proof (Split_nonempty s TAB) as Hne.
  destruct (Split s TAB) as [|t ts]; [congruence | now exists t].
Qed.

Lemma unreserved_uint (d : Decimal.uint) : unreserved (NilEmpty.string_of_uint d) = true.
Proof. induction d; simpl; auto. Qed.

Lemma unreserved_uint0 (d : Decimal.uint) : unreserved (NilZero.string_of_uint d) = true.
Proof.
  destruct d; [reflexivity | ..]; unfold NilZero.string_of_uint;
    match goal with |- unreserved (NilEmpty.string_of_uint ?x) = true =>
      exact (unreserved_uint x) end.
Qed.

Lemma unreserved_FormatInt (i : Z) : unreserved (FormatInt i) = true.
Proof.
  unfold FormatInt, NilZero.string_of_int.
  destruct (Z.to_int i) as [d|d]; [apply unreserved_uint0 |].
  change (negb (shouldEscape "-") && unreserved (NilZero.string_of_uint d) = true).
  now rewrite unreserved_uint0.
Qed.

Lemma FormatInt_inj (i j : Z) : FormatInt i = FormatInt j -> i = j.
Proof.
  unfold FormatInt. intros H.
  assert (Hnn : forall z, Z.to_int z <> Decimal.Pos Decimal.Nil
                          /\ Z.to_int z <> Decimal.Neg Decimal.Nil).
  { intros [|p|p]; simpl; split; try discriminate; intros Hp; injection Hp;
      apply DecimalPos.Unsigned.to_uint_nonnil. }
  apply (f_equal NilZero.int_of_string) in H.
  rewrite !NilZero.isi in H by apply Hnn.
  injection H as H. apply (f_equal Z.of_int) in H.
  now rewrite !DecimalZ.of_to in H.
Qed.

Section ProtoScans.

Context {float64 : Type} (FormatFloat_g5 : float64 -> string).

Lemma text_numberOf (v : @GoValue float64) (n : Z) :
  numberOf v = Some n -> primitiveToString FormatFloat_g5 v = FormatInt n.
Proof.
  destruct v as [|b|k i|k u| | | | | |]; simpl; try discriminate; intros [= <-].
  - now destruct b.
  - reflexivity.
  - now destruct u.
Qed.

(** X15: what [TSVProtocol.UnmarshalKVs] needs of a value.  For a struct
    type the value must hold at least as many tab-separated texts as the
    type has fields, and for an array type as many as its length: with
    fewer the index [vs[i]] is out of range and the call panics, with more
    the surplus is ignored.  A struct type with a field that is not exported
    makes the call panic on every value.  For a primitive type the text
    before the first tab is scanned and the call cannot panic; for every
    other type nothing is scanned. *)
Theorem UnmarshalKVs_row_bounds (vKind : Kind) (exported : list bool) (len : nat)
    (s : string) :
  (Forall (fun b => b = true) exported ->
   scansOfValue KStruct exported len s
   = if decide (length exported <= S (countByte TAB s))
     then Some (scansInto DField (take (length exported) (Split s TAB))) else None)
  /\ (false ∈ exported -> scansOfValue KStruct exported len s = None)
  /\ scansOfValue KArray exported len s
     = (if decide (len <= S (countByte TAB s))
        then Some (scansInto DIndex (take len (Split s TAB))) else None)
  /\ (isPrimitive vKind = true ->
      exists t rest, Split s TAB = t :: rest
                     /\ scansOfValue vKind exported len s = Some [(t, DElem)])
  /\ (isPrimitive vKind = false -> vKind <> KStruct -> vKind <> KArray ->
      scansOfValue vKind exported len s = Some []).
Proof.
  split_and!.
  - intros He. unfold scansOfValue. cbn [Kind_eqb KindNumber Nat.eqb].
    rewrite (scanLoop_0 _ DField) by (intros i Hi; now apply fieldDest_exported).
    now rewrite Split_length.
  - intros Hin. apply list_elem_of_lookup_1 in Hin as [i Hi].
    unfold scansOfValue. cbn [Kind_eqb KindNumber Nat.eqb].
    apply (scanLoop_no_dest _ _ _ _ i).
    + pose proof (lookup_lt_Some _ _ _ Hi). lia.
    + unfold fieldDest. now rewrite Hi.
  - unfold scansOfValue. cbn [Kind_eqb KindNumber Nat.eqb].
    rewrite (scanLoop_0 _ DIndex) by reflexivity.
    now rewrite Split_length.
  - intros Hp. pose proof (Split_nonempty s TAB) as Hne.
    destruct (Split s TAB) as [|t rest] eqn:Hs; [congruence |].
    exists t, rest. split; [reflexivity |].
    unfold scansOfValue. rewrite Hs.
    destruct vKind; try discriminate Hp; reflexivity.
  - intros Hp Hs Ha. unfold scansOfValue.
    destruct vKind; try discriminate Hp; try congruence; reflexivity.
Qed.

(** X16: [UnmarshalKVs] on what [MarshalKV] wrote.  When no text of the
    value holds a tab, the fields of a struct whose fields are all exported
    are scanned from their own texts, in order, and so are the elements of
    an array and a primitive value; the call does not panic.  A slice is
    written like an array, but nothing of it is scanned. *)
Theorem UnmarshalKVs_scans_MarshalKV (reduceKey sortKey value : @GoValue float64)
    (kv : KeyValue) (exported : list bool) (len : nat) :
  MarshalKV FormatFloat_g5 reduceKey sortKey value = Some kv ->
  (forall fields, value = VStruct fields ->
     length exported = length fields -> Forall (fun b => b = true) exported ->
     Forall (fun v => occurs TAB (primitiveToString FormatFloat_g5 v) = false) fields ->
     scansOfValue KStruct exported len (Value kv)
     = Some (scansInto DField (primitiveToString FormatFloat_g5 <$> fields)))
  /\ (forall elems, value = VArray elems ->
        Forall (fun v => occurs TAB (primitiveToString FormatFloat_g5 v) = false) elems ->
        scansOfValue KArray exported (length elems) (Value kv)
        = Some (scansInto DIndex (primitiveToString FormatFloat_g5 <$> elems)))
  /\ (isPrimitive (KindOf value) = true ->
      occurs TAB (primitiveToString FormatFloat_g5 value) = false ->
      scansOfValue (KindOf value) exported len (Value kv)
      = Some [(primitiveToString FormatFloat_g5 value, DElem)])
  /\ (forall elems, value = VSlice elems ->
        Value kv = Join (primitiveToString FormatFloat_g5 <$> elems) (String TAB "")
        /\ scansOfValue KSlice exported len (Value kv) = Some []).
Proof.
  intros Hm.
  assert (Hrows : forall (dest : nat -> option ScanDest) (d : nat -> ScanDest)
                         (vs : list (@GoValue float64)),
            (forall i, i < length vs -> dest i = Some (d i)) ->
            Forall (fun v => occurs TAB (primitiveToString FormatFloat_g5 v) = false) vs ->
            scanLoop dest
              (Split (Join (primitiveToString FormatFloat_g5 <$> vs) (String TAB "")) TAB)
              0 (length vs)
            = Some (scansInto d (primitiveToString FormatFloat_g5 <$> vs))).
  { intros dest d vs Hd Hvs.
    rewrite Split_Join by (apply Forall_fmap; exact Hvs).
    rewrite (scanLoop_0 dest d) by exact Hd.
    destruct vs as [|v vs']; [reflexivity |].
    rewrite <- (length_fmap (primitiveToString FormatFloat_g5) (v :: vs')).
    rewrite decide_True by reflexivity.
    now rewrite firstn_all. }
  split_and!.
  - intros fields -> Hlen He Hf. injection Hm as <-. cbn [Value].
    unfold scansOfValue. cbn [Kind_eqb KindNumber Nat.eqb]. rewrite Hlen.
    apply (Hrows _ DField fields); [|exact Hf].
    intros i Hi. apply fieldDest_exported; [exact He | now rewrite Hlen].
  - intros elems -> He. injection Hm as <-. cbn [Value].
    unfold scansOfValue. cbn [Kind_eqb KindNumber Nat.eqb].
    apply (Hrows _ DIndex elems); [reflexivity | exact He].
  - intros Hp Ht. unfold MarshalKV in Hm.
    destruct (TypeKind value) as [k|] eqn:Hk; [|discriminate].
    assert (k = KindOf value) as -> by (destruct value; simplify_eq/=; reflexivity).
    injection Hm as <-. cbn [Value].
    assert (Hvs : valueStrings FormatFloat_g5 (KindOf value) value
                  = [primitiveToString FormatFloat_g5 value]).
    { unfold valueStrings. rewrite Hp.
      destruct value as [| | [] | [] | [] | | | | |[]]; try discriminate Hp; reflexivity. }
    rewrite Hvs. cbn [Join]. unfold scansOfValue.
    rewrite (Split_plain _ _ Ht), Hp.
    destruct value as [| | [] | [] | [] | | | | |[]]; try discriminate Hp; reflexivity.
  - intros elems ->. injection Hm as <-. cbn [Value]. split; [reflexivity |].
    reflexivity.
Qed.

(** X17: boolean and integer keys.  The ReduceKey that [MarshalKV] makes of
    a boolean or an integer is made of digits and a sign only, so it passes
    through [url.QueryEscape] unchanged and holds no separator; two such
    keys give the same ReduceKey exactly when they stand for the same
    number, whatever their kinds ([true], [int8(1)] and [uint(1)] are one
    key). *)
Theorem MarshalKV_number_keys (r r' s s' v v' : @GoValue float64) (kv kv' : KeyValue)
    (n n' : Z) :
  numberOf r = Some n -> numberOf r' = Some n' ->
  MarshalKV FormatFloat_g5 r s v = Some kv ->
  MarshalKV FormatFloat_g5 r' s' v' = Some kv' ->
  (ReduceKey kv = ReduceKey kv' <-> n = n')
  /\ QueryEscape (ReduceKey kv) = ReduceKey kv
  /\ occurs TAB (ReduceKey kv) = false /\ occurs COMMA (ReduceKey kv) = false
  /\ occurs NL (ReduceKey kv) = false.
Proof.
  intros Hn Hn' Hm Hm'. unfold MarshalKV in Hm, Hm'.
  destruct (TypeKind v); [|discriminate]. destruct (TypeKind v'); [|discriminate].
  injection Hm as <-. injection Hm' as <-. cbn [ReduceKey].
  rewrite (text_numberOf _ _ Hn), (text_numberOf _ _ Hn').
  destruct (unreserved_plain _ (unreserved_FormatInt n)) as (Ht & Hnl & Hc & He & _).
  split_and!; try assumption.
  split; [apply FormatInt_inj | now intros ->].
Qed.

(** X18: keys that are not primitive.  Of a key that is a struct, an
    array, a slice, a map, a pointer and so on, [MarshalKV] keeps the kind
    only: two records with the same value whose keys are of the same such
    kind become the same [KeyValue]. *)
Theorem MarshalKV_composite_keys_collide (r r' s s' v : @GoValue float64) :
  isPrimitive (KindOf r) = false -> KindOf r = KindOf r' ->
  MarshalKV FormatFloat_g5 r s v = MarshalKV FormatFloat_g5 r' s' v.
Proof.
  intros Hp Hk. unfold MarshalKV. destruct (TypeKind v); [|reflexivity].
  assert (Ht : primitiveToString FormatFloat_g5 r = primitiveToString FormatFloat_g5 r').
  { destruct r as [| | [] | [] | [] | | | | |[]]; try discriminate Hp;
      destruct r' as [| | [] | [] | [] | | | | |[]]; try discriminate Hk; reflexivity. }
  cbn zeta. now rewrite Ht.
Qed.

End ProtoScans.

Lemma UnmarshalKVs_row_bounds_witness :
  scansOfValue KStruct [true; true] 4 "a	b	c" = Some [("a", DField 0); ("b", DField 1)]
  /\ scansOfValue KStruct [true; false] 4 "a	b	c" = None
  /\ scansOfValue KArray [true; true] 4 "a	b	c" = None
  /\ (exists t rest, Split "a	b	c" TAB = t :: rest
                     /\ scansOfValue KInt [true; true] 4 "a	b	c" = Some [(t, DElem)])
  /\ scansOfValue KSlice [true; false] 4 "a	b	c" = Some [].
Proof.
  destruct (UnmarshalKVs_row_bounds KInt [true; true] 4 "a	b	c") as (H1 & _ & H3 & H4 & _).
  destruct (UnmarshalKVs_row_bounds KSlice [true; false] 4 "a	b	c") as (_ & H2 & _ & _ & H5).
  split_and!.
  - rewrite H1; [reflexivity | repeat constructor].
  - apply H2. right. left.
  - rewrite H3. reflexivity.
  - apply H4. reflexivity.
  - apply H5; [reflexivity | discriminate | discriminate].
Defined.

Lemma UnmarshalKVs_scans_MarshalKV_witness :
  let fields := [VBool true; VString "x y"; VInt SzInt64 (-3)] in
  let kv := mkKeyValue "k" "k" "1	x y	-3" in
  MarshalKV (fun _ : unit => "0") (VString "k") VNil (VStruct fields) = Some kv
  /\ scansOfValue KStruct [true; true; true] 0 (Value kv)
     = Some [("1", DField 0); ("x y", DField 1); ("-3", DField 2)]
  /\ scansOfValue KArray [] 3 (Value kv)
     = Some [("1", DIndex 0); ("x y", DIndex 1); ("-3", DIndex 2)]
  /\ scansOfValue KUint8 [] 0 "200" = Some [("200", DElem)]
  /\ scansOfValue KSlice [] 0 (Value kv) = Some [].
Proof.
  intros fields kv.
  assert (Hs : MarshalKV (fun _ : unit => "0") (VString "k") VNil (VStruct fields) = Some kv)
    by reflexivity.
  assert (Ha : MarshalKV (fun _ : unit => "0") (VString "k") VNil (VArray fields) = Some kv)
    by reflexivity.
  assert (Hp : MarshalKV (fun _ : unit => "0") (VString "k") VNil (VUint SzUint8 200)
               = Some (mkKeyValue "k" "k" "200")) by reflexivity.
  assert (Hl : MarshalKV (fun _ : unit => "0") (VString "k") VNil (VSlice fields) = Some kv)
    by reflexivity.
  split_and!.
  - exact Hs.
  - destruct (UnmarshalKVs_scans_MarshalKV _ _ _ _ kv [true; true; true] 0 Hs) as (H & _).
    apply (H fields); [reflexivity | reflexivity | repeat constructor | repeat constructor].
  - destruct (UnmarshalKVs_scans_MarshalKV _ _ _ _ kv [] 3 Ha) as (_ & H & _).
    apply (H fields); [reflexivity | repeat constructor].
  - destruct (UnmarshalKVs_scans_MarshalKV _ _ _ _ _ [] 0 Hp) as (_ & _ & H & _).
    apply H; reflexivity.
  - destruct (UnmarshalKVs_scans_MarshalKV _ _ _ _ kv [] 0 Hl) as (_ & _ & _ & H).
    apply (H fields). reflexivity.
Defined.

Lemma MarshalKV_number_keys_witness :
  let kv := mkKeyValue "1" "1" "v" in
  let kv' := mkKeyValue "1" "1" "w" in
  (ReduceKey kv = ReduceKey kv' <-> 1%Z = 1%Z)
  /\ QueryEscape (ReduceKey kv) = ReduceKey kv
  /\ occurs TAB (ReduceKey kv) = false /\ occurs COMMA (ReduceKey kv) = false
  /\ occurs NL (ReduceKey kv) = false.
Proof.
  apply (MarshalKV_number_keys (fun _ : unit => "0") (VBool true) (VUint SzUint16 1)
           VNil VNil (VString "v") (VString "w")); reflexivity.
Defined.

Lemma MarshalKV_composite_keys_collide_witness :
  MarshalKV (fun _ : unit => "0") (VStruct [VInt SzInt 1]) VNil (VString "v")
  = MarshalKV (fun _ : unit => "0") (VStruct [VInt SzInt 2; VBool true]) (VInt SzInt 5)
      (VString "v").
Proof.
  apply (MarshalKV_composite_keys_collide (fun _ : unit => "0")); reflexivity.
Defined.
